(** * mp4_to_wav: job scheduling and file lifecycle

    A shallow embedding of [src/services/ConversionService.ts], of the
    cleanup methods of [src/services/FileManager.ts] and of
    [src/services/FFmpegWrapper.ts], followed by the properties of the
    scheduler, of the engine wrapper and of the file manager.

    Conventions of the embedding.
    - The service object is a record; every method is a function that takes
      the state and returns the new one (explicit state passing).
    - JavaScript runs each synchronous block to completion, so one block
      (a method call, a timer callback, the continuation of [processJob]
      after its [await]) is one atomic transition.  The environment (clients,
      the transcoding engine, the timer wheel) chooses which block runs next:
      that is the [Event] type and the [step] function.
    - A job object is shared between the [jobs] map and the closures created
      in [processJob].  Records never leave the map and [uuidv4] never
      returns an id twice, so "the object captured by the closure" and
      "the record stored under its id" are the same object; writes through
      the closure are writes to the map entry.
    - [number] values that count or measure whole units (progress percent,
      epoch milliseconds) are integers [Z].  The concurrency limit is kept
      as the [number] the constructor receives, since nothing validates it:
      a rational, an infinity or NaN, compared as JavaScript compares.
    - Calls to collaborators and to the scheduler's own release/admission
      routines are recorded in an effect log, most recent first. *)

From stdpp Require Import gmap strings list fin_maps fin_sets pretty.
From Stdlib Require Import ZArith QArith Qround Lia Sorted.

Set Warnings "-clear-no-such-hyp".

Open Scope Z_scope.

(** ** Data model ([types]) *)

Inductive JobStatus := Queued | Processing | Completed | Failed | Cancelled.

#[global] Instance JobStatus_eq_dec : EqDecision JobStatus.
Proof. solve_decision. Defined.

Record AudioMetadata := mkAudioMetadata {
  sampleRate : Z;
  bitDepth : Z;
  channels : Z;
  duration : Z;
  codec : string;
  bitrate : Z
}.

Record ConversionJob := mkJob {
  jobId : string;
  inputPath : string;
  outputPath : string;
  originalFilename : string;
  status : JobStatus;
  progress : Z;
  createdAt : Z;
  completedAt : option Z;
  error : option string;
  metadata : option AudioMetadata
}.

Record ConversionStatus := mkStatus {
  cs_jobId : string;
  cs_status : JobStatus;
  cs_progress : Z;
  cs_message : string;
  cs_outputFile : option string
}.

(** Field assignments [job.f = v]. *)
Definition set_status (v : JobStatus) (j : ConversionJob) : ConversionJob :=
  mkJob (jobId j) (inputPath j) (outputPath j) (originalFilename j)
        v (progress j) (createdAt j) (completedAt j) (error j) (metadata j).
Definition set_progress (v : Z) (j : ConversionJob) : ConversionJob :=
  mkJob (jobId j) (inputPath j) (outputPath j) (originalFilename j)
        (status j) v (createdAt j) (completedAt j) (error j) (metadata j).
Definition set_completedAt (v : Z) (j : ConversionJob) : ConversionJob :=
  mkJob (jobId j) (inputPath j) (outputPath j) (originalFilename j)
        (status j) (progress j) (createdAt j) (Some v) (error j) (metadata j).
Definition set_error (v : string) (j : ConversionJob) : ConversionJob :=
  mkJob (jobId j) (inputPath j) (outputPath j) (originalFilename j)
        (status j) (progress j) (createdAt j) (completedAt j) (Some v) (metadata j).
Definition set_metadata (v : AudioMetadata) (j : ConversionJob) : ConversionJob :=
  mkJob (jobId j) (inputPath j) (outputPath j) (originalFilename j)
        (status j) (progress j) (createdAt j) (completedAt j) (error j) (Some v).

(** ** Effects *)

(** What a block does to its collaborators, and the two bookkeeping calls
    whose multiplicity matters.  [ProcessingDelete id] is a call of
    [this.processing.delete(id)]; [AdmissionAttempt (Some id)] is the call of
    [this.processNextJob()] made on the termination path of job [id], and
    [AdmissionAttempt None] the one made by [queueJob]. *)
Inductive Effect :=
| SetTimeout (id : string)
| ClearTimeout (id : string)
| ExtractAudio (id : string)
| ProcessingDelete (id : string)
| AdmissionAttempt (from : option string)
| CleanupJob (id : string).

#[global] Instance Effect_eq_dec : EqDecision Effect.
Proof. solve_decision. Defined.

(** What the engine's promise rejects with: an [Error] instance carrying a
    message, or any other value. *)
Inductive Thrown := ErrorInstance (message : string) | OtherValue.

(** ** The service *)

(** A JavaScript [number]: a finite value (every double is a rational), an
    infinity, or NaN. *)
Inductive JsNumber := Finite (q : Q) | PlusInfinity | MinusInfinity | NaN.

(** A count as a [number]. *)
Definition ofCount (n : nat) : JsNumber := Finite (inject_Z (Z.of_nat n)).
Coercion ofCount : nat >-> JsNumber.

(** [size >= limit], [size] being the [size] of a [Set]: false when [limit]
    is NaN. *)
Definition sizeAtLeast (size : nat) (limit : JsNumber) : Prop :=
  match limit with
  | Finite q => (q <= inject_Z (Z.of_nat size))%Q
  | MinusInfinity => True
  | PlusInfinity | NaN => False
  end.

#[global] Instance sizeAtLeast_dec size limit : Decision (sizeAtLeast size limit).
Proof.
  destruct limit as [q| | |]; simpl; [|right; tauto|left; exact I|right; tauto].
  destruct (Qlt_le_dec (inject_Z (Z.of_nat size)) q) as [Hlt|Hle].
  - right. intros Hle. exact (Qlt_not_le _ _ Hlt Hle).
  - left. exact Hle.
Defined.

(** The least size at which [size >= limit] holds, if there is one: how
    many jobs the test lets run side by side. *)
Definition slots (limit : JsNumber) : option nat :=
  match limit with
  | Finite q => Some (Z.to_nat (Qceiling q))
  | MinusInfinity => Some 0%nat
  | PlusInfinity | NaN => None
  end.

Record State := mkState {
  (* fields of [ConversionService] *)
  jobs : gmap string ConversionJob;
  queue : list string;
  processing : gset string;
  maxConcurrentJobs : JsNumber;
  (* the runtime around it *)
  timers : gset string;    (* armed watchdog timers, by the job they close over *)
  awaiting : gset string;  (* [processJob] activations suspended at [await] *)
  started : gset string;   (* jobs whose [onProgress] closure the engine holds *)
  log : list Effect
}.

Definition set_jobs (v : gmap string ConversionJob) (s : State) : State :=
  mkState v (queue s) (processing s) (maxConcurrentJobs s)
          (timers s) (awaiting s) (started s) (log s).
Definition set_queue (v : list string) (s : State) : State :=
  mkState (jobs s) v (processing s) (maxConcurrentJobs s)
          (timers s) (awaiting s) (started s) (log s).
Definition set_processing (v : gset string) (s : State) : State :=
  mkState (jobs s) (queue s) v (maxConcurrentJobs s)
          (timers s) (awaiting s) (started s) (log s).
Definition set_timers (v : gset string) (s : State) : State :=
  mkState (jobs s) (queue s) (processing s) (maxConcurrentJobs s)
          v (awaiting s) (started s) (log s).
Definition set_awaiting (v : gset string) (s : State) : State :=
  mkState (jobs s) (queue s) (processing s) (maxConcurrentJobs s)
          (timers s) v (started s) (log s).
Definition set_started (v : gset string) (s : State) : State :=
  mkState (jobs s) (queue s) (processing s) (maxConcurrentJobs s)
          (timers s) (awaiting s) v (log s).
Definition emit (e : Effect) (s : State) : State :=
  mkState (jobs s) (queue s) (processing s) (maxConcurrentJobs s)
          (timers s) (awaiting s) (started s) (e :: log s).

(** A write [job.f = v] through a reference to the record of [id]. *)
Definition update_job (id : string) (f : ConversionJob → ConversionJob) (s : State) : State :=
  set_jobs (alter f id (jobs s)) s.

(** [new ConversionService(maxConcurrentJobs, ...)] *)
Definition newService (maxConcurrent : JsNumber) : State :=
  mkState ∅ [] ∅ maxConcurrent ∅ ∅ ∅ [].

(** [this.processing.delete(id)] *)
Definition processing_delete (id : string) (s : State) : State :=
  emit (ProcessingDelete id) (set_processing (processing s ∖ {[id]}) s).

(** [clearTimeout(timeoutId)] for the watchdog of job [id] *)
Definition clearTimeout (id : string) (s : State) : State :=
  emit (ClearTimeout id) (set_timers (timers s ∖ {[id]}) s).

(** [processJob(job)] up to its [await]: arm the watchdog, hand the paths and
    the progress closure to the engine, suspend. *)
Definition processJob (id : string) (s : State) : State :=
  let s := emit (SetTimeout id) (set_timers ({[id]} ∪ timers s) s) in
  let s := emit (ExtractAudio id) (set_started ({[id]} ∪ started s) s) in
  set_awaiting ({[id]} ∪ awaiting s) s.

(** [processNextJob()].  The method re-enters itself after dropping a head id
    that has no record; the recursion is on the queue it shifts. *)
Fixpoint processNextJob_on (q : list string) (s : State) : State :=
  if decide (sizeAtLeast (size (processing s)) (maxConcurrentJobs s)) then set_queue q s
  else match q with
       | [] => set_queue [] s
       | id :: rest =>
           match jobs s !! id with
           | None => processNextJob_on rest s
           | Some _ =>
               let s := set_queue rest s in
               let s := set_processing ({[id]} ∪ processing s) s in
               let s := update_job id (set_status Processing) s in
               let s := update_job id (set_progress 0) s in
               processJob id s
           end
       end.

Definition processNextJob (s : State) : State := processNextJob_on (queue s) s.

(** [queueJob(inputPath, outputPath, originalFilename)]; [id] is the value
    [uuidv4()] returned and [now] the value of [new Date()]. *)
Definition queueJob (id inputPath outputPath originalFilename : string) (now : Z)
    (s : State) : string * State :=
  let job := mkJob id inputPath outputPath originalFilename Queued 0 now None None None in
  let s := set_jobs (<[id := job]> (jobs s)) s in
  let s := set_queue (queue s ++ [id]) s in
  let s := processNextJob (emit (AdmissionAttempt None) s) in
  (id, s).

(** [this.queue.indexOf(id)] followed by [splice(index, 1)] when found:
    the first occurrence goes. *)
Fixpoint remove_first (id : string) (q : list string) : list string :=
  match q with
  | [] => []
  | x :: q' => if decide (x = id) then q' else x :: remove_first id q'
  end.

(** [cancelJob(jobId)] *)
Definition cancelJob (id : string) (now : Z) (s : State) : bool * State :=
  match jobs s !! id with
  | None => (false, s)
  | Some job =>
      if decide (status job ≠ Queued ∧ status job ≠ Processing) then (false, s)
      else
        let s := if decide (status job = Queued)
                 then set_queue (remove_first id (queue s)) s else s in
        let s := if decide (status job = Processing)
                 then processing_delete id s else s in
        let s := update_job id (set_status Cancelled) s in
        let s := update_job id (set_completedAt now) s in
        let s := emit (CleanupJob id) s in
        (true, s)
  end.

(** The watchdog callback of [processJob]. *)
Definition onTimeout (id : string) (now : Z) (s : State) : State :=
  let s := set_timers (timers s ∖ {[id]}) s in
  let s := update_job id (set_status Failed) s in
  let s := update_job id (set_error "Conversion timeout exceeded") s in
  let s := update_job id (set_completedAt now) s in
  let s := processing_delete id s in
  processNextJob (emit (AdmissionAttempt (Some id)) s).

(** The progress closure [(percent) => ...] applied to the job it captured. *)
Definition onProgress (percent : Z) (job : ConversionJob) : ConversionJob :=
  if decide (percent > progress job) then set_progress (Z.min 100 percent) job
  else job.

(** The [finally] block of [processJob]. *)
Definition processJob_finally (id : string) (s : State) : State :=
  let s := processing_delete id s in
  processNextJob (emit (AdmissionAttempt (Some id)) s).

(** [processJob] resumed with the engine's result. *)
Definition processJob_resolved (id : string) (md : AudioMetadata) (now : Z)
    (s : State) : State :=
  let s := set_awaiting (awaiting s ∖ {[id]}) s in
  match jobs s !! id with
  | None => s
  | Some job =>
      if decide (status job = Cancelled) then
        processJob_finally id (clearTimeout id s)
      else
        let s := update_job id (set_status Completed) s in
        let s := update_job id (set_progress 100) s in
        let s := update_job id (set_metadata md) s in
        let s := update_job id (set_completedAt now) s in
        processJob_finally id (clearTimeout id s)
  end.

(** [processJob] resumed in its [catch] with the value the engine threw. *)
Definition processJob_rejected (id : string) (err : Thrown) (now : Z)
    (s : State) : State :=
  let s := set_awaiting (awaiting s ∖ {[id]}) s in
  let s := clearTimeout id s in
  let s := update_job id (set_status Failed) s in
  let s := update_job id (set_error (match err with
                                     | ErrorInstance message => message
                                     | OtherValue => "Unknown error occurred"
                                     end)) s in
  let s := update_job id (set_completedAt now) s in
  processJob_finally id s.

(** [getStatusMessage(job)] *)
Definition getStatusMessage (job : ConversionJob) : string :=
  match status job with
  | Queued => "Waiting in queue..."
  | Processing => "Converting audio... " +:+ pretty (progress job) +:+ "%"
  | Completed => "Conversion completed successfully"
  | Failed => match error job with
              | Some e => if decide (e = EmptyString) then "Conversion failed" else e
              | None => "Conversion failed"
              end
  | Cancelled => "Conversion cancelled"
  end.

(** [getJobStatus(jobId)] *)
Definition getJobStatus (id : string) (s : State) : option ConversionStatus :=
  match jobs s !! id with
  | None => None
  | Some job =>
      Some (mkStatus (jobId job) (status job) (progress job) (getStatusMessage job)
                     (if decide (status job = Completed) then Some (outputPath job) else None))
  end.

Definition getQueueLength (s : State) : nat := length (queue s).
Definition getProcessingCount (s : State) : nat := size (processing s).

(** ** The environment *)

Inductive Event :=
| Submit (id inputPath outputPath originalFilename : string) (now : Z)
| Cancel (id : string) (now : Z)
| Progress (id : string) (percent : Z)
| Resolve (id : string) (md : AudioMetadata) (now : Z)
| Reject (id : string) (err : Thrown) (now : Z)
| TimerFires (id : string) (now : Z).

(** One block runs.  [None] means the environment cannot produce the event
    in this state: [uuidv4] does not repeat an id, the engine reports
    progress only through a closure it was given, a promise settles once, a
    timer fires only while armed. *)
Definition step (s : State) (e : Event) : option State :=
  match e with
  | Submit id i o n now =>
      if decide (id ∈ dom (jobs s)) then None
      else Some (queueJob id i o n now s).2
  | Cancel id now => Some (cancelJob id now s).2
  | Progress id percent =>
      if decide (id ∈ started s) then Some (update_job id (onProgress percent) s)
      else None
  | Resolve id md now =>
      if decide (id ∈ awaiting s) then Some (processJob_resolved id md now s)
      else None
  | Reject id err now =>
      if decide (id ∈ awaiting s) then Some (processJob_rejected id err now s)
      else None
  | TimerFires id now =>
      if decide (id ∈ timers s) then Some (onTimeout id now s) else None
  end.

Fixpoint exec (s : State) (evs : list Event) : option State :=
  match evs with
  | [] => Some s
  | e :: evs' => match step s e with
                 | Some s' => exec s' evs'
                 | None => None
                 end
  end.

(** States the service can be in after some history. *)
Definition reachable (s : State) : Prop :=
  ∃ (C : JsNumber) evs, exec (newService C) evs = Some s.

(** The state after a history, when the environment can produce it. *)
Definition afterEvents (C : nat) (evs : list Event) : State :=
  default (newService C) (exec (newService C) evs).

(** ** Auxiliary notions used in the statements *)

(** The state [processNextJob] leaves when it admits [id], [rest] being the
    queue behind it. *)
Definition afterAdmission (id : string) (rest : list string) (s : State) : State :=
  processJob id
    (update_job id (set_progress 0 ∘ set_status Processing)
       (set_processing ({[id]} ∪ processing s) (set_queue rest s))).

Definition hasCapacity (s : State) : Prop :=
  ¬ sizeAtLeast (size (processing s)) (maxConcurrentJobs s).

(** Composite writes: the assignments of one block to one record. *)
Definition cancelWrite (now : Z) : ConversionJob → ConversionJob :=
  set_completedAt now ∘ set_status Cancelled.
Definition timeoutWrite (now : Z) : ConversionJob → ConversionJob :=
  set_completedAt now ∘ set_error "Conversion timeout exceeded" ∘ set_status Failed.
Definition completeWrite (md : AudioMetadata) (now : Z) : ConversionJob → ConversionJob :=
  set_completedAt now ∘ set_metadata md ∘ set_progress 100 ∘ set_status Completed.
Definition thrownMessage (err : Thrown) : string :=
  match err with
  | ErrorInstance message => message
  | OtherValue => "Unknown error occurred"
  end.
Definition failWrite (err : Thrown) (now : Z) : ConversionJob → ConversionJob :=
  set_completedAt now ∘ set_error (thrownMessage err) ∘ set_status Failed.

(** Well-formed states: what every reachable state satisfies. *)
Definition okProgress (j : ConversionJob) : Prop :=
  0 ≤ progress j ≤ 100 ∧
  (status j = Queued → progress j = 0) ∧
  (status j = Completed → progress j = 100).

Record wf (s : State) : Prop := mkWf {
  wf_nodup : NoDup (queue s);
  wf_queue : ∀ id, id ∈ queue s ↔ ∃ j, jobs s !! id = Some j ∧ status j = Queued;
  wf_started : ∀ id, id ∈ started s → ∃ j, jobs s !! id = Some j ∧ status j ≠ Queued;
  wf_awaiting : awaiting s ⊆ started s;
  wf_timers : timers s ⊆ started s;
  wf_processing : processing s ⊆ started s;
  wf_active : ∀ id j, jobs s !! id = Some j → status j = Processing → id ∈ started s;
  wf_progress : ∀ id j, jobs s !! id = Some j → okProgress j;
  wf_log : ∀ id, ExtractAudio id ∈ log s ↔ id ∈ started s
}.

(** ** Concrete histories used as examples *)

Definition md0 : AudioMetadata := mkAudioMetadata 48000 16 2 10 "aac" 128000.

Definition submitA : Event := Submit "a" "/up/a/input.mp4" "/up/a/clip.wav" "clip.mp4" 1.
Definition submitB : Event := Submit "b" "/up/b/input.mp4" "/up/b/talk.wav" "talk.mp4" 2.
Definition submitC : Event := Submit "c" "/up/c/input.mp4" "/up/c/song.wav" "song.mp4" 3.

(** The concurrency bound as a state predicate: the processing set is no
    larger than the size at which the capacity test starts to hold. *)
Definition withinBound (s : State) : Prop :=
  match slots (maxConcurrentJobs s) with
  | Some c => (size (processing s) ≤ c)%nat
  | None => True
  end.

(** The state after a history of a service constructed with any [number]. *)
Definition afterEventsWith (limit : JsNumber) (evs : list Event) : State :=
  default (newService limit) (exec (newService limit) evs).

(** ** Reading a step off the event *)

(** The queue as the block leaves it before any admission: [queueJob] has
    pushed, [cancelJob] has spliced. *)
Definition arrivals (s : State) (e : Event) : list string :=
  match e with
  | Submit id _ _ _ _ => queue s ++ [id]
  | Cancel id _ =>
      match status <$> jobs s !! id with
      | Some Queued => remove_first id (queue s)
      | _ => queue s
      end
  | _ => queue s
  end.

(** The effects of the block itself, most recent first, admission aside. *)
Definition ownEffects (s : State) (e : Event) : list Effect :=
  match e with
  | Submit _ _ _ _ _ => [AdmissionAttempt None]
  | Cancel id _ =>
      match status <$> jobs s !! id with
      | Some Queued => [CleanupJob id]
      | Some Processing => [CleanupJob id; ProcessingDelete id]
      | _ => []
      end
  | Progress _ _ => []
  | Resolve id _ _ | Reject id _ _ =>
      [AdmissionAttempt (Some id); ProcessingDelete id; ClearTimeout id]
  | TimerFires id _ => [AdmissionAttempt (Some id); ProcessingDelete id]
  end.

Definition settledBy (e : Event) : gset string :=
  match e with
  | Resolve id _ _ | Reject id _ _ => {[id]}
  | _ => ∅
  end.

Definition disarmedBy (e : Event) : gset string :=
  match e with
  | Resolve id _ _ | Reject id _ _ | TimerFires id _ => {[id]}
  | _ => ∅
  end.

Definition submittedBy (e : Event) : gset string :=
  match e with
  | Submit id _ _ _ _ => {[id]}
  | _ => ∅
  end.

(** What admitting the ids of [adm] adds to the log. *)
Definition admissionLog (adm : list string) : list Effect :=
  adm ≫= λ h, [ExtractAudio h; SetTimeout h].

(** The ids handed to the engine, in the order they were handed over. *)
Fixpoint admissionsOf (l : list Effect) : list string :=
  match l with
  | [] => []
  | ExtractAudio id :: l' => admissionsOf l' ++ [id]
  | _ :: l' => admissionsOf l'
  end.

Definition admissionOrder (s : State) : list string := admissionsOf (log s).

(** [a] occurs before [b] in [l]. *)
Definition precedes (a b : string) (l : list string) : Prop :=
  ∃ l1 l2 l3, l = l1 ++ a :: l2 ++ b :: l3.

(** How many times an effect was performed. *)
Definition occurrences (e : Effect) (l : list Effect) : nat :=
  length (filter (λ x, x = e) l).

(** Every queued id has a record. *)
Definition live (s : State) : Prop :=
  ∀ id, id ∈ queue s → is_Some (jobs s !! id).

(** Whether the block ends with a call of [processNextJob]. *)
Definition attempts (e : Event) : bool :=
  match e with
  | Cancel _ _ | Progress _ _ => false
  | _ => true
  end.

(** The phases a pair of queued jobs [a], [b] goes through once [a] is ahead
    of [b] in the queue: both still queued in that order; [a] has left the
    queue and [b] has not been admitted; [b] has left the queue without
    being admitted; [b] was admitted after [a] left. *)
Definition fifoPhase (a b : string) (s : State) : Prop :=
  ((b ∉ started s) ∧ precedes a b (queue s)) ∨
  ((b ∉ started s) ∧ a ∈ dom (jobs s) ∧ (a ∉ queue s)) ∨
  (b ∈ dom (jobs s) ∧ (b ∉ queue s) ∧ (b ∉ started s)) ∨
  (a ∈ dom (jobs s) ∧ (a ∉ queue s) ∧
     (a ∈ started s → precedes a b (admissionOrder s))).

Definition firedBy (e : Event) : gset string :=
  match e with
  | TimerFires id _ => {[id]}
  | _ => ∅
  end.

(** How often the engine settled the promise of [id], and how often the
    watchdog of [id] fired, in a history. *)
Definition settlements (id : string) (evs : list Event) : nat :=
  length (filter (λ e, id ∈ settledBy e) evs).
Definition firings (id : string) (evs : list Event) : nat :=
  length (filter (λ e, id ∈ firedBy e) evs).

(** A status either stays or moves to a terminal one. *)
Definition staysOrEnds (j j' : ConversionJob) : Prop :=
  status j' = status j ∨ status j' = Cancelled ∨ status j' = Failed ∨
  status j' = Completed.

Definition ind (P : Prop) `{Decision P} : nat := if decide P then 1%nat else 0%nat.

(** The books of one job [id] after the history [evs]: how often each
    release action ran, against how often each trigger occurred. *)
Record bookkeeping (id : string) (evs : list Event) (s : State) : Prop := mkBooks {
  bk_clear :
    occurrences (ClearTimeout id) (log s) = settlements id evs;
  bk_attempt :
    occurrences (AdmissionAttempt (Some id)) (log s)
      = (settlements id evs + firings id evs)%nat;
  bk_delete_lo :
    (settlements id evs + firings id evs
       ≤ occurrences (ProcessingDelete id) (log s))%nat;
  bk_delete_hi :
    (occurrences (ProcessingDelete id) (log s)
       ≤ settlements id evs + firings id evs + occurrences (CleanupJob id) (log s))%nat;
  bk_settled : (settlements id evs ≤ 1)%nat;
  bk_fired : (firings id evs ≤ 1)%nat;
  bk_cancelled : (occurrences (CleanupJob id) (log s) ≤ 1)%nat;
  bk_after_settle :
    (1 ≤ settlements id evs)%nat → id ∈ started s ∧ (id ∉ awaiting s);
  bk_after_trigger :
    (1 ≤ settlements id evs + firings id evs)%nat →
    id ∈ started s ∧ (id ∉ timers s) ∧ (id ∉ processing s);
  bk_after_cancel :
    (1 ≤ occurrences (CleanupJob id) (log s))%nat →
    ∃ j, jobs s !! id = Some j ∧ (id ∉ queue s) ∧ status j ≠ Processing
}.

(** ** Observing progress *)

(** Deliver the callback values [ps] for [id] one after the other and read
    [getJobStatus(id).progress] after each. *)
Fixpoint observeProgress (id : string) (ps : list Z) (s : State) : list Z :=
  match ps with
  | [] => []
  | p :: ps' =>
      match step s (Progress id p) with
      | Some s' =>
          match getJobStatus id s' with
          | Some view => cs_progress view :: observeProgress id ps' s'
          | None => []
          end
      | None => []
      end
  end.

(** The stored value after each of the callbacks [ps], starting from [cur]. *)
Fixpoint progressTrace (ps : list Z) (cur : Z) : list Z :=
  match ps with
  | [] => []
  | p :: ps' =>
      let cur' := if decide (cur < p) then Z.min 100 p else cur in
      cur' :: progressTrace ps' cur'
  end.

(** ** The file store ([FileManager.cleanupOldFiles]) *)

(** An entry of [fs.readdir(uploadsDir, { withFileTypes: true })]. *)
Record Dirent := mkDirent { name : string; isDirectory : bool }.

Inductive FsError := ENOENT | EOTHER (code : string).

(** What the file manager reads and writes: the job directories under
    [uploadsDir], by name, with their [mtimeMs], as far as the file
    manager's own calls change them; the [cleanupTimers] map from job id to
    timer handle; the handles the runtime still holds armed.  Times are
    whole milliseconds. *)
Record FileStore := mkStore {
  dirs : gmap string Z;
  cleanupTimers : gmap string nat;
  pendingTimers : gset nat
}.

(** [fs.rm(jobDir, { recursive: true, force: true })] has returned, for
    the directory of a listed entry [n]: a name [readdir] returned is a
    single path segment and names that directory only. *)
Definition rmDir (n : string) (st : FileStore) : FileStore :=
  mkStore (delete n (dirs st)) (cleanupTimers st) (pendingTimers st).

(** [if (cleanupTimers.has(n)) { clearTimeout(cleanupTimers.get(n)); cleanupTimers.delete(n) }] *)
Definition dropTimer (n : string) (st : FileStore) : FileStore :=
  match cleanupTimers st !! n with
  | Some h => mkStore (dirs st) (delete n (cleanupTimers st)) (pendingTimers st ∖ {[h]})
  | None => st
  end.

(** One iteration's dealings with the file system: the entry [readdir]
    listed, the [mtimeMs] [fs.stat] reports for it ([None] when [fs.stat]
    throws), and the error [fs.rm] throws if it is called ([None] when it
    returns).  The answers are the environment's: between [fs.stat] and
    [fs.rm] the directory may have been touched or removed by others. *)
Record Visit := mkVisit {
  entry : Dirent;
  statMtimeMs : option Z;
  rmError : option FsError
}.

(** The [for (const entry of entries)] loop.  [fs.stat] and [fs.rm] sit in
    one inner [try] whose [catch] continues with the next entry, so a
    throwing [fs.rm] leaves the directory, the count and the timer as they
    are.  When [fs.rm] returns, the directory is gone (removed now, or found
    gone already: [force]) and is counted either way. *)
Fixpoint sweepEntries (maxAgeMs now : Z) (visits : list Visit)
    (st : FileStore) (cleanedCount : nat) : FileStore * nat :=
  match visits with
  | [] => (st, cleanedCount)
  | visit :: rest =>
      if isDirectory (entry visit) then
        match statMtimeMs visit with
        | None => sweepEntries maxAgeMs now rest st cleanedCount
        | Some mtimeMs =>
            let age := now - mtimeMs in
            if decide (age > maxAgeMs) then
              match rmError visit with
              | Some _ => sweepEntries maxAgeMs now rest st cleanedCount
              | None =>
                  let st := rmDir (name (entry visit)) st in
                  let cleanedCount := S cleanedCount in
                  let st := dropTimer (name (entry visit)) st in
                  sweepEntries maxAgeMs now rest st cleanedCount
              end
            else sweepEntries maxAgeMs now rest st cleanedCount
        end
      else sweepEntries maxAgeMs now rest st cleanedCount
  end.

(** [cleanupOldFiles(maxAgeMs)]; [now] is [Date.now()] and [readdir] the
    outcome of [fs.readdir]: the listing, each entry with what the file
    system answers when the loop reaches it, or the error [fs.readdir]
    threw.  A missing uploads directory means there is nothing to clean; any
    other error is rethrown. *)
Definition cleanupOldFiles (maxAgeMs now : Z) (readdir : FsError + list Visit)
    (st : FileStore) : FileStore * (FsError + nat) :=
  match readdir with
  | inr visits =>
      let r := sweepEntries maxAgeMs now visits st 0 in (r.1, inr r.2)
  | inl ENOENT => (st, inr 0%nat)
  | inl err => (st, inl err)
  end.



(** The answers of a file system nobody else touches during the sweep:
    [fs.stat] reports what the store holds, [fs.rm] fails as [rm] says. *)
Definition visitsOf (st : FileStore) (rm : string → option FsError)
    (entries : list Dirent) : list Visit :=
  (λ e, mkVisit e (dirs st !! name e) (rm (name e))) <$> entries.

Definition store0 : FileStore :=
  mkStore (<["a" := 0]> (<["b" := 50]> (<["c" := 100]> ∅)))
          (<["a" := 7%nat]> (<["c" := 9%nat]> ∅))
          {[7%nat; 9%nat]}.
Definition listing0 : list Dirent :=
  [mkDirent "a" true; mkDirent "gone" true; mkDirent "b" true;
   mkDirent "notes.txt" false; mkDirent "c" true].

(** The ids submitted in a history, in order. *)
Definition submissionOrder (evs : list Event) : list string :=
  omap (λ e, match e with Submit id _ _ _ _ => Some id | _ => None end) evs.

(** ** The state a block hands to [processNextJob] *)

(** The record [queueJob] creates. *)
Definition newJob (id inputPath outputPath originalFilename : string) (now : Z)
    : ConversionJob :=
  mkJob id inputPath outputPath originalFilename Queued 0 now None None None.

(** What the success continuation writes: nothing to a cancelled record. *)
Definition resolveWrite (md : AudioMetadata) (now : Z) (j : ConversionJob)
    : ConversionJob :=
  if decide (status j = Cancelled) then j else completeWrite md now j.

(** The state of the service when the block of [e] reaches its final
    [processNextJob()] call, or returns if it makes none. *)
Definition preState (s : State) (e : Event) : State :=
  match e with
  | Submit id i o n now =>
      emit (AdmissionAttempt None)
        (set_queue (queue s ++ [id])
           (set_jobs (<[id := newJob id i o n now]> (jobs s)) s))
  | Cancel id now => (cancelJob id now s).2
  | Progress id percent => update_job id (onProgress percent) s
  | Resolve id md now =>
      emit (AdmissionAttempt (Some id))
        (processing_delete id (clearTimeout id
           (update_job id (resolveWrite md now)
              (set_awaiting (awaiting s ∖ {[id]}) s))))
  | Reject id err now =>
      emit (AdmissionAttempt (Some id))
        (processing_delete id
           (update_job id (failWrite err now)
              (clearTimeout id (set_awaiting (awaiting s ∖ {[id]}) s))))
  | TimerFires id now =>
      emit (AdmissionAttempt (Some id))
        (processing_delete id
           (update_job id (timeoutWrite now)
              (set_timers (timers s ∖ {[id]}) s)))
  end.

(** The job an event is about. *)
Definition subject (e : Event) : string :=
  match e with
  | Submit id _ _ _ _ | Cancel id _ | Progress id _
  | Resolve id _ _ | Reject id _ _ | TimerFires id _ => id
  end.

(** A status from which a job does not move on by being admitted or run. *)
Definition terminal (j : ConversionJob) : Prop :=
  status j = Completed ∨ status j = Failed ∨ status j = Cancelled.

(** What holds of the record of [k] and of the sets it may be in. *)
Definition okAt (s : State) (k : string) : Prop :=
  ∀ j, jobs s !! k = Some j →
    jobId j = k ∧
    (k ∈ timers s → k ∈ awaiting s) ∧
    (k ∈ processing s ↔ status j = Processing) ∧
    (status j = Processing → k ∈ timers s) ∧
    (k ∈ started s → k ∉ awaiting s → terminal j) ∧
    (status j = Completed → k ∈ started s ∧ k ∉ awaiting s) ∧
    (is_Some (completedAt j) ↔ terminal j) ∧
    (is_Some (metadata j) ↔ status j = Completed) ∧
    (status j = Failed → is_Some (error j)).

Definition consistent (s : State) : Prop := ∀ k, okAt s k.

(** The fields fixed at submission. *)
Definition sameIdentity (j j' : ConversionJob) : Prop :=
  jobId j' = jobId j ∧ inputPath j' = inputPath j ∧ outputPath j' = outputPath j ∧
  originalFilename j' = originalFilename j ∧ createdAt j' = createdAt j.

(** The order in which the code moves a status. *)
Definition rank (st : JobStatus) : nat :=
  match st with
  | Queued => 0 | Processing => 1 | Cancelled => 2 | Failed => 3 | Completed => 4
  end.

(** The fields a termination path writes. *)
Definition sameOutcome (j j' : ConversionJob) : Prop :=
  status j' = status j ∧ error j' = error j ∧ completedAt j' = completedAt j ∧
  metadata j' = metadata j.

(** A backlog is covered: while jobs wait, as many watchdogs are armed as
    the limit allows jobs. *)
Definition backlogged (s : State) : Prop :=
  queue s ≠ [] → sizeAtLeast (size (timers s)) (maxConcurrentJobs s).

(** ** The transcoding engine ([FFmpegWrapper]) *)

(** JavaScript's [v || d] on a number and on a string: [undefined], [0] and
    the empty string are falsy. *)
Definition orNumber (v : option Z) (d : Z) : Z :=
  match v with
  | Some x => if decide (x = 0) then d else x
  | None => d
  end.

Definition orString (v : option string) (d : string) : string :=
  match v with
  | Some x => if decide (x = EmptyString) then d else x
  | None => d
  end.

(** [s.includes(needle)] *)
Fixpoint includes (needle s : string) : bool :=
  if String.prefix needle s then true
  else match s with
       | EmptyString => false
       | String _ s' => includes needle s'
       end.

(** What [ffmpeg.ffprobe] hands to its callback: an error with its
    [message], or the streams and the container format.  Only the fields
    the wrapper reads are kept; a missing field is [None]. *)
Record ProbeStream := mkProbeStream {
  codec_type : option string;
  codec_name : option string;
  sample_rate : option Z;
  stream_channels : option Z;
  bit_rate : option string;
  sample_fmt : option string
}.

Record ProbeFormat := mkProbeFormat {
  format_duration : option Z;
  format_name : option string
}.

Record ProbeData := mkProbeData {
  streams : list ProbeStream;
  probe_format : ProbeFormat
}.

Inductive ProbeResult :=
| ProbeError (message : string)
| ProbeOk (data : ProbeData).

Record VideoMetadata := mkVideoMetadata {
  hasAudio : bool;
  hasVideo : bool;
  vm_duration : Z;
  vm_format : string;
  audioCodec : option string
}.

(** [metadata.streams.find(s => s.codec_type === kind)] *)
Definition findStream (kind : string) (data : ProbeData) : option ProbeStream :=
  List.find (λ s, bool_decide (codec_type s = Some kind)) (streams data).

(** [getVideoMetadata(inputPath)], [probe] being what [ffprobe] reports for
    the file: the promise rejects ([inl]) or resolves ([inr]). *)
Definition getVideoMetadata (probe : ProbeResult) : Thrown + VideoMetadata :=
  match probe with
  | ProbeError message =>
      inl (ErrorInstance ("Failed to extract metadata: " +:+ message))
  | ProbeOk data =>
      let audioStream := findStream "audio" data in
      let videoStream := findStream "video" data in
      inr (mkVideoMetadata
             (bool_decide (is_Some audioStream))
             (bool_decide (is_Some videoStream))
             (orNumber (format_duration (probe_format data)) 0)
             (orString (format_name (probe_format data)) "unknown")
             (audioStream ≫= codec_name))
  end.

(** [validateVideoFile(inputPath)] *)
Definition validateVideoFile (probe : ProbeResult) : bool :=
  match getVideoMetadata probe with
  | inr metadata => hasVideo metadata
  | inl _ => false
  end.

(** The bit depth [getAudioInfo] derives from [sample_fmt]. *)
Definition detectBitDepth (sampleFmt : option string) : Z :=
  match sampleFmt with
  | Some f =>
      if decide (f = EmptyString) then 16
      else if includes "s32" f || includes "flt" f || includes "dbl" f then 32
      else if includes "s24" f then 24
      else if includes "s16" f then 16
      else 16
  | None => 16
  end.

(** [getAudioInfo(inputPath)]; [parseInt] is the built-in of that name. *)
Definition getAudioInfo (parseInt : string → Z) (probe : ProbeResult)
    : Thrown + AudioMetadata :=
  match probe with
  | ProbeError message =>
      inl (ErrorInstance ("Failed to extract audio info: " +:+ message))
  | ProbeOk data =>
      match findStream "audio" data with
      | None => inl (ErrorInstance "No audio stream found")
      | Some audioStream =>
          let sampleRate := orNumber (sample_rate audioStream) 48000 in
          let channels := orNumber (stream_channels audioStream) 2 in
          let duration := orNumber (format_duration (probe_format data)) 0 in
          let codec := orString (codec_name audioStream) "unknown" in
          let bitrate := match bit_rate audioStream with
                         | Some b => if decide (b = EmptyString) then 0 else parseInt b
                         | None => 0
                         end in
          let bitDepth := detectBitDepth (sample_fmt audioStream) in
          inr (mkAudioMetadata sampleRate bitDepth channels duration codec bitrate)
      end
  end.

(** The command [extractAudio] builds and saves. *)
Record Command := mkCommand {
  cmd_input : string;
  cmd_noVideo : bool;
  cmd_audioCodec : string;
  cmd_audioFrequency : Z;
  cmd_audioChannels : Z;
  cmd_format : string;
  cmd_output : string
}.

(** What becomes of the command: building or saving it throws, the run
    emits [end], the run emits [error], or neither has happened yet. *)
Inductive SaveOutcome :=
| SaveThrows (error : Thrown)
| SaveEnds
| SaveErrors (message : string)
| SaveRunning.

(** [extractAudio(inputPath, outputPath, onProgress)]: the command that was
    started, if any, and how the promise settled, if it did.  The file is
    probed twice, by [getVideoMetadata] and by [getAudioInfo]. *)
Definition extractAudio (parseInt : string → Z) (inputPath outputPath : string)
    (probe1 probe2 : ProbeResult) (run : SaveOutcome)
    : option Command * option (Thrown + AudioMetadata) :=
  match getVideoMetadata probe1 with
  | inl error => (None, Some (inl error))
  | inr videoMetadata =>
      if negb (hasAudio videoMetadata) then
        (None, Some (inl (ErrorInstance "Video file contains no audio stream")))
      else
        match getAudioInfo parseInt probe2 with
        | inl error => (None, Some (inl error))
        | inr audioInfo =>
            let pcmCodec :=
              if decide (bitDepth audioInfo = 24) then "pcm_s24le"
              else if decide (bitDepth audioInfo = 32) then "pcm_s32le"
              else "pcm_s16le" in
            let command :=
              mkCommand inputPath true pcmCodec (sampleRate audioInfo)
                        (channels audioInfo) "wav" outputPath in
            match run with
            | SaveThrows error => (None, Some (inl error))
            | SaveEnds => (Some command, Some (inr audioInfo))
            | SaveErrors message =>
                (Some command,
                 Some (inl (ErrorInstance ("FFmpeg conversion failed: " +:+ message))))
            | SaveRunning => (Some command, None)
            end
        end
  end.

(** The [progress] listener of the command: [percent] is [progress.percent],
    [None] when it is missing; [onProgress] is the optional callback, a
    state transformer here. *)
Definition progressListener {St : Type} (onProgress : option (Z → St → St))
    (percent : option Z) (st : St) : St :=
  match onProgress, percent with
  | Some callback, Some p =>
      if decide (p = 0) then st else callback (Z.min 100 (Z.max 0 p)) st
  | _, _ => st
  end.

(** The callback [processJob] passes for job [id]. *)
Definition progressCallback (id : string) : Z → State → State :=
  λ percent, update_job id (onProgress percent).

(** ** Cleanup timers ([FileManager.cleanupJob], [FileManager.scheduleCleanup]) *)

(** [fs.rm(path.join(uploadsDir, jobId), { recursive: true, force: true })]
    has returned.  [path.join] is Node's: for a [jobId] that is a single
    path segment (a uuid, a name [readdir] returned) the joined path is the
    job's own directory; for the empty string, [.], [..] or an id with
    separators it is another path.  [under] is the set of job directories at
    or below the joined path, which is what the call removes; the store
    records job directories, not their contents. *)
Definition rmUnder (under : gset string) (st : FileStore) : FileStore :=
  mkStore (filter (λ kv, kv.1 ∉ under) (dirs st)) (cleanupTimers st) (pendingTimers st).

(** The part of [cleanupJob] after [await fs.rm(...)]: [rm] is [None] when
    [fs.rm] returned, otherwise the error it threw, in which case the store
    is left as it is.  An [ENOENT] error is swallowed, any other is
    rethrown. *)
Definition rmSettles (under : gset string) (rm : option FsError) (st : FileStore)
    : FileStore * option FsError :=
  match rm with
  | None => (rmUnder under st, None)
  | Some ENOENT => (st, None)
  | Some err => (st, Some err)
  end.

(** [cleanupJob(jobId)]: the scheduled cleanup is cancelled before
    [fs.rm] is called, whatever [fs.rm] does. *)
Definition cleanupJob (jobId : string) (under : gset string) (rm : option FsError)
    (st : FileStore) : FileStore * option FsError :=
  rmSettles under rm (dropTimer jobId st).

(** [scheduleCleanup(jobId, delayMs)]; [timer] is the handle [setTimeout]
    returns.  When the timer fires is up to the runtime. *)
Definition scheduleCleanup (jobId : string) (delayMs : Z) (timer : nat)
    (st : FileStore) : FileStore :=
  let pending := match cleanupTimers st !! jobId with
                 | Some old => pendingTimers st ∖ {[old]}
                 | None => pendingTimers st
                 end in
  mkStore (dirs st) (<[jobId := timer]> (cleanupTimers st)) ({[timer]} ∪ pending).

(** The callback of the timer [scheduleCleanup] set for [jobId] starts: the
    runtime has dropped the fired handle, and [cleanupJob] runs up to its
    [await fs.rm(...)].  Other blocks may run before the callback resumes. *)
Definition cleanupTimerFires (jobId : string) (timer : nat) (st : FileStore)
    : FileStore :=
  dropTimer jobId (mkStore (dirs st) (cleanupTimers st) (pendingTimers st ∖ {[timer]})).

(** The callback resumes once [fs.rm] has settled, in the store as it is
    then: the rest of [cleanupJob], and, unless that threw,
    [cleanupTimers.delete(jobId)], which deletes the entry without
    [clearTimeout]. *)
Definition cleanupTimerResumes (jobId : string) (under : gset string)
    (rm : option FsError) (st : FileStore) : FileStore * option FsError :=
  let r := rmSettles under rm st in
  match r.2 with
  | None => (mkStore (dirs r.1) (delete jobId (cleanupTimers r.1)) (pendingTimers r.1), None)
  | Some err => (r.1, Some err)
  end.

(** The map of cleanup timers and the armed handles agree: every recorded
    handle is armed, every armed handle is recorded, and no handle is
    recorded for two jobs. *)
Definition timersInSync (st : FileStore) : Prop :=
  (∀ id h, cleanupTimers st !! id = Some h → h ∈ pendingTimers st) ∧
  (∀ h, h ∈ pendingTimers st → ∃ id, cleanupTimers st !! id = Some h) ∧
  (∀ id1 id2 h, cleanupTimers st !! id1 = Some h → cleanupTimers st !! id2 = Some h →
                id1 = id2).

(** The file manager calls the service made, oldest first, each with the
    outcome [rm] gives for that job; [cancelJob] swallows what they throw.
    The ids are [uuidv4] values, single path segments: each names its own
    directory. *)
Fixpoint replayCleanups (rm : string → option FsError) (l : list Effect)
    (st : FileStore) : FileStore :=
  match l with
  | [] => st
  | e :: l' =>
      let st := replayCleanups rm l' st in
      match e with
      | CleanupJob id => (cleanupJob id {[id]} (rm id) st).1
      | _ => st
      end
  end.

(** * Properties *)

(** ** Basic facts about the transformers *)

Lemma set_queue_id s : set_queue (queue s) s = s.
Proof. by destruct s. Qed.

(** The capacity test on numbers. *)

Lemma sizeAtLeast_ofCount (n C : nat) : sizeAtLeast n (ofCount C) ↔ (C ≤ n)%nat.
Proof. unfold sizeAtLeast, ofCount. rewrite <- Zle_Qle. lia. Qed.

Lemma slots_ofCount (C : nat) : slots (ofCount C) = Some C.
Proof. unfold slots, ofCount. by rewrite Qceiling_Z, Nat2Z.id. Qed.

Lemma sizeAtLeast_slots (n : nat) (limit : JsNumber) :
  sizeAtLeast n limit ↔
  match slots limit with Some c => (c ≤ n)%nat | None => False end.
Proof.
  destruct limit as [q| | |]; simpl; [|done|split; [lia|done]|done].
  split.
  - intros Hle. apply Qceiling_resp_le in Hle. rewrite Qceiling_Z in Hle. lia.
  - intros Hle. apply Qle_trans with (inject_Z (Qceiling q)); [apply Qle_ceiling|].
    rewrite <- Zle_Qle. lia.
Qed.

Lemma sizeAtLeast_mono (n m : nat) (limit : JsNumber) :
  sizeAtLeast n limit → (n ≤ m)%nat → sizeAtLeast m limit.
Proof. rewrite !sizeAtLeast_slots. destruct (slots limit); [lia|done]. Qed.

Lemma hasCapacity_ofCount s (C : nat) :
  maxConcurrentJobs s = C → hasCapacity s ↔ (size (processing s) < C)%nat.
Proof. unfold hasCapacity. intros ->. rewrite sizeAtLeast_ofCount. lia. Qed.

Lemma processNextJob_on_full q s :
  ¬ hasCapacity s → processNextJob_on q s = set_queue q s.
Proof.
  unfold hasCapacity. intros Hfull.
  destruct q; simpl; case_decide; try done; by destruct Hfull.
Qed.

Lemma processNextJob_on_nil s : processNextJob_on [] s = set_queue [] s.
Proof. simpl. by case_decide. Qed.

Lemma processNextJob_on_skip id rest s :
  hasCapacity s → jobs s !! id = None →
  processNextJob_on (id :: rest) s = processNextJob_on rest s.
Proof.
  unfold hasCapacity. intros Hcap Hnone. simpl.
  case_decide; [done|]. by rewrite Hnone.
Qed.

Lemma processNextJob_on_head id rest s :
  hasCapacity s → is_Some (jobs s !! id) →
  processNextJob_on (id :: rest) s = afterAdmission id rest s.
Proof.
  unfold hasCapacity. intros Hcap [j Hj]. simpl.
  case_decide; [done|]. rewrite Hj.
  unfold afterAdmission, update_job. simpl. by rewrite alter_alter_eq.
Qed.

(** Every call either leaves everything but the queue alone, having dropped
    only ids without a record, or drops such ids and admits the first id
    that has one. *)
Lemma processNextJob_on_shape q s :
  (∃ skipped q', q = skipped ++ q' ∧
      Forall (λ x, jobs s !! x = None) skipped ∧
      (skipped ≠ [] → hasCapacity s) ∧
      (hasCapacity s → q' = []) ∧
      processNextJob_on q s = set_queue q' s) ∨
  (∃ skipped id rest, q = skipped ++ id :: rest ∧
      Forall (λ x, jobs s !! x = None) skipped ∧
      is_Some (jobs s !! id) ∧ hasCapacity s ∧
      processNextJob_on q s = afterAdmission id rest s).
Proof.
  destruct (decide (hasCapacity s)) as [Hcap|Hfull].
  2:{ left. exists [], q. rewrite processNextJob_on_full by done.
      split_and!; try done. }
  induction q as [|id rest IH].
  - left. exists [], []. rewrite processNextJob_on_nil. by split_and!.
  - destruct (jobs s !! id) as [j|] eqn:Hj.
    + right. exists [], id, rest.
      rewrite processNextJob_on_head by eauto. split_and!; eauto.
    + rewrite processNextJob_on_skip by done.
      destruct IH as [(sk & q' & -> & Hsk & _ & Hq' & ->)
                     |(sk & id' & rest' & -> & Hsk & Hsome & _ & ->)].
      * left. exists (id :: sk), q'. split_and!; auto.
      * right. exists (id :: sk), id', rest'. split_and!; auto.
Qed.

Lemma update_job_compose id f g s :
  update_job id f (update_job id g s) = update_job id (f ∘ g) s.
Proof. unfold update_job. simpl. by rewrite alter_alter_eq. Qed.

Lemma onTimeout_eq id now s :
  onTimeout id now s =
  processNextJob (emit (AdmissionAttempt (Some id))
    (processing_delete id
       (update_job id (timeoutWrite now) (set_timers (timers s ∖ {[id]}) s)))).
Proof.
  unfold onTimeout, timeoutWrite. by rewrite !update_job_compose.
Qed.

Lemma processJob_resolved_eq id md now s j :
  jobs s !! id = Some j →
  processJob_resolved id md now s =
  processJob_finally id (clearTimeout id
    (update_job id (if decide (status j = Cancelled) then (λ x, x) else completeWrite md now)
       (set_awaiting (awaiting s ∖ {[id]}) s))).
Proof.
  intros Hj. unfold processJob_resolved. simpl. rewrite Hj.
  case_decide.
  - unfold update_job. simpl.
    rewrite (alter_id (λ x, x)); [|done].
    by destruct s.
  - unfold completeWrite. by rewrite !update_job_compose.
Qed.

Lemma processJob_rejected_eq id err now s :
  processJob_rejected id err now s =
  processJob_finally id
    (update_job id (failWrite err now)
       (clearTimeout id (set_awaiting (awaiting s ∖ {[id]}) s))).
Proof.
  unfold processJob_rejected, failWrite, thrownMessage.
  by rewrite !update_job_compose.
Qed.

Lemma cancelJob_eq id now s :
  cancelJob id now s =
  match jobs s !! id with
  | None => (false, s)
  | Some job =>
      match status job with
      | Queued =>
          (true, emit (CleanupJob id) (update_job id (cancelWrite now)
                   (set_queue (remove_first id (queue s)) s)))
      | Processing =>
          (true, emit (CleanupJob id) (update_job id (cancelWrite now)
                   (processing_delete id s)))
      | _ => (false, s)
      end
  end.
Proof.
  unfold cancelJob, cancelWrite. destruct (jobs s !! id) as [job|]; [|done].
  destruct (status job) eqn:Hst; repeat case_decide;
    try (by rewrite update_job_compose); try done;
    repeat match goal with H : _ ∧ _ |- _ => destruct H end; try done;
    exfalso; match goal with H : ¬ (_ ∧ _) |- _ => apply H; by split end.
Qed.

(** ** Well-formedness is invariant *)

Lemma wf_newService C : wf (newService C).
Proof.
  split; simpl.
  - constructor.
  - intros id. split; [by intros ?%elem_of_nil|]. intros (j & Hj & _).
    by rewrite lookup_empty in Hj.
  - intros id Hid. by apply not_elem_of_empty in Hid.
  - done.
  - done.
  - done.
  - intros id j Hj. by rewrite lookup_empty in Hj.
  - intros id j Hj. by rewrite lookup_empty in Hj.
  - intros id. split; [by intros ?%elem_of_nil|]. intros Hid.
    by apply not_elem_of_empty in Hid.
Qed.

Lemma wf_emit e s : (∀ id, e ≠ ExtractAudio id) → wf s → wf (emit e s).
Proof.
  intros He [].
  split; simpl; try done.
  intros id. rewrite elem_of_cons. split.
  - intros [Heq|Hin]; [by destruct (He id)|by apply wf_log0].
  - intros Hin. right. by apply wf_log0.
Qed.

Lemma wf_set_awaiting v s : v ⊆ awaiting s → wf s → wf (set_awaiting v s).
Proof. intros Hv []. split; simpl; try done. set_solver. Qed.

Lemma wf_set_timers v s : v ⊆ timers s → wf s → wf (set_timers v s).
Proof. intros Hv []. split; simpl; try done. set_solver. Qed.

Lemma wf_set_processing v s : v ⊆ processing s → wf s → wf (set_processing v s).
Proof. intros Hv []. split; simpl; try done. set_solver. Qed.

Lemma wf_processing_delete id s : wf s → wf (processing_delete id s).
Proof.
  intros Hwf. apply wf_emit; [done|]. apply wf_set_processing; [set_solver|done].
Qed.

Lemma wf_clearTimeout id s : wf s → wf (clearTimeout id s).
Proof.
  intros Hwf. apply wf_emit; [done|]. apply wf_set_timers; [set_solver|done].
Qed.

Lemma lookup_update_job id f s k :
  jobs (update_job id f s) !! k =
  if decide (k = id) then f <$> jobs s !! k else jobs s !! k.
Proof.
  unfold update_job. simpl. rewrite lookup_alter.
  repeat case_decide; congruence.
Qed.

(** A write that neither makes nor unmakes a queued record, and keeps the
    progress field in range, preserves well-formedness. *)
Lemma wf_update_job id f s :
  (∀ j, jobs s !! id = Some j →
        (status (f j) = Queued ↔ status j = Queued) ∧
        (status (f j) = Processing → status j = Processing) ∧
        okProgress (f j)) →
  wf s → wf (update_job id f s).
Proof.
  intros Hf Hwf. destruct Hwf.
  split; try done.
  - intros k. rewrite wf_queue0.
    rewrite lookup_update_job. case_decide as Hk; [subst k|done].
    split.
    + intros (j & Hj & Hst). exists (f j). rewrite Hj. split; [done|].
      by apply (Hf j Hj).
    + intros (j' & Hj' & Hst). destruct (jobs s !! id) as [j|] eqn:Hj; [|done].
      simpl in Hj'. simplify_eq. exists j. split; [done|]. by apply (Hf j).
  - intros k Hk. destruct (wf_started0 k Hk) as (j & Hj & Hst).
    rewrite lookup_update_job. case_decide; [subst k|eauto].
    exists (f j). rewrite Hj. split; [done|]. intros Hq. apply Hst. by apply (Hf j Hj).
  - intros k j'. rewrite lookup_update_job. case_decide; [subst k|by apply wf_active0].
    destruct (jobs s !! id) as [j|] eqn:Hj; [|done]. simpl. intros ? Hp; simplify_eq.
    apply (wf_active0 _ j Hj). by apply (Hf j).
  - intros k j'. rewrite lookup_update_job. case_decide; [subst k|by apply wf_progress0].
    destruct (jobs s !! id) as [j|] eqn:Hj; [|done]. simpl. intros ?; simplify_eq.
    by apply (Hf j).
Qed.

Lemma elem_of_remove_first id q x :
  NoDup q → x ∈ remove_first id q ↔ x ∈ q ∧ x ≠ id.
Proof.
  induction q as [|y q IH]; simpl; intros Hnd.
  - split; [by intros ?%elem_of_nil|by intros [?%elem_of_nil _]].
  - apply NoDup_cons in Hnd as [Hy Hnd]. case_decide as Hyid.
    + subst y. rewrite elem_of_cons. split.
      * intros Hx. split; [by right|]. by intros ->.
      * by intros [[?|?] ?].
    + rewrite !elem_of_cons, IH by done. naive_solver.
Qed.

Lemma NoDup_remove_first id q : NoDup q → NoDup (remove_first id q).
Proof.
  induction q as [|y q IH]; simpl; intros Hnd; [done|].
  apply NoDup_cons in Hnd as [Hy Hnd]. case_decide; [done|].
  apply NoDup_cons. split; [|by apply IH].
  rewrite elem_of_remove_first by done. naive_solver.
Qed.

Lemma remove_first_notin id q : id ∉ q → remove_first id q = q.
Proof.
  induction q as [|y q IH]; simpl; [done|].
  rewrite not_elem_of_cons. intros [Hne Hq]. case_decide; [congruence|].
  by rewrite IH.
Qed.

Lemma wf_afterAdmission id rest s :
  wf s → queue s = id :: rest → wf (afterAdmission id rest s).
Proof.
  intros Hwf Hq. pose proof Hwf as [Hnd Hqueue Hst Haw Htm Hpr Hact Hprog Hlog].
  rewrite Hq in Hnd. apply NoDup_cons in Hnd as [Hid Hnd].
  assert (∃ j, jobs s !! id = Some j ∧ status j = Queued) as (j & Hj & Hjst).
  { apply Hqueue. rewrite Hq. by left. }
  split; simpl.
  - done.
  - intros k. rewrite lookup_alter. case_decide as Hk.
    + subst k. rewrite Hj. simpl. split; [done|]. intros (j' & ? & Hst'). by simplify_eq.
    + specialize (Hqueue k). rewrite Hq, elem_of_cons in Hqueue.
      rewrite <- Hqueue. naive_solver.
  - intros k. rewrite elem_of_union, elem_of_singleton, lookup_alter.
    case_decide as Hk.
    + subst k. intros _. rewrite Hj. simpl. by eexists.
    + intros [?|Hin]; [congruence|]. by apply Hst.
  - set_solver.
  - set_solver.
  - set_solver.
  - intros k j'. rewrite elem_of_union, elem_of_singleton, lookup_alter.
    case_decide as Hk; [by left|]. intros ? ?. right. by eapply Hact.
  - intros k j'. rewrite lookup_alter. case_decide as Hk; [|by apply Hprog].
    subst k. rewrite Hj. simpl. intros ?; simplify_eq. by repeat split.
  - intros k. rewrite !elem_of_cons, elem_of_union, elem_of_singleton, Hlog.
    naive_solver.
Qed.

(** In a well-formed state every queued id has a record, so an admission
    attempt is a no-op or admits the head. *)
Lemma processNextJob_cases s :
  (∀ id, id ∈ queue s → is_Some (jobs s !! id)) →
  (processNextJob s = s ∧ (hasCapacity s → queue s = [])) ∨
  (∃ id rest, queue s = id :: rest ∧ hasCapacity s ∧
              processNextJob s = afterAdmission id rest s).
Proof.
  intros Hlive. unfold processNextJob.
  assert (∀ sk q', queue s = sk ++ q' →
            Forall (λ x, jobs s !! x = None) sk → sk = []) as Hsk.
  { intros [|x sk] q' Hq Hall; [done|]. exfalso.
    apply Forall_cons in Hall as [Hx _].
    destruct (Hlive x) as [? ?]; [|congruence]. rewrite Hq. by left. }
  destruct (processNextJob_on_shape (queue s) s)
    as [(sk & q' & Hq & Hall & _ & Hq' & ->)|(sk & id & rest & Hq & Hall & _ & Hcap & ->)].
  - left. rewrite (Hsk _ _ Hq Hall) in Hq. simpl in Hq. subst q'.
    split; [apply set_queue_id|done].
  - right. rewrite (Hsk _ _ Hq Hall) in Hq. simpl in Hq. eauto.
Qed.

Lemma wf_live s : wf s → ∀ id, id ∈ queue s → is_Some (jobs s !! id).
Proof. intros Hwf id Hid. apply (wf_queue _ Hwf) in Hid as (j & -> & _). eauto. Qed.

Lemma wf_processNextJob s : wf s → wf (processNextJob s).
Proof.
  intros Hwf.
  destruct (processNextJob_cases s (wf_live s Hwf))
    as [[-> _]|(id & rest & Hq & _ & ->)]; [done|].
  by apply wf_afterAdmission.
Qed.

Lemma wf_enqueue id job s :
  wf s → jobs s !! id = None → status job = Queued → progress job = 0 →
  wf (set_queue (queue s ++ [id]) (set_jobs (<[id := job]> (jobs s)) s)).
Proof.
  intros Hwf Hfresh Hst Hpr.
  pose proof Hwf as [Hnd Hqueue Hstd Haw Htm Hproc Hact Hprog Hlog].
  assert (id ∉ queue s) as Hnq.
  { intros (j & Hj & _)%Hqueue. congruence. }
  split; simpl; try done.
  - apply NoDup_app. split_and!; [done| |apply NoDup_singleton].
    intros x Hx ->%list_elem_of_singleton. done.
  - intros k. rewrite elem_of_app, list_elem_of_singleton, lookup_insert.
    case_decide as Hk.
    + subst k. split; [eauto|]. by right.
    + rewrite Hqueue. naive_solver.
  - intros k Hk. rewrite lookup_insert. case_decide; [|by apply Hstd].
    subst k. destruct (Hstd id Hk) as (? & ? & _). congruence.
  - intros k j. rewrite lookup_insert. case_decide; [|by apply Hact].
    intros ? ?; simplify_eq. congruence.
  - intros k j. rewrite lookup_insert. case_decide; [|by apply Hprog].
    intros ?; simplify_eq. unfold okProgress. rewrite Hpr, Hst. by repeat split.
Qed.

Lemma wf_cancel_queued id now j s :
  wf s → jobs s !! id = Some j → status j = Queued →
  wf (update_job id (cancelWrite now) (set_queue (remove_first id (queue s)) s)).
Proof.
  intros Hwf Hj Hst.
  pose proof Hwf as [Hnd Hqueue Hstd Haw Htm Hproc Hact Hprog Hlog].
  split; simpl; try done.
  - by apply NoDup_remove_first.
  - intros k. rewrite elem_of_remove_first by done. rewrite Hqueue, lookup_alter.
    case_decide as Hk.
    + subst k. rewrite Hj. simpl. split; [naive_solver|].
      intros (j' & ? & Hst'). by simplify_eq.
    + naive_solver.
  - intros k Hk. rewrite lookup_alter. destruct (Hstd k Hk) as (j' & Hj' & Hst').
    case_decide; [|eauto]. subst k. simplify_eq.
  - intros k j'. rewrite lookup_alter. case_decide; [|by apply Hact].
    subst k. rewrite Hj. simpl. intros ? ?; simplify_eq.
  - intros k j'. rewrite lookup_alter. case_decide; [|by apply Hprog].
    subst k. rewrite Hj. simpl. intros ?; simplify_eq.
    destruct (Hprog id j Hj) as (? & ? & ?). unfold okProgress. simpl.
    split_and!; [lia|lia|done|done].
Qed.

Lemma wf_step s e s' : wf s → step s e = Some s' → wf s'.
Proof.
  intros Hwf Hstep. destruct e as [id i o n now|id now|id p|id md now|id err now|id now];
    simpl in Hstep.
  - (* queueJob *)
    case_decide as Hdom; [done|]. simplify_eq. apply not_elem_of_dom in Hdom.
    simpl. apply wf_processNextJob, wf_emit; [done|].
    by apply wf_enqueue.
  - (* cancelJob *)
    simplify_eq. rewrite cancelJob_eq.
    destruct (jobs s !! id) as [j|] eqn:Hj; [|done].
    destruct (status j) eqn:Hst; simpl; try done.
    + apply wf_emit; [done|]. by eapply wf_cancel_queued.
    + apply wf_emit; [done|]. apply wf_update_job; [|by apply wf_processing_delete].
      simpl. intros j' Hj'. simplify_eq. pose proof (wf_progress _ Hwf _ _ Hj) as Hp.
      unfold okProgress in *. simpl. rewrite Hst. split_and!; try done; lia.
  - (* onProgress *)
    case_decide as Hin; [|done]. simplify_eq.
    apply wf_update_job; [|done]. intros j Hj.
    destruct (wf_started _ Hwf _ Hin) as (j' & Hj' & Hst). simplify_eq.
    pose proof (wf_progress _ Hwf _ _ Hj) as Hp.
    unfold onProgress. case_decide; [|by split_and!].
    unfold okProgress in *. simpl. destruct Hp as (? & ? & Hp).
    split_and!; try done; try lia. intros Hc. specialize (Hp Hc). lia.
  - (* engine success *)
    case_decide as Hin; [|done]. simplify_eq.
    destruct (wf_started _ Hwf id) as (j & Hj & Hst); [by apply (wf_awaiting _ Hwf)|].
    rewrite (processJob_resolved_eq _ _ _ _ j Hj).
    apply wf_processNextJob, wf_emit; [done|].
    apply wf_processing_delete, wf_clearTimeout.
    apply wf_update_job; [|apply wf_set_awaiting; [set_solver|done]].
    simpl. intros j' Hj'. simplify_eq. pose proof (wf_progress _ Hwf _ _ Hj) as Hp.
    case_decide; [done|]. unfold okProgress. simpl.
    split_and!; try done; lia.
  - (* engine failure *)
    case_decide as Hin; [|done]. simplify_eq.
    destruct (wf_started _ Hwf id) as (j & Hj & Hst); [by apply (wf_awaiting _ Hwf)|].
    rewrite processJob_rejected_eq.
    apply wf_processNextJob, wf_emit; [done|]. apply wf_processing_delete.
    apply wf_update_job; [|apply wf_clearTimeout, wf_set_awaiting; [set_solver|done]].
    simpl. intros j' Hj'. simplify_eq. pose proof (wf_progress _ Hwf _ _ Hj) as Hp.
    unfold okProgress in *. simpl. split_and!; try done; lia.
  - (* watchdog *)
    case_decide as Hin; [|done]. simplify_eq.
    destruct (wf_started _ Hwf id) as (j & Hj & Hst); [by apply (wf_timers _ Hwf)|].
    rewrite onTimeout_eq.
    apply wf_processNextJob, wf_emit; [done|]. apply wf_processing_delete.
    apply wf_update_job; [|apply wf_set_timers; [set_solver|done]].
    simpl. intros j' Hj'. simplify_eq. pose proof (wf_progress _ Hwf _ _ Hj) as Hp.
    unfold okProgress in *. simpl. split_and!; try done; lia.
Qed.

Lemma wf_exec evs : ∀ s s', wf s → exec s evs = Some s' → wf s'.
Proof.
  induction evs as [|e evs IH]; simpl; intros s s' Hwf Hex.
  - by simplify_eq.
  - destruct (step s e) as [s1|] eqn:Hstep; [|done].
    eapply IH; [|done]. by eapply wf_step.
Qed.

Lemma reachable_wf s : reachable s → wf s.
Proof. intros (C & evs & Hex). eapply wf_exec; [apply wf_newService|done]. Qed.

(** ** What an admission attempt touches *)

Lemma processNextJob_on_jobs_other q s k :
  k ∉ q → jobs (processNextJob_on q s) !! k = jobs s !! k.
Proof.
  intros Hk.
  destruct (processNextJob_on_shape q s)
    as [(sk & q' & _ & _ & _ & _ & ->)|(sk & id & rest & -> & _ & _ & _ & ->)].
  - done.
  - simpl. rewrite lookup_alter_ne; [done|].
    intros ->. apply Hk. rewrite elem_of_app, elem_of_cons. auto.
Qed.

Lemma processNextJob_jobs_other s k :
  k ∉ queue s → jobs (processNextJob s) !! k = jobs s !! k.
Proof. apply processNextJob_on_jobs_other. Qed.

Lemma wf_not_queued s id j :
  wf s → jobs s !! id = Some j → status j ≠ Queued → id ∉ queue s.
Proof.
  intros Hwf Hj Hst (j' & Hj' & Hst')%(wf_queue _ Hwf). by simplify_eq.
Qed.

(** ** Cancellation wins over a late engine success *)

(** C3. In every reachable state, when the engine's promise resolves for a
    job whose status is [Cancelled], the job record is left exactly as it
    was: the status stays [Cancelled], progress is not forced to 100, no
    metadata is attached, [completedAt] keeps its value, and the view
    returned by [getJobStatus] is unchanged. *)
Theorem cancelled_job_ignores_engine_success s id md now job s' :
  reachable s →
  jobs s !! id = Some job →
  status job = Cancelled →
  step s (Resolve id md now) = Some s' →
  jobs s' !! id = Some job ∧ getJobStatus id s' = getJobStatus id s.
Proof.
  intros Hwf%reachable_wf Hj Hst Hstep. simpl in Hstep.
  case_decide as Hin; [|done]. simplify_eq.
  assert (jobs (processJob_resolved id md now s) !! id = Some job) as Hres.
  { rewrite (processJob_resolved_eq _ _ _ _ job Hj).
    rewrite decide_True by done. unfold processJob_finally.
    rewrite processNextJob_jobs_other.
    - simpl. rewrite lookup_alter_eq, Hj. done.
    - simpl. eapply wf_not_queued; [done..|]. by rewrite Hst. }
  split; [done|]. unfold getJobStatus. by rewrite Hres, Hj.
Qed.

Lemma cancelled_job_ignores_engine_success_witness :
  let s := afterEvents 1 [submitA; Cancel "a" 4] in
  let s' := processJob_resolved "a" md0 9 s in
  let job := mkJob "a" "/up/a/input.mp4" "/up/a/clip.wav" "clip.mp4"
                   Cancelled 0 1 (Some 4) None None in
  jobs s' !! "a" = Some job ∧ getJobStatus "a" s' = getJobStatus "a" s.
Proof.
  intros s s' job.
  apply (cancelled_job_ignores_engine_success s "a" md0 9 job s').
  - exists 1%nat, [submitA; Cancel "a" 4]. vm_compute. reflexivity.
  - vm_compute. reflexivity.
  - reflexivity.
  - vm_compute. reflexivity.
Defined.

(** ** The concurrency bound *)

Lemma processNextJob_on_processing q s :
  maxConcurrentJobs (processNextJob_on q s) = maxConcurrentJobs s ∧
  (processing (processNextJob_on q s) = processing s ∨
   hasCapacity s ∧ ∃ id, id ∈ q ∧
     processing (processNextJob_on q s) = {[id]} ∪ processing s).
Proof.
  destruct (processNextJob_on_shape q s)
    as [(sk & q' & _ & _ & _ & _ & ->)|(sk & id & rest & -> & _ & _ & Hcap & ->)].
  - split; [done|]. by left.
  - split; [done|]. right. split; [done|]. exists id. split; [|done].
    rewrite elem_of_app, elem_of_cons. auto.
Qed.

Lemma processNextJob_on_max q s :
  maxConcurrentJobs (processNextJob_on q s) = maxConcurrentJobs s.
Proof. apply processNextJob_on_processing. Qed.

Lemma size_add_one (id : string) (X : gset string) :
  (size ({[id]} ∪ X) ≤ S (size X))%nat.
Proof.
  rewrite size_union_alt, size_singleton.
  assert (size (X ∖ {[id]}) ≤ size X)%nat; [|lia].
  apply subseteq_size. set_solver.
Qed.

Lemma withinBound_processNextJob_on q s :
  withinBound s → withinBound (processNextJob_on q s).
Proof.
  unfold withinBound, hasCapacity. intros Hb.
  destruct (processNextJob_on_processing q s) as [-> [->|[Hcap (id & _ & ->)]]];
    [done|].
  pose proof (size_add_one id (processing s)). unfold hasCapacity in Hcap.
  rewrite sizeAtLeast_slots in Hcap.
  destruct (slots (maxConcurrentJobs s)); [lia|done].
Qed.

Lemma withinBound_shrink s s1 :
  withinBound s → maxConcurrentJobs s1 = maxConcurrentJobs s →
  processing s1 ⊆ processing s → withinBound s1.
Proof.
  unfold withinBound. intros Hb -> Hsub. apply subseteq_size in Hsub.
  destruct (slots (maxConcurrentJobs s)); [lia|done].
Qed.

Lemma withinBound_step s e s' :
  withinBound s → step s e = Some s' →
  withinBound s' ∧ maxConcurrentJobs s' = maxConcurrentJobs s.
Proof.
  intros Hb Hstep.
  destruct e as [id i o n now|id now|id p|id md now|id err now|id now];
    simpl in Hstep; try (case_decide; [|done]); simplify_eq.
  - case_decide; [done|]. simplify_eq. unfold queueJob, processNextJob. simpl.
    split; [|by rewrite processNextJob_on_max].
    by apply withinBound_processNextJob_on.
  - rewrite cancelJob_eq. destruct (jobs s !! id) as [j|]; [|done].
    destruct (status j); simpl; try done. split; [|done].
    eapply withinBound_shrink; [done..|]. simpl. set_solver.
  - done.
  - unfold processJob_resolved. simpl.
    destruct (jobs s !! id) as [j|]; [|done].
    case_decide; unfold processJob_finally, processNextJob; simpl;
      (split; [|by rewrite processNextJob_on_max]);
      apply withinBound_processNextJob_on;
      (eapply withinBound_shrink; [done..|]); simpl; set_solver.
  - unfold processJob_rejected, processJob_finally, processNextJob. simpl.
    split; [|by rewrite processNextJob_on_max].
    apply withinBound_processNextJob_on.
    eapply withinBound_shrink; [done..|]. simpl. set_solver.
  - unfold onTimeout, processNextJob. simpl.
    split; [|by rewrite processNextJob_on_max].
    apply withinBound_processNextJob_on.
    eapply withinBound_shrink; [done..|]. simpl. set_solver.
Qed.

Lemma withinBound_exec evs : ∀ s s',
  withinBound s → exec s evs = Some s' →
  withinBound s' ∧ maxConcurrentJobs s' = maxConcurrentJobs s.
Proof.
  induction evs as [|e evs IH]; simpl; intros s s' Hb Hex.
  - by simplify_eq.
  - destruct (step s e) as [s1|] eqn:Hstep; [|done].
    destruct (withinBound_step _ _ _ Hb Hstep) as [Hb1 Hm1].
    destruct (IH _ _ Hb1 Hex) as [Hb' Hm']. split; [done|congruence].
Qed.

Lemma withinBound_newService limit : withinBound (newService limit).
Proof.
  unfold withinBound. change (processing (newService limit)) with (∅ : gset string).
  rewrite size_empty. simpl. destruct (slots limit); [lia|done].
Qed.

(** The claim as first stated, for every configured number, fails: with
    the limit 1.5 two jobs are processing side by side, since the test
    [1 >= 1.5] is false; with NaN the test is never true and every
    submission is started at once. *)
Lemma fractional_limit_runs_two_jobs :
  let s := afterEventsWith (Finite (3 # 2)) [submitA; submitB] in
  getProcessingCount s = 2%nat ∧
  (3 # 2 < inject_Z (Z.of_nat (getProcessingCount s)))%Q ∧
  getProcessingCount (afterEventsWith NaN [submitA; submitB; submitC]) = 3%nat.
Proof. vm_compute. done. Qed.

(** C6 (as amended). When the limit is a whole number [C], whatever the
    history of submissions, cancellations, progress reports, engine
    settlements and watchdog firings, the processing set never holds more
    than [C] ids.  An admission attempt made when [size >= limit] holds
    changes nothing, so a job is popped only when there is room; for a whole
    limit that is when the set already holds [C] ids or more.  For any
    [number] at all the set never grows beyond the first size at which
    [size >= limit] holds: the next whole number at or above a finite limit,
    and no bound for NaN or [Infinity]. *)
Theorem processing_never_exceeds_limit (C : nat) (evs : list Event) (s : State) :
  exec (newService C) evs = Some s →
  (getProcessingCount s ≤ C)%nat ∧
  (∀ t : State, sizeAtLeast (size (processing t)) (maxConcurrentJobs t) →
                processNextJob t = t) ∧
  (∀ (t : State) (C' : nat), maxConcurrentJobs t = C' →
                (C' ≤ size (processing t))%nat → processNextJob t = t) ∧
  (∀ (limit : JsNumber) evs' s', exec (newService limit) evs' = Some s' →
     match slots limit with
     | Some c => (getProcessingCount s' ≤ c)%nat
     | None => True
     end).
Proof.
  intros Hex.
  assert (∀ t : State, sizeAtLeast (size (processing t)) (maxConcurrentJobs t) →
                       processNextJob t = t) as Hgate.
  { intros t Hfull. unfold processNextJob.
    rewrite processNextJob_on_full; [apply set_queue_id|].
    unfold hasCapacity. tauto. }
  assert (∀ (limit : JsNumber) evs' s', exec (newService limit) evs' = Some s' →
            match slots limit with
            | Some c => (getProcessingCount s' ≤ c)%nat
            | None => True
            end) as Hany.
  { intros limit evs' s' Hex'.
    destruct (withinBound_exec _ _ _ (withinBound_newService limit) Hex') as [Hb Hm].
    unfold withinBound in Hb. by rewrite Hm in Hb. }
  split_and!; [|done| |done].
  - specialize (Hany C evs s Hex). by rewrite slots_ofCount in Hany.
  - intros t C' Hmax Hfull. apply Hgate. rewrite Hmax. by apply sizeAtLeast_ofCount.
Qed.

Lemma processing_never_exceeds_limit_witness :
  (getProcessingCount (afterEvents 1 [submitA; submitB; submitC]) ≤ 1)%nat.
Proof.
  refine (proj1 (processing_never_exceeds_limit 1
                   [submitA; submitB; submitC]
                   (afterEvents 1 [submitA; submitB; submitC]) _)).
  vm_compute. reflexivity.
Defined.

(** ** The shape of a step *)

Lemma attempt_shape pre :
  live pre →
  ∃ adm, (adm = [] ∨ ∃ h, adm = [h]) ∧
    queue pre = adm ++ queue (processNextJob pre) ∧
    started (processNextJob pre) = list_to_set adm ∪ started pre ∧
    awaiting (processNextJob pre) = list_to_set adm ∪ awaiting pre ∧
    timers (processNextJob pre) = list_to_set adm ∪ timers pre ∧
    log (processNextJob pre) = admissionLog adm ++ log pre ∧
    dom (jobs (processNextJob pre)) = dom (jobs pre).
Proof.
  intros Hlive.
  destruct (processNextJob_cases pre Hlive)
    as [[-> _]|(h & rest & Hq & _ & ->)].
  - exists []. simpl. split; [by left|]. split_and!; try done; set_solver.
  - exists [h]. simpl. split; [right; by exists h|].
    split_and!; try done; set_solver.
Qed.

Lemma adm_attempt (adm : list string) :
  (adm = [] ∨ ∃ h, adm = [h]) → (adm = [] ∨ ∃ h, adm = [h] ∧ true = true).
Proof. intros [->|[h ->]]; [by left|right; by exists h]. Qed.

Lemma step_shape s e s' :
  wf s → step s e = Some s' →
  ∃ adm, (adm = [] ∨ ∃ h, adm = [h] ∧ attempts e = true) ∧
    arrivals s e = adm ++ queue s' ∧
    started s' = list_to_set adm ∪ started s ∧
    awaiting s' = list_to_set adm ∪ (awaiting s ∖ settledBy e) ∧
    timers s' = list_to_set adm ∪ (timers s ∖ disarmedBy e) ∧
    log s' = admissionLog adm ++ ownEffects s e ++ log s ∧
    dom (jobs s') = dom (jobs s) ∪ submittedBy e.
Proof.
  intros Hwf Hstep. pose proof (wf_live s Hwf) as Hlive.
  destruct e as [id i o n now|id now|id p|id md now|id err now|id now];
    simpl in Hstep.
  - case_decide as Hdom; [done|]. simplify_eq. simpl.
    match goal with |- context [processNextJob ?pre] =>
      destruct (attempt_shape pre) as (adm & Hadm & Hq & Hst & Haw & Htm & Hlog & Hdm)
    end.
    { intros k. simpl. rewrite elem_of_app, list_elem_of_singleton, lookup_insert_is_Some.
      intros [Hk| ->]; [|by left]. destruct (decide (id = k)); [by left|].
      right. split; [done|]. by apply Hlive. }
    apply adm_attempt in Hadm. exists adm. simpl in *. rewrite Hst, Haw, Htm, Hlog, Hdm, dom_insert_L.
    split_and!; try done; set_solver.
  - simplify_eq. rewrite cancelJob_eq. exists []. simpl.
    destruct (jobs s !! id) as [j|] eqn:Hj; simpl.
    2:{ split; [by left|]. split_and!; try done; set_solver. }
    assert (dom (alter (cancelWrite now) id (jobs s)) = dom (jobs s)) as Hdm.
    { apply set_eq. intros k. by rewrite !elem_of_dom, lookup_alter_is_Some. }
    destruct (status j); simpl; rewrite ?Hdm;
      (split; [by left|]); split_and!; try done; set_solver.
  - case_decide; [|done]. simplify_eq. exists []. simpl.
    split; [by left|]. split_and!; try done; set_solver.
  - case_decide as Hin; [|done]. simplify_eq.
    destruct (wf_started _ Hwf id) as (j & Hj & _); [by apply (wf_awaiting _ Hwf)|].
    rewrite (processJob_resolved_eq _ _ _ _ j Hj). unfold processJob_finally.
    match goal with |- context [processNextJob ?pre] =>
      destruct (attempt_shape pre) as (adm & Hadm & Hq & Hst & Haw & Htm & Hlog & Hdm)
    end.
    { intros k. simpl. rewrite lookup_alter_is_Some. apply Hlive. }
    apply adm_attempt in Hadm. exists adm. simpl in *. rewrite Hst, Haw, Htm, Hlog, Hdm.
    split_and!; try done; set_solver.
  - case_decide as Hin; [|done]. simplify_eq.
    rewrite processJob_rejected_eq. unfold processJob_finally.
    match goal with |- context [processNextJob ?pre] =>
      destruct (attempt_shape pre) as (adm & Hadm & Hq & Hst & Haw & Htm & Hlog & Hdm)
    end.
    { intros k. simpl. rewrite lookup_alter_is_Some. apply Hlive. }
    apply adm_attempt in Hadm. exists adm. simpl in *. rewrite Hst, Haw, Htm, Hlog, Hdm.
    split_and!; try done; set_solver.
  - case_decide as Hin; [|done]. simplify_eq.
    rewrite onTimeout_eq.
    match goal with |- context [processNextJob ?pre] =>
      destruct (attempt_shape pre) as (adm & Hadm & Hq & Hst & Haw & Htm & Hlog & Hdm)
    end.
    { intros k. simpl. rewrite lookup_alter_is_Some. apply Hlive. }
    apply adm_attempt in Hadm. exists adm. simpl in *. rewrite Hst, Haw, Htm, Hlog, Hdm.
    split_and!; try done; set_solver.
Qed.

Lemma exec_app evs1 : ∀ evs2 s,
  exec s (evs1 ++ evs2) = exec s evs1 ≫= λ s1, exec s1 evs2.
Proof.
  induction evs1 as [|e evs1 IH]; simpl; intros evs2 s; [done|].
  destruct (step s e); simpl; [apply IH|done].
Qed.

Lemma exec_snoc s evs e :
  exec s (evs ++ [e]) = exec s evs ≫= λ s1, step s1 e.
Proof.
  rewrite exec_app. destruct (exec s evs) as [s1|]; simpl; [|done].
  by destruct (step s1 e).
Qed.

Lemma reachable_exec s evs s' : reachable s → exec s evs = Some s' → reachable s'.
Proof.
  intros (C & evs0 & H0) Hex. exists C, (evs0 ++ evs).
  rewrite exec_app, H0. done.
Qed.

Lemma step_fresh s e s' k :
  step s e = Some s' → k ∈ submittedBy e → k ∉ dom (jobs s).
Proof.
  destruct e; simpl; try (intros _ Hk; by apply not_elem_of_empty in Hk).
  case_decide; [done|]. intros _ ->%elem_of_singleton. done.
Qed.

Lemma arrivals_sub s e k :
  wf s → k ∈ arrivals s e → k ∈ queue s ∨ k ∈ submittedBy e.
Proof.
  intros Hwf. destruct e; simpl; try (by left).
  - rewrite elem_of_app, list_elem_of_singleton, elem_of_singleton. done.
  - destruct (jobs s !! id) as [j|]; simpl; [|by left].
    destruct (status j); try (by left).
    rewrite elem_of_remove_first by apply (wf_nodup _ Hwf). intros [? _]. by left.
Qed.

(** An id that has a record and is not queued stays out of the queue. *)
Lemma left_queue_step s e s' k :
  wf s → step s e = Some s' → k ∈ dom (jobs s) → k ∉ queue s →
  k ∈ dom (jobs s') ∧ k ∉ queue s'.
Proof.
  intros Hwf Hstep Hdom Hq.
  destruct (step_shape _ _ _ Hwf Hstep) as (adm & _ & Harr & _ & _ & _ & _ & Hdm).
  split; [rewrite Hdm; set_solver|].
  intros Hin. destruct (arrivals_sub s e k Hwf) as [?|Hsub]; [|done|].
  - rewrite Harr, elem_of_app. by right.
  - by apply (step_fresh _ _ _ _ Hstep) in Hsub.
Qed.

(** ... and if it was never handed to the engine, it never is. *)
Lemma never_started_step s e s' k :
  wf s → step s e = Some s' → k ∈ dom (jobs s) → k ∉ queue s → k ∉ started s →
  k ∉ started s'.
Proof.
  intros Hwf Hstep Hdom Hq Hst.
  destruct (step_shape _ _ _ Hwf Hstep) as (adm & Hadm & Harr & -> & _).
  rewrite elem_of_union, elem_of_list_to_set. intros [Hin|?]; [|done].
  destruct (arrivals_sub s e k Hwf) as [?|Hsub]; [|done|].
  - rewrite Harr, elem_of_app. by left.
  - by apply (step_fresh _ _ _ _ Hstep) in Hsub.
Qed.

Lemma never_started_exec evs : ∀ s s' k,
  wf s → exec s evs = Some s' → k ∈ dom (jobs s) → k ∉ queue s → k ∉ started s →
  k ∈ dom (jobs s') ∧ (k ∉ queue s') ∧ (k ∉ started s').
Proof.
  induction evs as [|e evs IH]; simpl; intros s s' k Hwf Hex Hdom Hq Hst.
  - by simplify_eq.
  - destruct (step s e) as [s1|] eqn:Hstep; [|done].
    destruct (left_queue_step _ _ _ k Hwf Hstep) as [Hdom1 Hq1]; [done..|].
    eapply (IH s1); eauto using wf_step, never_started_step.
Qed.

(** ** Cancellation *)

(** C4. In every reachable state [cancelJob] returns [true] exactly when
    the id has a record whose status is [Queued] or [Processing].  On
    success the record of the id afterwards has status [Cancelled] and
    [completedAt = now], every other field of it is as before, and no other
    record changes; [getJobStatus] reports the job as cancelled;
    [fileManager.cleanupJob] is called, and the id is in neither the queue
    nor the processing set; a queued job is spliced out of the queue and is
    never handed to the engine by any later history; a processing job is
    deleted from the processing set with the queue untouched.  On failure
    the state is unchanged. *)
Theorem cancelJob_contract s id now :
  reachable s →
  let ok := (cancelJob id now s).1 in
  let s' := (cancelJob id now s).2 in
  (ok = true ↔
     ∃ job, jobs s !! id = Some job ∧ (status job = Queued ∨ status job = Processing)) ∧
  (ok = true → ∀ job, jobs s !! id = Some job →
     (∃ job', jobs s' !! id = Some job' ∧
        status job' = Cancelled ∧ completedAt job' = Some now ∧
        jobId job' = jobId job ∧ inputPath job' = inputPath job ∧
        outputPath job' = outputPath job ∧
        originalFilename job' = originalFilename job ∧
        progress job' = progress job ∧ createdAt job' = createdAt job ∧
        error job' = error job ∧ metadata job' = metadata job ∧
        (cs_status <$> getJobStatus id s') = Some Cancelled) ∧
     (∀ k, k ≠ id → jobs s' !! k = jobs s !! k) ∧
     jobs s' = <[id := set_completedAt now (set_status Cancelled job)]> (jobs s) ∧
     head (log s') = Some (CleanupJob id) ∧
     (id ∉ queue s') ∧ (id ∉ processing s') ∧
     (status job = Queued →
        queue s' = remove_first id (queue s) ∧ processing s' = processing s ∧
        ∀ evs s'', exec s' evs = Some s'' →
          (id ∉ queue s'') ∧ (id ∉ processing s'') ∧ (ExtractAudio id ∉ log s'')) ∧
     (status job = Processing →
        queue s' = queue s ∧ processing s' = processing s ∖ {[id]})) ∧
  (ok = false → s' = s).
Proof.
  intros Hreach. pose proof (reachable_wf _ Hreach) as Hwf.
  assert (wf (cancelJob id now s).2) as Hwf'.
  { by apply (wf_step s (Cancel id now)). }
  intros ok s'. subst ok s'. revert Hwf'. rewrite cancelJob_eq.
  destruct (jobs s !! id) as [j|] eqn:Hj; simpl.
  2:{ intros _. split_and!; try done. split; [done|]. by intros (? & ? & _). }
  destruct (status j) eqn:Hst; simpl; intros Hwf'.
  - (* queued *)
    split_and!; [split; eauto|..|done].
    intros _ job ?; simplify_eq.
    assert (id ∉ remove_first id (queue s)) as Hnq.
    { rewrite elem_of_remove_first by apply (wf_nodup _ Hwf). by intros [_ ?]. }
    assert (id ∉ started s) as Hns.
    { intros (j' & ? & ?)%(wf_started _ Hwf). by simplify_eq. }
    assert (id ∉ processing s) as Hnp.
    { intros ?%(wf_processing _ Hwf). done. }
    split_and!; try done.
    + eexists. split; [by rewrite lookup_alter_eq, Hj|]. simpl. split_and!; try done.
      unfold getJobStatus. simpl. by rewrite lookup_alter_eq, Hj.
    + intros k Hk. by rewrite lookup_alter_ne.
    + apply map_eq. intros k. rewrite lookup_alter, lookup_insert.
      case_decide; [subst k; by rewrite Hj|done].
    + intros _. split_and!; try done. intros evs s'' Hex.
      destruct (never_started_exec evs _ _ id Hwf' Hex) as (_ & Hq'' & Hs''); try done.
      { simpl. apply elem_of_dom. rewrite lookup_alter_is_Some. by rewrite Hj. }
      pose proof (wf_exec _ _ _ Hwf' Hex) as Hwf''.
      split_and!; [done| |by rewrite (wf_log _ Hwf'')].
      intros ?%(wf_processing _ Hwf''). done.
    + intros ?. congruence.
  - (* processing *)
    split_and!; [split; eauto|..|done].
    intros _ job ?; simplify_eq.
    split_and!; try done.
    + eexists. split; [by rewrite lookup_alter_eq, Hj|]. simpl. split_and!; try done.
      unfold getJobStatus. simpl. by rewrite lookup_alter_eq, Hj.
    + intros k Hk. by rewrite lookup_alter_ne.
    + apply map_eq. intros k. rewrite lookup_alter, lookup_insert.
      case_decide; [subst k; by rewrite Hj|done].
    + eapply wf_not_queued; [done..|]. by rewrite Hst.
    + set_solver.
    + by rewrite Hst.
  - split_and!; try done. split; [done|]. intros (? & ? & [?|?]); simplify_eq; congruence.
  - split_and!; try done. split; [done|]. intros (? & ? & [?|?]); simplify_eq; congruence.
  - split_and!; try done. split; [done|]. intros (? & ? & [?|?]); simplify_eq; congruence.
Qed.

Lemma cancelJob_contract_witness :
  let s := afterEvents 1 [submitA; submitB] in
  let s' := (cancelJob "a" 7 s).2 in
  ∃ job', jobs s' !! "a" = Some job' ∧
    status job' = Cancelled ∧ completedAt job' = Some 7 ∧
    jobId job' = "a" ∧ inputPath job' = "/up/a/input.mp4" ∧
    outputPath job' = "/up/a/clip.wav" ∧
    originalFilename job' = "clip.mp4" ∧
    progress job' = 0 ∧ createdAt job' = 1 ∧
    error job' = None ∧ metadata job' = None ∧
    (cs_status <$> getJobStatus "a" s') = Some Cancelled.
Proof.
  intros s s'.
  refine (proj1 (proj1 (proj2 (cancelJob_contract s "a" 7 _)) _
            (mkJob "a" "/up/a/input.mp4" "/up/a/clip.wav" "clip.mp4"
                   Processing 0 1 None None None) _)).
  - exists 1%nat, [submitA; submitB]. vm_compute. reflexivity.
  - vm_compute. reflexivity.
  - vm_compute. reflexivity.
Defined.

(** ** First in, first out *)

Lemma precedes_app_r a b l l' : precedes a b l → precedes a b (l ++ l').
Proof.
  intros (l1 & l2 & l3 & ->). exists l1, l2, (l3 ++ l').
  by rewrite <- !app_assoc, <- !app_comm_cons, <- app_assoc.
Qed.

Lemma precedes_tail a b h q : precedes a b (h :: q) → h ≠ a → precedes a b q.
Proof.
  intros (l1 & l2 & l3 & Heq) Hne. destruct l1 as [|x l1]; simpl in Heq.
  - congruence.
  - injection Heq as -> ->. by exists l1, l2, l3.
Qed.

Lemma precedes_elem a b l : precedes a b l → a ∈ l ∧ b ∈ l.
Proof.
  intros (l1 & l2 & l3 & ->).
  split; set_solver.
Qed.

Lemma precedes_NoDup a b l :
  NoDup l → precedes a b l → a ≠ b ∧ ∀ q, l ≠ b :: q.
Proof.
  intros Hnd (l1 & l2 & l3 & ->).
  apply NoDup_app in Hnd as (_ & Hdisj & Hnd).
  apply NoDup_cons in Hnd as [Ha _].
  rewrite elem_of_app, elem_of_cons in Ha. split.
  - intros ->. apply Ha. right. by left.
  - intros q Heq. destruct l1 as [|x l1]; simpl in Heq.
    + injection Heq as -> _. apply Ha. right. by left.
    + injection Heq as -> _. apply (Hdisj b); [by left|].
      rewrite elem_of_cons, elem_of_app, elem_of_cons. auto.
Qed.

Lemma remove_first_app_l id l r :
  id ∈ l → remove_first id (l ++ r) = remove_first id l ++ r.
Proof.
  induction l as [|x l IH]; simpl; [by intros ?%elem_of_nil|].
  rewrite elem_of_cons. intros Hin. case_decide; [done|].
  destruct Hin as [?|Hin]; [congruence|]. by rewrite IH.
Qed.

Lemma remove_first_app_r id l r :
  id ∉ l → remove_first id (l ++ r) = l ++ remove_first id r.
Proof.
  induction l as [|x l IH]; simpl; [done|].
  rewrite not_elem_of_cons. intros [Hne Hin]. case_decide; [congruence|].
  by rewrite IH.
Qed.

Lemma precedes_remove_first a b id l :
  precedes a b l → id ≠ a → id ≠ b → precedes a b (remove_first id l).
Proof.
  intros (l1 & l2 & l3 & ->) Ha Hb.
  destruct (decide (id ∈ l1)) as [H1|H1].
  { rewrite remove_first_app_l by done. by eexists _, l2, l3. }
  rewrite remove_first_app_r by done. simpl. rewrite decide_False by congruence.
  destruct (decide (id ∈ l2)) as [H2|H2].
  { rewrite remove_first_app_l by done. by eexists l1, _, l3. }
  rewrite remove_first_app_r by done. simpl. rewrite decide_False by congruence.
  by eexists l1, l2, _.
Qed.

Lemma elem_of_admissionsOf id l : id ∈ admissionsOf l ↔ ExtractAudio id ∈ l.
Proof.
  induction l as [|e l IH]; simpl.
  - by rewrite !elem_of_nil.
  - destruct e; rewrite ?elem_of_app, ?list_elem_of_singleton, elem_of_cons, IH;
      naive_solver.
Qed.

Lemma admissionsOf_app l1 l2 :
  admissionsOf (l1 ++ l2) = admissionsOf l2 ++ admissionsOf l1.
Proof.
  induction l1 as [|e l1 IH]; simpl; [by rewrite app_nil_r|].
  destruct e; rewrite IH; try done. by rewrite app_assoc.
Qed.

Lemma admissionsOf_own s e : admissionsOf (ownEffects s e) = [].
Proof.
  destruct e; simpl; try done.
  destruct (jobs s !! id) as [j|]; simpl; [|done]. by destruct (status j).
Qed.

Lemma admissionOrder_step s e s' adm :
  (adm = [] ∨ ∃ h, adm = [h] ∧ attempts e = true) →
  log s' = admissionLog adm ++ ownEffects s e ++ log s →
  admissionOrder s' = admissionOrder s ++ adm.
Proof.
  unfold admissionOrder. intros Hadm ->.
  rewrite !admissionsOf_app, admissionsOf_own, app_nil_r.
  by destruct Hadm as [->|(h & -> & _)].
Qed.

Lemma started_admissionOrder s id : wf s → id ∈ admissionOrder s ↔ id ∈ started s.
Proof.
  intros Hwf. unfold admissionOrder. by rewrite elem_of_admissionsOf, (wf_log _ Hwf).
Qed.

(** The id admitted by a step is the head of the queue the block saw, with
    the pushed id at its end. *)
Lemma taken_is_head s e s' h rest :
  wf s → step s e = Some s' → attempts e = true → arrivals s e = h :: rest →
  NoDup (arrivals s e) ∧ (∀ a b, precedes a b (queue s) → precedes a b (h :: rest)).
Proof.
  intros Hwf Hstep Hatt Harr. rewrite <- Harr. clear Harr.
  destruct e; simpl in *; try done; try (split; [apply (wf_nodup _ Hwf)|done]).
  case_decide as Hdom; [done|]. split.
  - apply NoDup_app. split_and!; [apply (wf_nodup _ Hwf)| |apply NoDup_singleton].
    intros x Hx ->%list_elem_of_singleton. apply Hdom.
    apply (wf_queue _ Hwf) in Hx as (j & Hj & _). apply elem_of_dom. eauto.
  - intros a b. apply precedes_app_r.
Qed.

Lemma fifoPhase_step a b s e s' :
  wf s → step s e = Some s' → fifoPhase a b s → fifoPhase a b s'.
Proof.
  intros Hwf Hstep Hph. pose proof (wf_step _ _ _ Hwf Hstep) as Hwf'.
  destruct (step_shape _ _ _ Hwf Hstep)
    as (adm & Hadm & Harr & Hst & _ & _ & Hlog & Hdm).
  pose proof (admissionOrder_step _ _ _ _ Hadm Hlog) as Hord.
  assert (∀ k, k ∈ dom (jobs s) → k ∈ dom (jobs s')) as Hmono.
  { intros k. rewrite Hdm. set_solver. }
  assert (∀ k, k ∈ dom (jobs s) → k ∉ queue s → k ∉ adm) as Hnew.
  { intros k Hk Hq Hin. destruct (arrivals_sub s e k Hwf) as [?|Hsub]; [|done|].
    - rewrite Harr, elem_of_app. by left.
    - by apply (step_fresh _ _ _ _ Hstep) in Hsub. }
  unfold fifoPhase.
  destruct Hph as [[Hb Hpre]|[(Hb & Ha & Haq)|[(Hb & Hbq & Hbs)|(Ha & Haq & Himp)]]].
  - (* both queued, a ahead *)
    pose proof (wf_nodup _ Hwf) as Hnd.
    destruct (precedes_NoDup _ _ _ Hnd Hpre) as [Hab _].
    destruct (precedes_elem _ _ _ Hpre) as [Hain Hbin].
    assert (a ∈ dom (jobs s) ∧ b ∈ dom (jobs s)) as [Hadom Hbdom].
    { split; apply elem_of_dom; by apply (wf_live _ Hwf). }
    assert (b ∉ started s') as Hb'.
    { rewrite Hst, elem_of_union, elem_of_list_to_set. intros [Hin|?]; [|done].
      destruct Hadm as [->|(h & -> & Hatt)]; [by apply elem_of_nil in Hin|].
      apply list_elem_of_singleton in Hin as <-.
      destruct (taken_is_head _ _ _ b (queue s') Hwf Hstep Hatt Harr) as [Hnd1 Hp1].
      rewrite Harr in Hnd1. simpl in Hnd1.
      destruct (precedes_NoDup _ _ _ Hnd1 (Hp1 _ _ Hpre)) as [_ Hhead].
      by destruct (Hhead (queue s')). }
    destruct (decide (a ∈ queue s')) as [Haq'|Haq']; [|right; left; auto].
    destruct (decide (b ∈ queue s')) as [Hbq'|Hbq']; [|right; right; left; auto].
    left. split; [done|].
    destruct Hadm as [->|(h & -> & Hatt)]; simpl in Harr.
    + rewrite <- Harr. destruct e; simpl; try done.
      * by apply precedes_app_r.
      * destruct (jobs s !! id) as [j|] eqn:Hj; simpl; [|done].
        destruct (status j) eqn:Hsj; try done.
        rewrite <- Harr in Haq', Hbq'. simpl in Haq', Hbq'. rewrite Hj in Haq', Hbq'.
        simpl in Haq', Hbq'. rewrite Hsj in Haq', Hbq'.
        apply elem_of_remove_first in Haq' as [_ ?]; [|done].
        apply elem_of_remove_first in Hbq' as [_ ?]; [|done].
        apply precedes_remove_first; [done|congruence..].
    + destruct (taken_is_head _ _ _ h (queue s') Hwf Hstep Hatt Harr) as [Hnd1 Hp1].
      apply (precedes_tail a b h); [by apply Hp1|].
      rewrite Harr in Hnd1. apply NoDup_cons in Hnd1 as [Hh _]. by intros ->.
  - (* a gone, b not yet admitted *)
    destruct (left_queue_step _ _ _ a Hwf Hstep Ha Haq) as [Ha' Haq'].
    destruct (decide (b ∈ started s')) as [Hbs'|Hbs']; [|right; left; auto].
    right. right. right. split_and!; [done..|].
    rewrite Hst, elem_of_union, elem_of_list_to_set. rewrite Hord.
    rewrite Hst, elem_of_union, elem_of_list_to_set in Hbs'.
    destruct Hbs' as [Hbin|?]; [|done].
    intros [Hain|Hain]; [by destruct (Hnew a Ha Haq)|].
    apply (started_admissionOrder _ _ Hwf), list_elem_of_split in Hain as (l1 & l2 & ->).
    destruct Hadm as [->|(h & -> & _)]; [by apply elem_of_nil in Hbin|].
    apply list_elem_of_singleton in Hbin as ->.
    exists l1, l2, []. by rewrite <- app_assoc.
  - (* b left the queue without being admitted *)
    destruct (left_queue_step _ _ _ b Hwf Hstep Hb Hbq) as [Hb' Hbq'].
    right. right. left. split_and!; [done..|].
    by apply (never_started_step s e s' b).
  - (* b admitted after a left *)
    destruct (left_queue_step _ _ _ a Hwf Hstep Ha Haq) as [Ha' Haq'].
    right. right. right. split_and!; [done..|].
    rewrite Hst, elem_of_union, elem_of_list_to_set, Hord.
    intros [Hain|Hain]; [by destruct (Hnew a Ha Haq)|].
    by apply precedes_app_r, Himp.
Qed.

Lemma fifoPhase_exec a b evs : ∀ s s',
  wf s → exec s evs = Some s' → fifoPhase a b s → fifoPhase a b s'.
Proof.
  induction evs as [|e evs IH]; simpl; intros s s' Hwf Hex Hph.
  - by simplify_eq.
  - destruct (step s e) as [s1|] eqn:Hstep; [|done].
    eapply (IH s1); eauto using wf_step, fifoPhase_step.
Qed.

(** The queue is the submission order with some ids taken out. *)

Lemma sublist_remove_first id q : sublist (remove_first id q) q.
Proof.
  induction q as [|x q IH]; simpl; [constructor|].
  case_decide; [by apply sublist_cons|by apply sublist_skip].
Qed.

Lemma submissionOrder_snoc evs e :
  submissionOrder (evs ++ [e]) = submissionOrder evs ++ elements (submittedBy e).
Proof.
  unfold submissionOrder. rewrite omap_app. f_equal.
  destruct e; simpl; rewrite ?elements_empty, ?elements_singleton; done.
Qed.

Lemma arrivals_sublist s e : sublist (arrivals s e) (queue s ++ elements (submittedBy e)).
Proof.
  destruct e; simpl; rewrite ?elements_empty, ?elements_singleton, ?app_nil_r;
    try done.
  destruct (jobs s !! id) as [j|]; simpl; [|done].
  destruct (status j); try done. apply sublist_remove_first.
Qed.

Lemma queue_follows_submissions C evs : ∀ s,
  exec (newService C) evs = Some s →
  sublist (queue s) (submissionOrder evs) ∧ NoDup (submissionOrder evs) ∧
  ∀ id, id ∈ submissionOrder evs → id ∈ dom (jobs s).
Proof.
  induction evs as [|e evs IH] using rev_ind; intros s Hex.
  - simpl in Hex. simplify_eq. simpl. split_and!; [constructor|constructor|].
    by intros id ?%elem_of_nil.
  - rewrite exec_snoc in Hex.
    destruct (exec (newService C) evs) as [s1|] eqn:Hex1; [|done]. simpl in Hex.
    destruct (IH s1 eq_refl) as (Hsub & Hnd & Hdom).
    assert (wf s1) as Hwf by (eapply wf_exec; [apply wf_newService|done]).
    destruct (step_shape _ _ _ Hwf Hex) as (adm & _ & Harr & _ & _ & _ & _ & Hdm).
    rewrite submissionOrder_snoc. split_and!.
    + trans (arrivals s1 e).
      * rewrite Harr. by apply sublist_inserts_l.
      * etrans; [apply arrivals_sublist|]. by apply sublist_app.
    + apply NoDup_app. split_and!; [done| |apply NoDup_elements].
      intros id Hid Hin%elem_of_elements.
      apply (step_fresh _ _ _ _ Hex) in Hin. by apply Hin, Hdom.
    + intros id. rewrite elem_of_app, elem_of_elements, Hdm, elem_of_union.
      intros [?|?]; auto.
Qed.

Lemma precedes_sublist a b q l :
  sublist q l → NoDup l → precedes a b l → a ∈ q → b ∈ q → precedes a b q.
Proof.
  induction 1 as [|x q l Hsub IH|x q l Hsub IH]; intros Hnd Hpre Ha Hb.
  - by apply elem_of_nil in Ha.
  - apply NoDup_cons in Hnd as [Hx Hnd].
    destruct Hpre as (l1 & l2 & l3 & Heq). destruct l1 as [|y l1]; simpl in Heq.
    + injection Heq as -> ->.
      assert (b ≠ a) as Hne.
      { intros ->. apply Hx. rewrite elem_of_app, elem_of_cons. auto. }
      apply elem_of_cons in Hb as [?|Hb]; [done|].
      apply list_elem_of_split in Hb as (pre & post & ->). by exists [], pre, post.
    + injection Heq as -> ->.
      assert (precedes a b (l1 ++ a :: l2 ++ b :: l3)) as Hpre by (by eexists _, _, _).
      destruct (precedes_elem _ _ _ Hpre) as [Hal Hbl].
      apply elem_of_cons in Ha as [->|Ha]; [done|].
      apply elem_of_cons in Hb as [->|Hb]; [done|].
      destruct (IH Hnd Hpre Ha Hb) as (q1 & q2 & q3 & ->).
      by eexists (_ :: q1), q2, q3.
  - apply NoDup_cons in Hnd as [Hx Hnd].
    destruct Hpre as (l1 & l2 & l3 & Heq). destruct l1 as [|y l1]; simpl in Heq.
    + injection Heq as -> ->. destruct Hx. by eapply elem_of_sublist.
    + injection Heq as -> ->. apply IH; [done| |done..]. by eexists _, _, _.
Qed.

Lemma processNextJob_on_set_queue q q0 s :
  processNextJob_on q (set_queue q0 s) = processNextJob_on q s.
Proof.
  induction q as [|id rest IH]; simpl.
  - by case_decide.
  - case_decide; [done|]. by destruct (jobs s !! id).
Qed.

(** C7. Let [a] be submitted before [b] in the history leading to a
    state in which both are still queued.  Then [a] is ahead of [b] in the
    queue, and for any later history by the end of which [b] has been handed
    to the engine, [a] is no longer queued, and if [a] was handed to the
    engine at all (it was not cancelled while waiting) this happened before
    [b].  The reason is the shape of [processNextJob]: with room available it
    admits the head of the queue when the head has a record, and when the
    head has none it behaves as if the head had not been in the queue. *)
Theorem fifo_admission (C : nat) (evs0 : list Event) (s : State) (a b : string)
    (evs : list Event) (s' : State) :
  exec (newService C) evs0 = Some s →
  precedes a b (submissionOrder evs0) →
  a ∈ queue s → b ∈ queue s →
  exec s evs = Some s' →
  b ∈ admissionOrder s' →
  precedes a b (queue s) ∧
  (a ∉ queue s') ∧
  (a ∈ admissionOrder s' → precedes a b (admissionOrder s')) ∧
  (∀ t h rest, queue t = h :: rest → hasCapacity t →
     (is_Some (jobs t !! h) → processNextJob t = afterAdmission h rest t) ∧
     (jobs t !! h = None → processNextJob t = processNextJob (set_queue rest t))).
Proof.
  intros Hex0 Hsubm Haq Hbq Hex Hb.
  assert (wf s) as Hwf by (eapply wf_exec; [apply wf_newService|done]).
  pose proof (wf_exec _ _ _ Hwf Hex) as Hwf'.
  destruct (queue_follows_submissions C evs0 s Hex0) as (Hsub & Hnd & _).
  pose proof (precedes_sublist a b _ _ Hsub Hnd Hsubm Haq Hbq) as Hpre.
  assert (fifoPhase a b s) as Hph.
  { left. split; [|done].
    apply (wf_queue _ Hwf) in Hbq as (j & Hj & Hst).
    intros (j' & ? & ?)%(wf_started _ Hwf). by simplify_eq. }
  apply (fifoPhase_exec a b evs s s' Hwf Hex) in Hph.
  apply (started_admissionOrder _ _ Hwf') in Hb.
  split_and!.
  - done.
  - by destruct Hph as [[? _]|[(? & _)|[(_ & _ & ?)|(_ & ? & _)]]].
  - rewrite (started_admissionOrder _ _ Hwf').
    by destruct Hph as [[? _]|[(? & _)|[(_ & _ & ?)|(_ & _ & ?)]]].
  - intros t h rest Hq Hcap. unfold processNextJob. rewrite Hq. split.
    + intros Hsome. by apply processNextJob_on_head.
    + intros Hnone. rewrite processNextJob_on_skip by done. simpl.
      by rewrite processNextJob_on_set_queue.
Qed.

Lemma fifo_admission_witness :
  let s' := afterEvents 1 [submitA; submitB; submitC; Resolve "a" md0 5; Resolve "b" md0 8] in
  precedes "b" "c" (admissionOrder s').
Proof.
  intros s'.
  refine (proj1 (proj2 (proj2 (fifo_admission 1 [submitA; submitB; submitC]
            (afterEvents 1 [submitA; submitB; submitC]) "b" "c"
            [Resolve "a" md0 5; Resolve "b" md0 8] s' _ _ _ _ _ _))) _).
  - vm_compute. reflexivity.
  - exists ["a"], [], []. vm_compute. reflexivity.
  - apply (bool_decide_unpack _). vm_compute. exact I.
  - apply (bool_decide_unpack _). vm_compute. exact I.
  - vm_compute. reflexivity.
  - apply (bool_decide_unpack _). vm_compute. exact I.
  - apply (bool_decide_unpack _). vm_compute. exact I.
Defined.

(** ** Records and slots of jobs that left the queue *)

Lemma step_records s e s' k j :
  wf s → step s e = Some s' → jobs s !! k = Some j → k ∉ queue s →
  ∃ j', jobs s' !! k = Some j' ∧ staysOrEnds j j'.
Proof.
  intros Hwf Hstep Hj Hq. unfold staysOrEnds.
  destruct e as [id i o n now|id now|id p|id md now|id err now|id now];
    simpl in Hstep.
  - case_decide as Hdom; [done|]. simplify_eq. simpl.
    assert (k ≠ id) as Hne.
    { intros ->. apply Hdom, elem_of_dom. eauto. }
    rewrite processNextJob_jobs_other; simpl.
    + rewrite lookup_insert_ne by done. eauto.
    + rewrite elem_of_app, list_elem_of_singleton. by intros [?|?].
  - simplify_eq. rewrite cancelJob_eq.
    destruct (jobs s !! id) as [j0|] eqn:Hj0; simpl; [|eauto].
    destruct (status j0) eqn:Hs0; simpl; eauto;
      rewrite lookup_alter; case_decide; simplify_eq; rewrite ?Hj0, ?Hj; simpl; eauto.
  - case_decide; [|done]. simplify_eq. simpl.
    rewrite lookup_alter. case_decide; simplify_eq; rewrite Hj; simpl; [|eauto].
    eexists. split; [done|]. left. unfold onProgress. by case_decide.
  - case_decide as Hin; [|done]. simplify_eq.
    destruct (wf_started _ Hwf id) as (j0 & Hj0 & _); [by apply (wf_awaiting _ Hwf)|].
    rewrite (processJob_resolved_eq _ _ _ _ j0 Hj0). unfold processJob_finally.
    rewrite processNextJob_jobs_other by done. simpl.
    rewrite lookup_alter. case_decide; simplify_eq; rewrite Hj; simpl; [|eauto].
    eexists. split; [done|]. case_decide; simpl; auto.
  - case_decide as Hin; [|done]. simplify_eq.
    rewrite processJob_rejected_eq. unfold processJob_finally.
    rewrite processNextJob_jobs_other by done. simpl.
    rewrite lookup_alter. case_decide; simplify_eq; rewrite Hj; simpl; eauto 6.
  - case_decide as Hin; [|done]. simplify_eq.
    rewrite onTimeout_eq.
    rewrite processNextJob_jobs_other by done. simpl.
    rewrite lookup_alter. case_decide; simplify_eq; rewrite Hj; simpl; eauto 6.
Qed.

Lemma processNextJob_processing_other s k :
  k ∉ queue s → k ∈ processing (processNextJob s) → k ∈ processing s.
Proof.
  intros Hq. unfold processNextJob.
  destruct (processNextJob_on_processing (queue s) s)
    as [_ [->|[_ (h & Hh & ->)]]]; [done|].
  rewrite elem_of_union, elem_of_singleton. intros [Heq|?]; [by subst k|done].
Qed.

Lemma step_processing s e s' k :
  wf s → step s e = Some s' → k ∈ dom (jobs s) → k ∉ queue s →
  k ∈ processing s' → k ∈ processing s ∧ k ∉ disarmedBy e.
Proof.
  intros Hwf Hstep Hdom Hq.
  destruct e as [id i o n now|id now|id p|id md now|id err now|id now];
    simpl in Hstep.
  - case_decide as Hnd; [done|]. simplify_eq. simpl. intros Hin.
    apply processNextJob_processing_other in Hin; [set_solver|]. simpl.
    rewrite elem_of_app, list_elem_of_singleton. intros [?|Heq]; [done|].
    subst k. by apply Hnd.
  - simplify_eq. rewrite cancelJob_eq.
    destruct (jobs s !! id) as [j0|]; simpl; [|set_solver].
    destruct (status j0); simpl; set_solver.
  - case_decide; [|done]. simplify_eq. simpl. set_solver.
  - case_decide as Hin; [|done]. simplify_eq.
    destruct (wf_started _ Hwf id) as (j0 & Hj0 & _); [by apply (wf_awaiting _ Hwf)|].
    rewrite (processJob_resolved_eq _ _ _ _ j0 Hj0). unfold processJob_finally.
    intros Hk. apply processNextJob_processing_other in Hk; [|done].
    simpl in *. set_solver.
  - case_decide as Hin; [|done]. simplify_eq.
    rewrite processJob_rejected_eq. unfold processJob_finally.
    intros Hk. apply processNextJob_processing_other in Hk; [|done].
    simpl in *. set_solver.
  - case_decide as Hin; [|done]. simplify_eq.
    rewrite onTimeout_eq.
    intros Hk. apply processNextJob_processing_other in Hk; [|done].
    simpl in *. set_solver.
Qed.

(** ** Release bookkeeping *)

Lemma occurrences_app x l1 l2 :
  occurrences x (l1 ++ l2) = (occurrences x l1 + occurrences x l2)%nat.
Proof. unfold occurrences. by rewrite filter_app, length_app. Qed.

Lemma occurrences_admissionLog x adm :
  (∀ h, x ≠ ExtractAudio h) → (∀ h, x ≠ SetTimeout h) →
  occurrences x (admissionLog adm) = 0%nat.
Proof.
  intros H1 H2. unfold occurrences, admissionLog.
  induction adm as [|h adm IH]; simpl; [done|].
  rewrite filter_cons, decide_False by (intros Heq; by apply (H1 h)).
  rewrite filter_cons, decide_False by (intros Heq; by apply (H2 h)).
  apply IH.
Qed.

Lemma settlements_snoc id evs e :
  settlements id (evs ++ [e]) = (settlements id evs + ind (id ∈ settledBy e))%nat.
Proof.
  unfold settlements, ind. rewrite filter_app, length_app. f_equal.
  rewrite filter_cons, filter_nil. by case_decide.
Qed.

Lemma firings_snoc id evs e :
  firings id (evs ++ [e]) = (firings id evs + ind (id ∈ firedBy e))%nat.
Proof.
  unfold firings, ind. rewrite filter_app, length_app. f_equal.
  rewrite filter_cons, filter_nil. by case_decide.
Qed.

Ltac count_effects :=
  unfold occurrences, ind;
  repeat (rewrite filter_cons; case_decide; simplify_eq);
  rewrite ?filter_nil; simpl;
  repeat case_decide; simpl; try done; try set_solver.

Lemma own_clear id s e :
  occurrences (ClearTimeout id) (ownEffects s e) = ind (id ∈ settledBy e).
Proof.
  destruct e as [i ? ? ? ?|i ?|i ?|i ? ?|i ? ?|i ?]; simpl; try count_effects.
  destruct (jobs s !! i) as [j|]; simpl; [destruct (status j)|]; count_effects.
Qed.

Lemma own_attempt id s e :
  occurrences (AdmissionAttempt (Some id)) (ownEffects s e)
    = (ind (id ∈ settledBy e) + ind (id ∈ firedBy e))%nat.
Proof.
  destruct e as [i ? ? ? ?|i ?|i ?|i ? ?|i ? ?|i ?]; simpl; try count_effects.
  destruct (jobs s !! i) as [j|]; simpl; [destruct (status j)|]; count_effects.
Qed.

Lemma own_delete id s e :
  (ind (id ∈ settledBy e) + ind (id ∈ firedBy e)
     ≤ occurrences (ProcessingDelete id) (ownEffects s e))%nat ∧
  (occurrences (ProcessingDelete id) (ownEffects s e)
     ≤ ind (id ∈ settledBy e) + ind (id ∈ firedBy e)
       + occurrences (CleanupJob id) (ownEffects s e))%nat.
Proof.
  destruct e as [i ? ? ? ?|i ?|i ?|i ? ?|i ? ?|i ?]; simpl; try count_effects.
  destruct (jobs s !! i) as [j|]; simpl; [destruct (status j)|]; count_effects.
Qed.

Lemma own_cleanup id s e :
  (occurrences (CleanupJob id) (ownEffects s e) ≤ 1)%nat ∧
  ((1 ≤ occurrences (CleanupJob id) (ownEffects s e))%nat →
   ∃ now j, e = Cancel id now ∧ jobs s !! id = Some j ∧
            (status j = Queued ∨ status j = Processing)).
Proof.
  destruct e as [i ? ? ? ?|i now|i ?|i ? ?|i ? ?|i ?]; simpl;
    try (count_effects; split; [lia|intros; lia]).
  destruct (jobs s !! i) as [j|] eqn:Hj; simpl; [destruct (status j) eqn:Hs|];
    count_effects; (split; [lia|]); try (intros; lia); intros _; eauto 6.
Qed.

Lemma step_enabled s e s' :
  step s e = Some s' → settledBy e ⊆ awaiting s ∧ firedBy e ⊆ timers s.
Proof.
  destruct e; simpl; try (intros _; set_solver);
    case_decide; try done; intros _; set_solver.
Qed.

Lemma started_not_taken s e s' adm id :
  wf s → step s e = Some s' → arrivals s e = adm ++ queue s' →
  id ∈ started s → id ∉ adm.
Proof.
  intros Hwf Hstep Harr Hid Hin.
  destruct (wf_started _ Hwf _ Hid) as (j & Hj & Hst).
  destruct (arrivals_sub s e id Hwf) as [Hq|Hsub].
  - rewrite Harr, elem_of_app. by left.
  - by apply (wf_not_queued _ _ _ Hwf Hj Hst).
  - apply (step_fresh _ _ _ _ Hstep) in Hsub. apply Hsub, elem_of_dom. eauto.
Qed.

Lemma bookkeeping_newService id C : bookkeeping id [] (newService C).
Proof.
  split; simpl; unfold settlements, firings, occurrences; simpl;
    try done; try lia; intros; lia.
Qed.

Lemma ind_cases (P : Prop) `{Decision P} :
  (P ∧ ind P = 1%nat) ∨ (¬ P ∧ ind P = 0%nat).
Proof. unfold ind. destruct (decide P); auto. Qed.

Lemma settled_not_fired id e : id ∈ settledBy e → id ∉ firedBy e.
Proof. destruct e; simpl; set_solver. Qed.

Lemma settled_disarmed id e : id ∈ settledBy e → id ∈ disarmedBy e.
Proof. destruct e; simpl; set_solver. Qed.

Lemma fired_disarmed id e : id ∈ firedBy e → id ∈ disarmedBy e.
Proof. destruct e; simpl; set_solver. Qed.

Lemma cancel_mark_step id s e s' :
  wf s → step s e = Some s' →
  (1 ≤ occurrences (CleanupJob id) (ownEffects s e)
       + occurrences (CleanupJob id) (log s))%nat →
  ((1 ≤ occurrences (CleanupJob id) (log s))%nat →
   ∃ j, jobs s !! id = Some j ∧ (id ∉ queue s) ∧ status j ≠ Processing) →
  ∃ j, jobs s' !! id = Some j ∧ (id ∉ queue s') ∧ status j ≠ Processing.
Proof.
  intros Hwf Hstep Hge Hold.
  destruct (own_cleanup id s e) as [_ Hcl].
  destruct (decide (1 ≤ occurrences (CleanupJob id) (log s))%nat) as [Hge'|Hlt].
  - destruct (Hold Hge') as (j & Hj & Hq & Hnp).
    destruct (step_records s e s' id j Hwf Hstep Hj Hq) as (j' & Hj' & Hmove).
    exists j'. split_and!; [done| |].
    + apply (left_queue_step s e s' id Hwf Hstep); [|done]. apply elem_of_dom. eauto.
    + unfold staysOrEnds in Hmove. intros Hp. rewrite Hp in Hmove.
      destruct Hmove as [?|[?|[?|?]]]; congruence.
  - destruct Hcl as (now & j & -> & Hj & Hsj); [lia|].
    simpl in Hstep. simplify_eq. rewrite cancelJob_eq, Hj.
    assert (id ∉ remove_first id (queue s)) as Hrm.
    { rewrite elem_of_remove_first by apply (wf_nodup _ Hwf). by intros [_ ?]. }
    destruct Hsj as [Hsj|Hsj]; rewrite Hsj; simpl;
      rewrite lookup_alter_eq, Hj; simpl; eexists; split_and!; try done.
    eapply wf_not_queued; [done..|]. by rewrite Hsj.
Qed.

(** Once settled, a job stays handed over and is never awaited again. *)
Lemma settle_mark_step id s e s' :
  wf s → step s e = Some s' →
  id ∈ settledBy e ∨ (id ∈ started s ∧ (id ∉ awaiting s)) →
  id ∈ started s' ∧ (id ∉ awaiting s').
Proof.
  intros Hwf Hstep Hwhy.
  destruct (step_shape _ _ _ Hwf Hstep) as (adm & _ & Harr & Hst & Haw & _).
  destruct (step_enabled _ _ _ Hstep) as [HenS _].
  assert (id ∈ started s) as Hids.
  { destruct Hwhy as [Hin|[? _]]; [|done]. by apply (wf_awaiting _ Hwf), HenS. }
  pose proof (started_not_taken s e s' adm id Hwf Hstep Harr Hids) as Hnadm.
  split.
  - rewrite Hst, elem_of_union. by right.
  - rewrite Haw, elem_of_union, elem_of_list_to_set, elem_of_difference.
    intros [?|[Hin Hns]]; [done|]. by destruct Hwhy as [?|[_ ?]].
Qed.

(** Once a trigger ran, the watchdog stays disarmed and the slot released. *)
Lemma trigger_mark_step id s e s' :
  wf s → step s e = Some s' →
  id ∈ disarmedBy e ∧ id ∈ started s ∨
    (id ∈ started s ∧ (id ∉ timers s) ∧ (id ∉ processing s)) →
  id ∈ started s' ∧ (id ∉ timers s') ∧ (id ∉ processing s').
Proof.
  intros Hwf Hstep Hwhy.
  destruct (step_shape _ _ _ Hwf Hstep) as (adm & _ & Harr & Hst & _ & Htm & _).
  assert (id ∈ started s) as Hids by (by destruct Hwhy as [[_ ?]|[? _]]).
  pose proof (started_not_taken s e s' adm id Hwf Hstep Harr Hids) as Hnadm.
  destruct (wf_started _ Hwf _ Hids) as (j & Hj & Hsj).
  pose proof (wf_not_queued _ _ _ Hwf Hj Hsj) as Hnq.
  assert (id ∈ dom (jobs s)) as Hdom by (apply elem_of_dom; eauto).
  split_and!.
  - rewrite Hst, elem_of_union. by right.
  - rewrite Htm, elem_of_union, elem_of_list_to_set, elem_of_difference.
    intros [?|[Hin Hns]]; [done|]. by destruct Hwhy as [[? _]|(_ & ? & _)].
  - intros Hin.
    apply (step_processing s e s' id Hwf Hstep Hdom Hnq) in Hin as [Hin Hns].
    by destruct Hwhy as [[? _]|(_ & _ & ?)].
Qed.

Lemma bookkeeping_step id evs s e s' :
  wf s → bookkeeping id evs s → step s e = Some s' →
  bookkeeping id (evs ++ [e]) s'.
Proof.
  intros Hwf Hbk Hstep.
  destruct (step_shape _ _ _ Hwf Hstep) as (adm & _ & _ & _ & _ & _ & Hlog & _).
  pose proof (own_clear id s e) as Hoc.
  pose proof (own_attempt id s e) as Hoa.
  destruct (own_delete id s e) as [Hod1 Hod2].
  destruct (own_cleanup id s e) as [Hcl1 Hcl2].
  destruct (step_enabled _ _ _ Hstep) as [HenS HenT].
  destruct Hbk as [B1 B2 B3 B4 B5 B6 B7 B8 B9 B10].
  (* a trigger that is enabled has not happened before *)
  assert (id ∈ settledBy e → settlements id evs = 0%nat) as HS.
  { intros Hin.
    destruct (decide (1 ≤ settlements id evs)%nat) as [Hge|]; [|lia].
    destruct (B8 Hge) as [_ Hna]. destruct Hna. by apply HenS. }
  assert (id ∈ firedBy e →
          settlements id evs = 0%nat ∧ firings id evs = 0%nat) as HT.
  { intros Hin.
    destruct (decide (1 ≤ settlements id evs + firings id evs)%nat) as [Hge|]; [|lia].
    destruct (B9 Hge) as (_ & Hna & _). destruct Hna. by apply HenT. }
  assert ((1 ≤ occurrences (CleanupJob id) (ownEffects s e))%nat →
          occurrences (CleanupJob id) (log s) = 0%nat) as HC.
  { intros (now & j & -> & Hj & Hsj)%Hcl2.
    destruct (decide (1 ≤ occurrences (CleanupJob id) (log s))%nat) as [Hge|]; [|lia].
    destruct (B10 Hge) as (j' & Hj' & Hq & Hnp). simplify_eq.
    destruct Hsj as [Hsj|Hsj]; [|done].
    destruct Hq. apply (wf_queue _ Hwf). eauto. }
  assert (∀ x, (∀ h, x ≠ ExtractAudio h) → (∀ h, x ≠ SetTimeout h) →
            occurrences x (log s')
              = (occurrences x (ownEffects s e) + occurrences x (log s))%nat) as Hocc.
  { intros x H1 H2.
    by rewrite Hlog, !occurrences_app, occurrences_admissionLog. }
  destruct (ind_cases (id ∈ settledBy e)) as [[HinS HvS]|[HinS HvS]];
    destruct (ind_cases (id ∈ firedBy e)) as [[HinT HvT]|[HinT HvT]];
    try (by destruct (settled_not_fired id e HinS));
    rewrite HvS, HvT in *;
    try specialize (HS HinS); try destruct (HT HinT) as [HT1 HT2].
  - (* the event settles [id] *)
    split; rewrite ?settlements_snoc, ?firings_snoc, ?Hocc, ?HvS, ?HvT by done;
      try lia; intros Hge.
    + apply (settle_mark_step id s e s' Hwf Hstep). by left.
    + apply (trigger_mark_step id s e s' Hwf Hstep). left.
      split; [by apply settled_disarmed|]. by apply (wf_awaiting _ Hwf), HenS.
    + by apply (cancel_mark_step id s e s' Hwf Hstep Hge B10).
  - (* the event is the watchdog of [id] *)
    split; rewrite ?settlements_snoc, ?firings_snoc, ?Hocc, ?HvS, ?HvT by done;
      try lia; intros Hge.
    + apply (trigger_mark_step id s e s' Hwf Hstep). left.
      split; [by apply fired_disarmed|]. by apply (wf_timers _ Hwf), HenT.
    + by apply (cancel_mark_step id s e s' Hwf Hstep Hge B10).
  - (* any other event *)
    split; rewrite ?settlements_snoc, ?firings_snoc, ?Hocc, ?HvS, ?HvT by done;
      try lia; intros Hge.
    + apply (settle_mark_step id s e s' Hwf Hstep). right. apply B8. lia.
    + apply (trigger_mark_step id s e s' Hwf Hstep). right. apply B9. lia.
    + by apply (cancel_mark_step id s e s' Hwf Hstep Hge B10).
Qed.

Lemma bookkeeping_exec id C evs : ∀ s,
  exec (newService C) evs = Some s → bookkeeping id evs s.
Proof.
  induction evs as [|e evs IH] using rev_ind; intros s Hex.
  - simpl in Hex. simplify_eq. apply bookkeeping_newService.
  - rewrite exec_snoc in Hex.
    destruct (exec (newService C) evs) as [s1|] eqn:Hex1; [|done]. simpl in Hex.
    eapply bookkeeping_step; [|by apply IH|done].
    eapply wf_exec; [apply wf_newService|done].
Qed.

(** How often the code runs each release action, over every history.  The
    engine settles a job's promise at most once, its watchdog fires at most
    once, and it is cancelled at most once.  [clearTimeout] is called once
    per settlement and never otherwise; [processNextJob] is called on the
    job's behalf once per settlement and once per firing;
    [processing.delete] is called once per settlement, once per firing, and
    at most once more by a cancellation.  After any settlement or firing the
    watchdog is not armed and the id is not in the processing set. *)
Theorem release_bookkeeping (C : nat) (evs : list Event) (s : State) (id : string) :
  exec (newService C) evs = Some s →
  let settled := settlements id evs in
  let fired := firings id evs in
  let cancelled := occurrences (CleanupJob id) (log s) in
  ((settled ≤ 1 ∧ fired ≤ 1 ∧ cancelled ≤ 1)%nat) ∧
  occurrences (ClearTimeout id) (log s) = settled ∧
  occurrences (AdmissionAttempt (Some id)) (log s) = (settled + fired)%nat ∧
  ((settled + fired ≤ occurrences (ProcessingDelete id) (log s))%nat) ∧
  ((occurrences (ProcessingDelete id) (log s) ≤ settled + fired + cancelled)%nat) ∧
  ((1 ≤ settled + fired)%nat → (id ∉ timers s) ∧ (id ∉ processing s)).
Proof.
  intros Hex. destruct (bookkeeping_exec id C evs s Hex)
    as [B1 B2 B3 B4 B5 B6 B7 B8 B9 B10].
  simpl. split_and!; try done.
  intros Hge. by destruct (B9 Hge) as (_ & ? & ?).
Qed.

Lemma release_bookkeeping_witness :
  occurrences (ClearTimeout "a")
    (log (afterEvents 1 [submitA; Resolve "a" md0 9]))
  = settlements "a" [submitA; Resolve "a" md0 9].
Proof.
  refine (proj1 (proj2 (release_bookkeeping 1 [submitA; Resolve "a" md0 9]
            (afterEvents 1 [submitA; Resolve "a" md0 9]) "a" _))).
  vm_compute. reflexivity.
Defined.

(** C2 (violated by the code). No path carries a once-only gate, and
    [cancelJob] performs one of the three release actions only.  When the
    watchdog fires and the engine settles afterwards, [processing.delete]
    and [processNextJob] each run twice for the job.  When a processing job
    is cancelled while another waits, the slot is released but the watchdog
    is not disarmed and admission is not attempted: the waiting job stays in
    the queue beside a free slot, and the cancelled job's watchdog stays
    armed; the engine's later settlement then releases the slot a second
    time, and only then is the waiting job started. *)
Theorem release_actions_not_once_each :
  (let s := afterEvents 1 [submitA; TimerFires "a" 5; Resolve "a" md0 9] in
   occurrences (ProcessingDelete "a") (log s) = 2%nat ∧
   occurrences (AdmissionAttempt (Some "a")) (log s) = 2%nat ∧
   occurrences (ClearTimeout "a") (log s) = 1%nat) ∧
  (let s := afterEvents 1 [submitA; submitB; Cancel "a" 4] in
   occurrences (ProcessingDelete "a") (log s) = 1%nat ∧
   occurrences (ClearTimeout "a") (log s) = 0%nat ∧
   occurrences (AdmissionAttempt (Some "a")) (log s) = 0%nat ∧
   elements (timers s) = ["a"] ∧
   getProcessingCount s = 0%nat ∧ queue s = ["b"] ∧
   (status <$> jobs s !! "b") = Some Queued) ∧
  (let s := afterEvents 1 [submitA; submitB; Cancel "a" 4; Resolve "a" md0 9] in
   occurrences (ProcessingDelete "a") (log s) = 2%nat ∧
   occurrences (ClearTimeout "a") (log s) = 1%nat ∧
   occurrences (AdmissionAttempt (Some "a")) (log s) = 1%nat ∧
   elements (processing s) = ["b"] ∧ queue s = []).
Proof. vm_compute. done. Qed.

(** ** Terminal states are overwritten *)

(** C1 (violated by the code). The watchdog fires and marks the job
    failed at time 5; the engine succeeds at time 9; [processJob] then checks
    only for [Cancelled], so the job becomes [Completed], [completedAt] is
    overwritten with 9, and metadata is attached.  Likewise a cancelled job
    is turned into a failed one by a later engine failure or watchdog
    firing. *)
Theorem late_success_overwrites_timeout :
  let view (s : State) := (λ j, (status j, completedAt j)) <$> jobs s !! "a" in
  view (afterEvents 1 [submitA; TimerFires "a" 5]) = Some (Failed, Some 5) ∧
  view (afterEvents 1 [submitA; TimerFires "a" 5; Resolve "a" md0 9])
    = Some (Completed, Some 9) ∧
  view (afterEvents 1 [submitA; Cancel "a" 4]) = Some (Cancelled, Some 4) ∧
  view (afterEvents 1 [submitA; Cancel "a" 4; Reject "a" OtherValue 6])
    = Some (Failed, Some 6) ∧
  view (afterEvents 1 [submitA; Cancel "a" 4; TimerFires "a" 7])
    = Some (Failed, Some 7).
Proof. vm_compute. done. Qed.

(** C8 (violated by the code). After the watchdog fired and a late
    engine success, the job is [Completed] and still carries the timeout
    message in [error]; and an engine failure whose [Error] has an empty
    message leaves a failed job with an empty [error]. *)
Theorem completed_job_keeps_timeout_error :
  let view (s : State) := (λ j, (status j, error j)) <$> jobs s !! "a" in
  view (afterEvents 1 [submitA; TimerFires "a" 5; Resolve "a" md0 9])
    = Some (Completed, Some "Conversion timeout exceeded") ∧
  view (afterEvents 1 [submitA; Reject "a" (ErrorInstance EmptyString) 6])
    = Some (Failed, Some EmptyString).
Proof. vm_compute. done. Qed.

(** ** Progress *)

Lemma progress_onProgress p job :
  progress (onProgress p job)
    = if decide (progress job < p) then Z.min 100 p else progress job.
Proof. unfold onProgress. repeat case_decide; simpl; try done; lia. Qed.

Lemma status_onProgress p job : status (onProgress p job) = status job.
Proof. unfold onProgress. by case_decide. Qed.

Lemma onProgress_regressive p job : p ≤ progress job → onProgress p job = job.
Proof. unfold onProgress. intros Hle. case_decide; [lia|done]. Qed.

Lemma update_job_same id f s j :
  jobs s !! id = Some j → f j = j → update_job id f s = s.
Proof.
  intros Hj Hf. unfold update_job. rewrite alter_id; [by destruct s|].
  intros x Hx. by simplify_eq.
Qed.

Lemma observeProgress_trace id ps : ∀ s job,
  id ∈ started s → jobs s !! id = Some job →
  observeProgress id ps s = progressTrace ps (progress job).
Proof.
  induction ps as [|p ps IH]; simpl; intros s job Hin Hj; [done|].
  rewrite decide_True by done. unfold getJobStatus. simpl.
  rewrite lookup_alter_eq, Hj. simpl. rewrite progress_onProgress. f_equal.
  erewrite (IH (update_job id (onProgress p) s)); [|done|].
  - by rewrite progress_onProgress.
  - simpl. by rewrite lookup_alter_eq, Hj.
Qed.

Lemma progressTrace_length ps : ∀ cur, length (progressTrace ps cur) = length ps.
Proof. induction ps as [|p ps IH]; simpl; intros cur; [done|]. by rewrite IH. Qed.

Lemma progressTrace_range ps : ∀ cur,
  0 ≤ cur ≤ 100 → Forall (λ v, cur ≤ v ≤ 100) (progressTrace ps cur).
Proof.
  induction ps as [|p ps IH]; simpl; intros cur Hcur; [constructor|].
  constructor.
  - case_decide; lia.
  - eapply Forall_impl; [apply IH; case_decide; lia|].
    simpl. intros v. case_decide; lia.
Qed.

Lemma progressTrace_sorted ps : ∀ cur,
  0 ≤ cur ≤ 100 → StronglySorted Z.le (cur :: progressTrace ps cur).
Proof.
  induction ps as [|p ps IH]; simpl; intros cur Hcur.
  - repeat constructor.
  - constructor.
    + apply IH. case_decide; lia.
    + constructor; [case_decide; lia|].
      eapply Forall_impl; [apply progressTrace_range; case_decide; lia|].
      simpl. intros v. case_decide; lia.
Qed.

(** C5. Take a reachable state and a job that is processing, and deliver
    any sequence of callback values.  Every callback is accepted (none
    fails), the stored progress changes only when the reported value is
    strictly greater than the stored one and then becomes [min 100 percent],
    a value that is not greater leaves the state untouched, and the values
    read through [getJobStatus], the current one first, are non-decreasing
    and lie in [0, 100]. *)
Theorem progress_monotone_and_bounded s id job ps :
  reachable s →
  jobs s !! id = Some job →
  status job = Processing →
  let seen := observeProgress id ps s in
  length seen = length ps ∧
  StronglySorted Z.le (progress job :: seen) ∧
  Forall (λ v, 0 ≤ v ≤ 100) (progress job :: seen) ∧
  (∀ p, progress (onProgress p job)
          = if decide (progress job < p) then Z.min 100 p else progress job) ∧
  (∀ p, p ≤ progress job → step s (Progress id p) = Some s).
Proof.
  intros Hwf%reachable_wf Hj Hst seen. subst seen.
  pose proof (wf_active _ Hwf _ _ Hj Hst) as Hin.
  destruct (wf_progress _ Hwf _ _ Hj) as (Hrange & _).
  rewrite (observeProgress_trace id ps s job Hin Hj).
  split_and!.
  - apply progressTrace_length.
  - by apply progressTrace_sorted.
  - constructor; [done|].
    eapply Forall_impl; [by apply progressTrace_range|]. simpl. lia.
  - intros p. apply progress_onProgress.
  - intros p Hle. simpl. rewrite decide_True by done. f_equal.
    eapply update_job_same; [done|]. by apply onProgress_regressive.
Qed.

Lemma progress_monotone_and_bounded_witness :
  let s := afterEvents 1 [submitA; Progress "a" 30] in
  StronglySorted Z.le (30 :: observeProgress "a" [50; 20; 140; 70] s).
Proof.
  intros s.
  refine (proj1 (proj2 (progress_monotone_and_bounded s "a"
            (mkJob "a" "/up/a/input.mp4" "/up/a/clip.wav" "clip.mp4"
                   Processing 30 1 None None None)
            [50; 20; 140; 70] _ _ _))).
  - exists 1%nat, [submitA; Progress "a" 30]. vm_compute. reflexivity.
  - vm_compute. reflexivity.
  - reflexivity.
Defined.

(** ** Late progress callbacks *)

(** C10 (as amended). A callback delivered in any reachable state writes
    through to the record whatever the status: the closure never reads
    [status] (it commutes with any status write) and never changes it, and
    the stored value becomes [min 100 percent] exactly when [percent] exceeds
    it.  So for a job that is cancelled or failed (or in any other state)
    with stored progress below 100, a larger reported value strictly raises
    the stored progress.  A completed job has stored progress 100, which no
    callback changes. *)
Theorem late_progress_ignores_status s id job p s' :
  reachable s →
  jobs s !! id = Some job →
  step s (Progress id p) = Some s' →
  jobs s' !! id = Some (onProgress p job) ∧
  status (onProgress p job) = status job ∧
  (∀ st, onProgress p (set_status st job) = set_status st (onProgress p job)) ∧
  progress (onProgress p job)
    = (if decide (progress job < p) then Z.min 100 p else progress job) ∧
  (progress job < p → progress job < 100 →
     progress job < progress (onProgress p job)) ∧
  (status job = Completed → progress (onProgress p job) = progress job).
Proof.
  intros Hwf%reachable_wf Hj Hstep. simpl in Hstep.
  case_decide as Hin; [|done]. simplify_eq.
  destruct (wf_progress _ Hwf _ _ Hj) as (Hrange & _ & Hdone).
  split_and!.
  - simpl. by rewrite lookup_alter_eq, Hj.
  - apply status_onProgress.
  - intros st. unfold onProgress. simpl. by case_decide.
  - apply progress_onProgress.
  - intros Hlt Hroom. rewrite progress_onProgress, decide_True by done. lia.
  - intros Hc. specialize (Hdone Hc). rewrite progress_onProgress.
    case_decide; lia.
Qed.

Lemma late_progress_ignores_status_witness :
  let s := afterEvents 1 [submitA; Progress "a" 40; Cancel "a" 4] in
  let job := mkJob "a" "/up/a/input.mp4" "/up/a/clip.wav" "clip.mp4"
                   Cancelled 40 1 (Some 4) None None in
  progress job < progress (onProgress 70 job).
Proof.
  intros s job.
  refine (proj1 (proj2 (proj2 (proj2 (proj2
            (late_progress_ignores_status s "a" job 70
               (update_job "a" (onProgress 70) s) _ _ _))))) _ _).
  - exists 1%nat, [submitA; Progress "a" 40; Cancel "a" 4]. vm_compute. reflexivity.
  - vm_compute. reflexivity.
  - vm_compute. reflexivity.
  - simpl. lia.
  - simpl. lia.
Defined.

(** A job failed by the watchdog is raised from 40 to 70 by a late
    callback. *)
Example late_progress_after_timeout :
  progress <$> jobs (afterEvents 1
    [submitA; Progress "a" 40; TimerFires "a" 5; Progress "a" 70]) !! "a" = Some 70.
Proof. vm_compute. reflexivity. Qed.

(** C10 as stated fails for completed jobs: no reachable state holds a
    completed job whose stored progress a callback can raise.  For instance
    after [submitA; Resolve "a"] the job shows 100, and a callback reporting
    150 leaves it at 100. *)
Lemma completed_progress_never_increases :
  (progress <$> jobs (afterEvents 1 [submitA; Resolve "a" md0 9]) !! "a" = Some 100 ∧
   progress <$> jobs (afterEvents 1 [submitA; Resolve "a" md0 9; Progress "a" 150]) !! "a"
     = Some 100) ∧
  ¬ ∃ s id job p s' job',
      reachable s ∧ jobs s !! id = Some job ∧ status job = Completed ∧
      step s (Progress id p) = Some s' ∧ jobs s' !! id = Some job' ∧
      progress job < progress job'.
Proof.
  split; [by vm_compute|].
  intros (s & id & job & p & s' & job' & Hwf%reachable_wf & Hj & Hc & Hstep & Hj' & Hlt).
  simpl in Hstep. case_decide; [|done]. simplify_eq. simpl in Hj'.
  rewrite lookup_alter_eq, Hj in Hj'. simpl in Hj'. simplify_eq.
  destruct (wf_progress _ Hwf _ _ Hj) as (_ & _ & Hdone). specialize (Hdone Hc).
  rewrite progress_onProgress in Hlt. case_decide; lia.
Qed.

(** ** The age sweep *)

Example sweep_listing0 :
  let r := cleanupOldFiles 50 100 (inr (visitsOf store0 (λ _, None) listing0)) store0 in
  r.2 = inr 1%nat ∧
  dirs r.1 = <["b" := 50]> (<["c" := 100]> ∅) ∧
  cleanupTimers r.1 = <["c" := 9%nat]> ∅ ∧
  elements (pendingTimers r.1) = [9%nat].
Proof. vm_compute. done. Qed.











(** * Further properties of the scheduler *)

(** ** A step as a block followed by at most one admission *)

Lemma live_preState s e s' : wf s → step s e = Some s' → live (preState s e).
Proof.
  intros Hwf Hstep. pose proof (wf_live s Hwf) as Hlive. unfold live in *.
  destruct e as [id i o n now|id now|id p|id md now|id err now|id now]; simpl.
  - intros k. rewrite elem_of_app, list_elem_of_singleton, lookup_insert_is_Some.
    intros [Hk| ->]; [|by left]. destruct (decide (id = k)); [by left|].
    right. split; [done|]. by apply Hlive.
  - rewrite cancelJob_eq. destruct (jobs s !! id) as [j|] eqn:Hj; simpl; [|done].
    destruct (status j); simpl; try done; intros k Hk;
      rewrite lookup_alter_is_Some; apply Hlive; [|done].
    apply elem_of_remove_first in Hk as [? _]; [done|apply (wf_nodup _ Hwf)].
  - intros k. rewrite lookup_alter_is_Some. apply Hlive.
  - intros k. rewrite lookup_alter_is_Some. apply Hlive.
  - intros k. rewrite lookup_alter_is_Some. apply Hlive.
  - intros k. rewrite lookup_alter_is_Some. apply Hlive.
Qed.

Lemma step_full s e s' :
  wf s → step s e = Some s' →
  (s' = preState s e ∧
   (attempts e = true → hasCapacity (preState s e) → queue (preState s e) = [])) ∨
  (∃ h rest, attempts e = true ∧ queue (preState s e) = h :: rest ∧
             hasCapacity (preState s e) ∧
             s' = afterAdmission h rest (preState s e)).
Proof.
  intros Hwf Hstep. pose proof (live_preState s e s' Hwf Hstep) as Hlive.
  destruct e as [id i o n now|id now|id p|id md now|id err now|id now];
    simpl in Hstep.
  - case_decide; [done|]. simplify_eq. unfold queueJob. simpl.
    destruct (processNextJob_cases _ Hlive) as [[Heq Hq]|(h & rest & Hq & Hcap & Heq)].
    + left. split; [exact Heq|]. intros _. exact Hq.
    + right. exists h, rest. split_and!; done.
  - simplify_eq. left. split; [done|]. by intros ?.
  - case_decide; [|done]. simplify_eq. left. split; [done|]. by intros ?.
  - case_decide as Hin; [|done]. simplify_eq.
    destruct (wf_started _ Hwf id) as (j & Hj & _); [by apply (wf_awaiting _ Hwf)|].
    assert (processJob_resolved id md now s
            = processNextJob (preState s (Resolve id md now))) as ->.
    { rewrite (processJob_resolved_eq _ _ _ _ j Hj). unfold processJob_finally.
      simpl. do 3 f_equal. unfold update_job. simpl. f_equal.
      f_equal. apply alter_ext. intros x Hx. simplify_eq. unfold resolveWrite.
      by case_decide. }
    destruct (processNextJob_cases _ Hlive) as [[Heq Hq]|(h & rest & Hq & Hcap & Heq)].
    + left. split; [exact Heq|]. intros _. exact Hq.
    + right. exists h, rest. split_and!; done.
  - case_decide as Hin; [|done]. simplify_eq.
    assert (processJob_rejected id err now s
            = processNextJob (preState s (Reject id err now))) as ->.
    { by rewrite processJob_rejected_eq. }
    destruct (processNextJob_cases _ Hlive) as [[Heq Hq]|(h & rest & Hq & Hcap & Heq)].
    + left. split; [exact Heq|]. intros _. exact Hq.
    + right. exists h, rest. split_and!; done.
  - case_decide as Hin; [|done]. simplify_eq.
    assert (onTimeout id now s
            = processNextJob (preState s (TimerFires id now))) as ->.
    { by rewrite onTimeout_eq. }
    destruct (processNextJob_cases _ Hlive) as [[Heq Hq]|(h & rest & Hq & Hcap & Heq)].
    + left. split; [exact Heq|]. intros _. exact Hq.
    + right. exists h, rest. split_and!; done.
Qed.

Lemma wf_preState s e s' : wf s → step s e = Some s' → wf (preState s e).
Proof.
  intros Hwf Hstep.
  destruct e as [id i o n now|id now|id p|id md now|id err now|id now];
    simpl in Hstep.
  - case_decide as Hdom; [done|]. apply not_elem_of_dom in Hdom.
    simpl. apply wf_emit; [done|]. by apply wf_enqueue.
  - by eapply (wf_step s (Cancel id now)).
  - case_decide; [|done]. by eapply (wf_step s (Progress id p)); [|simpl; case_decide].
  - case_decide as Hin; [|done].
    destruct (wf_started _ Hwf id) as (j & Hj & Hst); [by apply (wf_awaiting _ Hwf)|].
    simpl. apply wf_emit; [done|]. apply wf_processing_delete, wf_clearTimeout.
    apply wf_update_job; [|apply wf_set_awaiting; [set_solver|done]].
    simpl. intros j' Hj'. simplify_eq. pose proof (wf_progress _ Hwf _ _ Hj) as Hp.
    unfold resolveWrite. case_decide; [done|]. unfold okProgress. simpl.
    split_and!; try done; lia.
  - case_decide as Hin; [|done].
    destruct (wf_started _ Hwf id) as (j & Hj & Hst); [by apply (wf_awaiting _ Hwf)|].
    simpl. apply wf_emit; [done|]. apply wf_processing_delete.
    apply wf_update_job; [|apply wf_clearTimeout, wf_set_awaiting; [set_solver|done]].
    simpl. intros j' Hj'. simplify_eq. pose proof (wf_progress _ Hwf _ _ Hj) as Hp.
    unfold okProgress in *. simpl. split_and!; try done; lia.
  - case_decide as Hin; [|done].
    destruct (wf_started _ Hwf id) as (j & Hj & Hst); [by apply (wf_timers _ Hwf)|].
    simpl. apply wf_emit; [done|]. apply wf_processing_delete.
    apply wf_update_job; [|apply wf_set_timers; [set_solver|done]].
    simpl. intros j' Hj'. simplify_eq. pose proof (wf_progress _ Hwf _ _ Hj) as Hp.
    unfold okProgress in *. simpl. split_and!; try done; lia.
Qed.

(** ** Consistency of records and sets *)

Lemma consistent_newService C : consistent (newService C).
Proof. intros k j Hj. simpl in Hj. by rewrite lookup_empty in Hj. Qed.

Lemma consistent_afterAdmission pre h rest :
  wf pre → consistent pre → queue pre = h :: rest →
  consistent (afterAdmission h rest pre).
Proof.
  intros Hwf Hc Hq k j'. simpl.
  assert (∃ j, jobs pre !! h = Some j ∧ status j = Queued) as (jh & Hjh & Hsh).
  { apply (wf_queue _ Hwf). rewrite Hq. by left. }
  assert (h ∉ started pre) as Hns.
  { intros (? & ? & ?)%(wf_started _ Hwf). by simplify_eq. }
  rewrite lookup_alter. case_decide as Hk.
  - subst k. rewrite Hjh. simpl. intros ?; simplify_eq. simpl.
    destruct (Hc h jh Hjh) as (Hid & _ & _ & _ & _ & _ & Hca & Hmd & _).
    unfold terminal in *. simpl. rewrite Hsh in *.
    split_and!; try done; set_solver.
  - intros Hj. destruct (Hc k j' Hj) as (? & ? & ? & ? & ? & ? & ? & ? & ?).
    split_and!; try done; set_solver.
Qed.

Ltac ok_finish :=
  unfold terminal in *; simpl in *;
  split_and!; try done; try set_solver;
  try (split; intros; try done; try congruence; try set_solver; by eauto);
  try (intros; split; try done; set_solver);
  try (intros; by eauto).

Lemma consistent_preState s e s' :
  wf s → consistent s → step s e = Some s' → consistent (preState s e).
Proof.
  intros Hwf Hc Hstep k j'.
  pose proof (wf_awaiting _ Hwf) as Hsub1. pose proof (wf_timers _ Hwf) as Hsub2.
  pose proof (wf_processing _ Hwf) as Hsub3.
  destruct e as [id i o n now|id now|id p|id md now|id err now|id now];
    simpl in Hstep.
  - (* queueJob *)
    case_decide as Hdom; [done|]. simpl. rewrite lookup_insert.
    case_decide as Hk; [subst k|apply Hc].
    intros ?; simplify_eq.
    assert (id ∉ started s) as Hns.
    { intros (? & ? & _)%(wf_started _ Hwf). apply Hdom, elem_of_dom. eauto. }
    unfold newJob. ok_finish.
  - (* cancelJob *)
    simpl. rewrite cancelJob_eq.
    destruct (jobs s !! id) as [j|] eqn:Hj; [|apply Hc].
    destruct (Hc id j Hj) as (Hid & Hta & Hpr & Hpt & Hsa & Hco & Hca & Hmd & Her).
    assert (¬ is_Some (metadata j) ∨ status j = Completed) as Hmd'.
    { destruct (decide (status j = Completed)); [by right|left]. by rewrite Hmd. }
    assert (status j = Queued → id ∉ started s) as Hns.
    { intros ? (? & ? & ?)%(wf_started _ Hwf). by simplify_eq. }
    destruct (status j) eqn:Hsj; simpl; try apply Hc;
      rewrite lookup_alter; (case_decide as Hk; [subst k|]);
      try (rewrite Hj; simpl; intros ?; simplify_eq);
      try (intros Hj'; destruct (Hc k j' Hj') as (? & ? & ? & ? & ? & ? & ? & ? & ?));
      try specialize (Hns eq_refl);
      destruct Hmd' as [Hmd'|?]; try done; ok_finish.
  - (* progress *)
    case_decide as Hin; [|done]. simpl. rewrite lookup_alter.
    case_decide as Hk; [subst k|apply Hc].
    destruct (jobs s !! id) as [j|] eqn:Hj; [|done]. simpl. intros ?; simplify_eq.
    destruct (Hc id j Hj) as (? & ? & ? & ? & ? & ? & ? & ? & ?).
    unfold onProgress, terminal in *. case_decide; simpl; split_and!; done.
  - (* engine success *)
    case_decide as Hin; [|done]. simpl. rewrite lookup_alter.
    case_decide as Hk; [subst k|].
    2:{ intros Hj'. destruct (Hc k j' Hj') as (? & ? & ? & ? & ? & ? & ? & ? & ?).
        split_and!; try done; set_solver. }
    destruct (jobs s !! id) as [j|] eqn:Hj; [|done]. simpl. intros ?; simplify_eq.
    destruct (Hc id j Hj) as (Hid & Hta & Hpr & Hpt & Hsa & Hco & Hca & Hmd & Her).
    pose proof (Hsub1 _ Hin) as Hst.
    unfold resolveWrite. case_decide as Hcan; [rewrite Hcan in *|]; ok_finish.
  - (* engine failure *)
    case_decide as Hin; [|done]. simpl. rewrite lookup_alter.
    case_decide as Hk; [subst k|].
    2:{ intros Hj'. destruct (Hc k j' Hj') as (? & ? & ? & ? & ? & ? & ? & ? & ?).
        split_and!; try done; set_solver. }
    destruct (jobs s !! id) as [j|] eqn:Hj; [|done]. simpl. intros ?; simplify_eq.
    destruct (Hc id j Hj) as (Hid & Hta & Hpr & Hpt & Hsa & Hco & Hca & Hmd & Her).
    pose proof (Hsub1 _ Hin) as Hst.
    assert (¬ is_Some (metadata j)) as Hnm.
    { rewrite Hmd. intros Hcomp. by destruct (Hco Hcomp) as [_ ?]. }
    ok_finish.
  - (* watchdog *)
    case_decide as Hin; [|done]. simpl. rewrite lookup_alter.
    case_decide as Hk; [subst k|].
    2:{ intros Hj'. destruct (Hc k j' Hj') as (? & ? & ? & ? & ? & ? & ? & ? & ?).
        split_and!; try done; set_solver. }
    destruct (jobs s !! id) as [j|] eqn:Hj; [|done]. simpl. intros ?; simplify_eq.
    destruct (Hc id j Hj) as (Hid & Hta & Hpr & Hpt & Hsa & Hco & Hca & Hmd & Her).
    pose proof (Hsub2 _ Hin) as Hst.
    assert (¬ is_Some (metadata j)) as Hnm.
    { rewrite Hmd. intros Hcomp. destruct (Hco Hcomp) as [_ Hna]. by apply Hna, Hta. }
    ok_finish.
Qed.

Lemma consistent_step s e s' :
  wf s → consistent s → step s e = Some s' → consistent s'.
Proof.
  intros Hwf Hc Hstep.
  pose proof (consistent_preState s e s' Hwf Hc Hstep) as Hpre.
  destruct (step_full s e s' Hwf Hstep) as [[-> _]|(h & rest & _ & Hq & _ & ->)];
    [done|].
  apply consistent_afterAdmission; [by eapply wf_preState|done..].
Qed.

Lemma consistent_exec evs : ∀ s s',
  wf s → consistent s → exec s evs = Some s' → consistent s'.
Proof.
  induction evs as [|e evs IH]; simpl; intros s s' Hwf Hc Hex.
  - by simplify_eq.
  - destruct (step s e) as [s1|] eqn:Hstep; [|done].
    eapply (IH s1); eauto using wf_step, consistent_step.
Qed.

Lemma reachable_consistent s : reachable s → consistent s.
Proof.
  intros (C & evs & Hex).
  eapply consistent_exec; [apply wf_newService|apply consistent_newService|done].
Qed.

(** ** How one step changes one record *)

Lemma sameIdentity_refl j : sameIdentity j j.
Proof. by repeat split. Qed.

Lemma sameIdentity_trans j1 j2 j3 :
  sameIdentity j1 j2 → sameIdentity j2 j3 → sameIdentity j1 j3.
Proof. unfold sameIdentity. intros (?&?&?&?&?) (?&?&?&?&?). split_and!; congruence. Qed.

(** The record of [k] in the state a block leaves. *)
Lemma preState_record s e s' k j :
  wf s → consistent s → step s e = Some s' → jobs s !! k = Some j →
  ∃ j', jobs (preState s e) !! k = Some j' ∧ sameIdentity j j' ∧
        (rank (status j) ≤ rank (status j'))%nat ∧ progress j ≤ progress j' ∧
        (status j' = Queued → status j = Queued) ∧
        (k ≠ subject e → j' = j).
Proof.
  intros Hwf Hc Hstep Hj.
  destruct (wf_progress _ Hwf _ _ Hj) as (Hrange & _ & Hdone).
  destruct (Hc k j Hj) as (_ & Hta & Hpr & Hpt & Hsa & Hco & Hca & Hmd & Her).
  assert (∀ f, (∀ x, sameIdentity x (f x)) →
            (rank (status j) ≤ rank (status (f j)))%nat → progress j ≤ progress (f j) →
            (status (f j) = Queued → status j = Queued) →
            ∀ id, ∃ j', alter f id (jobs s) !! k = Some j' ∧ sameIdentity j j' ∧
              (rank (status j) ≤ rank (status j'))%nat ∧ progress j ≤ progress j' ∧
              (status j' = Queued → status j = Queued) ∧ (k ≠ id → j' = j)) as Halter.
  { intros f Hf1 Hf2 Hf3 Hf4 id. rewrite lookup_alter. case_decide as Hk.
    - subst k. rewrite Hj. simpl. eexists. split_and!; try done.
    - exists j. by split_and!. }
  destruct e as [id i o n now|id now|id p|id md now|id err now|id now];
    simpl in Hstep; simpl.
  - case_decide as Hdom; [done|]. exists j.
    rewrite lookup_insert_ne.
    + by split_and!.
    + intros ->. apply Hdom, elem_of_dom. eauto.
  - rewrite cancelJob_eq. destruct (jobs s !! id) as [j0|] eqn:Hj0.
    2:{ exists j. by split_and!. }
    destruct (status j0) eqn:Hs0; simpl;
      try (by exists j; split_and!);
      (destruct (decide (k = id)) as [->|Hk];
       [simplify_eq; rewrite lookup_alter_eq, Hj; simpl; eexists;
        split_and!; try done; rewrite ?Hs0; simpl; try lia
       |rewrite lookup_alter_ne by done; by exists j; split_and!]).
  - case_decide as Hin; [|done]. apply Halter.
    + intros x. unfold onProgress. by case_decide.
    + by rewrite status_onProgress.
    + rewrite progress_onProgress. case_decide; lia.
    + by rewrite status_onProgress.
  - case_decide as Hin; [|done]. apply Halter.
    + intros x. unfold resolveWrite. by case_decide.
    + unfold resolveWrite. case_decide; simpl; [done|]. destruct (status j); simpl; lia.
    + unfold resolveWrite. case_decide; simpl; lia.
    + unfold resolveWrite. by case_decide.
  - case_decide as Hin; [|done].
    destruct (decide (k = id)) as [->|Hk].
    + rewrite lookup_alter_eq, Hj. simpl. eexists. split_and!; try done.
      destruct (status j) eqn:Hs; simpl; try lia.
      by destruct (Hco eq_refl) as [_ ?].
    + rewrite lookup_alter_ne by done. exists j. by split_and!.
  - case_decide as Hin; [|done].
    destruct (decide (k = id)) as [->|Hk].
    + rewrite lookup_alter_eq, Hj. simpl. eexists. split_and!; try done.
      destruct (status j) eqn:Hs; simpl; try lia.
      destruct (Hco eq_refl) as [_ Hna]. by destruct Hna; apply Hta.
    + rewrite lookup_alter_ne by done. exists j. by split_and!.
Qed.

Lemma step_record s e s' k j :
  wf s → consistent s → step s e = Some s' → jobs s !! k = Some j →
  ∃ j', jobs s' !! k = Some j' ∧ sameIdentity j j' ∧
        (rank (status j) ≤ rank (status j'))%nat ∧ progress j ≤ progress j'.
Proof.
  intros Hwf Hc Hstep Hj.
  destruct (preState_record s e s' k j Hwf Hc Hstep Hj)
    as (jp & Hjp & Hid & Hrk & Hpg & _ & _).
  pose proof (wf_preState s e s' Hwf Hstep) as Hwfp.
  destruct (step_full s e s' Hwf Hstep) as [[-> _]|(h & rest & _ & Hq & _ & ->)].
  - exists jp. by split_and!.
  - simpl. rewrite lookup_alter. case_decide as Hk.
    + subst k. rewrite Hjp. simpl. eexists. split; [done|].
      assert (∃ jh, jobs (preState s e) !! h = Some jh ∧ status jh = Queued)
        as (jh & Hjh & Hsh).
      { apply (wf_queue _ Hwfp). rewrite Hq. by left. }
      simplify_eq. destruct (wf_progress _ Hwfp _ _ Hjp) as (_ & Hzero & _).
      specialize (Hzero Hsh). rewrite Hsh in Hrk. simpl in *.
      split_and!; [done|lia|lia].
    + exists jp. by split_and!.
Qed.

Lemma exec_record evs : ∀ s s' k j,
  wf s → consistent s → exec s evs = Some s' → jobs s !! k = Some j →
  ∃ j', jobs s' !! k = Some j' ∧ sameIdentity j j' ∧
        (rank (status j) ≤ rank (status j'))%nat ∧ progress j ≤ progress j'.
Proof.
  induction evs as [|e evs IH]; simpl; intros s s' k j Hwf Hc Hex Hj.
  - simplify_eq. exists j. by split_and!.
  - destruct (step s e) as [s1|] eqn:Hstep; [|done].
    destruct (step_record s e s1 k j Hwf Hc Hstep Hj) as (j1 & Hj1 & Hid1 & Hrk1 & Hpg1).
    destruct (IH s1 s' k j1) as (j' & Hj' & Hid' & Hrk' & Hpg');
      eauto using wf_step, consistent_step.
    exists j'. split_and!; [done|by eapply sameIdentity_trans|lia|lia].
Qed.

(** X1. A record, once in the registry, is never removed, and the fields
    given at submission — [jobId], [inputPath], [outputPath],
    [originalFilename], [createdAt] — keep their values through every later
    history; the [jobId] field is the key under which the record is
    stored. *)
Theorem submission_fields_never_change s id j evs s' :
  reachable s →
  jobs s !! id = Some j →
  exec s evs = Some s' →
  jobId j = id ∧
  ∃ j', jobs s' !! id = Some j' ∧
        jobId j' = jobId j ∧ inputPath j' = inputPath j ∧
        outputPath j' = outputPath j ∧
        originalFilename j' = originalFilename j ∧ createdAt j' = createdAt j.
Proof.
  intros Hr Hj Hex.
  pose proof (reachable_wf _ Hr) as Hwf. pose proof (reachable_consistent _ Hr) as Hc.
  destruct (Hc id j Hj) as (Hid & _). split; [done|].
  destruct (exec_record evs s s' id j Hwf Hc Hex Hj) as (j' & Hj' & Hsame & _).
  exists j'. split; [done|]. exact Hsame.
Qed.

Lemma submission_fields_never_change_witness :
  let s := afterEvents 1 [submitA; submitB] in
  let s' := afterEvents 1 [submitA; submitB; Progress "a" 40; TimerFires "a" 5;
                           Resolve "a" md0 9; Cancel "b" 10; Reject "b" OtherValue 12] in
  ∃ j', jobs s' !! "b" = Some j' ∧
        jobId j' = "b" ∧ inputPath j' = "/up/b/input.mp4" ∧
        outputPath j' = "/up/b/talk.wav" ∧
        originalFilename j' = "talk.mp4" ∧ createdAt j' = 2.
Proof.
  intros s s'.
  refine (proj2 (submission_fields_never_change s "b"
            (newJob "b" "/up/b/input.mp4" "/up/b/talk.wav" "talk.mp4" 2)
            [Progress "a" 40; TimerFires "a" 5; Resolve "a" md0 9; Cancel "b" 10;
             Reject "b" OtherValue 12] s' _ _ _)).
  - exists 1%nat, [submitA; submitB]. vm_compute. reflexivity.
  - vm_compute. reflexivity.
  - vm_compute. reflexivity.
Defined.

(** X2. Over any history a job's status never moves backwards in the
    order queued, processing, cancelled, failed, completed: it never returns
    to queued or processing once it left, and nothing follows completed. *)
Theorem status_never_moves_back s id j evs s' :
  reachable s →
  jobs s !! id = Some j →
  exec s evs = Some s' →
  ∃ j', jobs s' !! id = Some j' ∧ (rank (status j) ≤ rank (status j'))%nat ∧
        (status j ≠ Queued → status j' ≠ Queued) ∧
        (status j ≠ Queued → status j ≠ Processing → status j' ≠ Processing) ∧
        (status j = Completed → status j' = Completed).
Proof.
  intros Hr Hj Hex.
  pose proof (reachable_wf _ Hr) as Hwf. pose proof (reachable_consistent _ Hr) as Hc.
  destruct (exec_record evs s s' id j Hwf Hc Hex Hj) as (j' & Hj' & _ & Hrk & _).
  exists j'. split; [done|]. split; [done|].
  destruct (status j), (status j'); simpl in Hrk; split_and!; try done; lia.
Qed.

Lemma status_never_moves_back_witness :
  let s := afterEvents 1 [submitA; Cancel "a" 4] in
  let s' := afterEvents 1 [submitA; Cancel "a" 4; TimerFires "a" 7] in
  ∃ j', jobs s' !! "a" = Some j' ∧
        (rank Cancelled ≤ rank (status j'))%nat ∧
        (Cancelled ≠ Queued → status j' ≠ Queued) ∧
        (Cancelled ≠ Queued → Cancelled ≠ Processing → status j' ≠ Processing) ∧
        (Cancelled = Completed → status j' = Completed).
Proof.
  intros s s'.
  refine (status_never_moves_back s "a"
            (mkJob "a" "/up/a/input.mp4" "/up/a/clip.wav" "clip.mp4"
                   Cancelled 0 1 (Some 4) None None)
            [TimerFires "a" 7] s' _ _ _).
  - exists 1%nat, [submitA; Cancel "a" 4]. vm_compute. reflexivity.
  - vm_compute. reflexivity.
  - vm_compute. reflexivity.
Defined.

(** X3. The stored progress of a job never decreases over its whole
    life, whatever happens to it: admission resets it to the 0 it already
    had, completion raises it to 100, and a callback only raises it. *)
Theorem progress_never_decreases s id j evs s' :
  reachable s →
  jobs s !! id = Some j →
  exec s evs = Some s' →
  ∃ j', jobs s' !! id = Some j' ∧ 0 ≤ progress j ≤ progress j' ∧ progress j' ≤ 100.
Proof.
  intros Hr Hj Hex.
  pose proof (reachable_wf _ Hr) as Hwf. pose proof (reachable_consistent _ Hr) as Hc.
  destruct (exec_record evs s s' id j Hwf Hc Hex Hj) as (j' & Hj' & _ & _ & Hpg).
  exists j'. split; [done|].
  destruct (wf_progress _ Hwf _ _ Hj) as (? & _).
  destruct (wf_progress _ (wf_exec _ _ _ Hwf Hex) _ _ Hj') as (? & _). lia.
Qed.

Lemma progress_never_decreases_witness :
  let s := afterEvents 1 [submitA; submitB; Progress "a" 40] in
  let s' := afterEvents 1 [submitA; submitB; Progress "a" 40; Cancel "a" 4;
                           Progress "a" 70; TimerFires "a" 8; Resolve "a" md0 9] in
  ∃ j', jobs s' !! "a" = Some j' ∧ 0 ≤ 40 ≤ progress j' ∧ progress j' ≤ 100.
Proof.
  intros s s'.
  refine (progress_never_decreases s "a"
            (mkJob "a" "/up/a/input.mp4" "/up/a/clip.wav" "clip.mp4"
                   Processing 40 1 None None None)
            [Cancel "a" 4; Progress "a" 70; TimerFires "a" 8; Resolve "a" md0 9] s' _ _ _).
  - exists 1%nat, [submitA; submitB; Progress "a" 40]. vm_compute. reflexivity.
  - vm_compute. reflexivity.
  - vm_compute. reflexivity.
Defined.

(** X4. In every reachable state the optional fields of a record follow
    its status: [completedAt] is set exactly when the status is completed,
    failed or cancelled; [metadata] is set exactly when the status is
    completed, which is also exactly when [getJobStatus] reports an output
    file; a failed job always has an [error]; a queued job shows progress 0
    and a completed one 100. *)
Theorem record_fields_follow_status s id j :
  reachable s →
  jobs s !! id = Some j →
  (is_Some (completedAt j) ↔ terminal j) ∧
  (is_Some (metadata j) ↔ status j = Completed) ∧
  (status j = Failed → is_Some (error j)) ∧
  (status j = Queued → progress j = 0) ∧
  (status j = Completed → progress j = 100) ∧
  ∃ view, getJobStatus id s = Some view ∧ cs_jobId view = id ∧
          (is_Some (cs_outputFile view) ↔ is_Some (metadata j)) ∧
          (∀ f, cs_outputFile view = Some f → f = outputPath j).
Proof.
  intros Hr Hj.
  pose proof (reachable_wf _ Hr) as Hwf. pose proof (reachable_consistent _ Hr) as Hc.
  destruct (Hc id j Hj) as (Hid & _ & _ & _ & _ & _ & Hca & Hmd & Her).
  destruct (wf_progress _ Hwf _ _ Hj) as (_ & Hq & Hd).
  split_and!; try done.
  unfold getJobStatus. rewrite Hj. eexists. split; [done|]. simpl.
  split; [done|]. rewrite Hmd. case_decide as Hs; split.
  - split; [done|]. by intros _.
  - by intros f [= <-].
  - split; [by intros [? ?]|done].
  - done.
Qed.

Lemma record_fields_follow_status_witness :
  let s := afterEvents 1 [submitA; Resolve "a" md0 9] in
  let j := mkJob "a" "/up/a/input.mp4" "/up/a/clip.wav" "clip.mp4"
                 Completed 100 1 (Some 9) None (Some md0) in
  is_Some (metadata j) ↔ status j = Completed.
Proof.
  intros s j.
  refine (proj1 (proj2 (record_fields_follow_status s "a" j _ _))).
  - exists 1%nat, [submitA; Resolve "a" md0 9]. vm_compute. reflexivity.
  - vm_compute. reflexivity.
Defined.

(** X5. The two counters agree with the statuses in the registry: in
    every reachable state [getQueueLength] is the number of records whose
    status is queued and [getProcessingCount] the number of records whose
    status is processing. *)
Theorem counters_match_statuses s :
  reachable s →
  getQueueLength s = size (filter (λ kv, status kv.2 = Queued) (jobs s)) ∧
  getProcessingCount s = size (filter (λ kv, status kv.2 = Processing) (jobs s)).
Proof.
  intros Hr.
  pose proof (reachable_wf _ Hr) as Hwf. pose proof (reachable_consistent _ Hr) as Hc.
  unfold getQueueLength, getProcessingCount. split.
  - rewrite <- size_dom.
    assert (dom (filter (λ kv, status kv.2 = Queued) (jobs s))
            = list_to_set (queue s)) as ->.
    { apply set_eq. intros k.
      rewrite elem_of_dom, elem_of_list_to_set, (wf_queue _ Hwf). split.
      - intros [j [Hj Hs]%map_lookup_filter_Some]. eauto.
      - intros (j & Hj & Hs). exists j. by apply map_lookup_filter_Some. }
    rewrite size_list_to_set; [done|apply (wf_nodup _ Hwf)].
  - rewrite <- size_dom. f_equal.
    apply set_eq. intros k. rewrite elem_of_dom. split.
    + intros Hk.
      destruct (wf_started _ Hwf k) as (j & Hj & _); [by apply (wf_processing _ Hwf)|].
      destruct (Hc k j Hj) as (_ & _ & Hpr & _).
      exists j. apply map_lookup_filter_Some. split; [done|]. by apply Hpr.
    + intros [j [Hj Hs]%map_lookup_filter_Some].
      destruct (Hc k j Hj) as (_ & _ & Hpr & _). by apply Hpr.
Qed.

Lemma counters_match_statuses_witness :
  getProcessingCount (afterEvents 2 [submitA; submitB; submitC; Cancel "a" 4])
  = size (filter (λ kv, status kv.2 = Processing)
            (jobs (afterEvents 2 [submitA; submitB; submitC; Cancel "a" 4]))).
Proof.
  refine (proj2 (counters_match_statuses
            (afterEvents 2 [submitA; submitB; submitC; Cancel "a" 4]) _)).
  exists 2%nat, [submitA; submitB; submitC; Cancel "a" 4]. vm_compute. reflexivity.
Defined.

(** ** Records that no longer change *)

Lemma set_progress_same j : progress j = 100 → set_progress 100 j = j.
Proof. destruct j. simpl. by intros ->. Qed.

(** A job whose engine promise has settled keeps its outcome. *)
Lemma settled_step s e s' k j :
  wf s → consistent s → step s e = Some s' →
  jobs s !! k = Some j → k ∈ started s → k ∉ awaiting s →
  ∃ j', jobs s' !! k = Some j' ∧ sameOutcome j j' ∧
        (status j = Completed → j' = j) ∧ k ∈ started s' ∧ k ∉ awaiting s'.
Proof.
  intros Hwf Hc Hstep Hj Hks Hka.
  destruct (settle_mark_step k s e s' Hwf Hstep) as [Hks' Hka']; [by right|].
  destruct (Hc k j Hj) as (_ & Hta & Hpr & Hpt & Hsa & _).
  pose proof (Hsa Hks Hka) as Hterm.
  destruct (wf_progress _ Hwf _ _ Hj) as (_ & _ & Hdone).
  pose proof (wf_preState s e s' Hwf Hstep) as Hwfp.
  destruct (preState_record s e s' k j Hwf Hc Hstep Hj)
    as (jp & Hjp & _ & _ & _ & Hback & Hsame).
  assert (jobs (preState s e) !! k = jobs s' !! k) as Hpre.
  { destruct (step_full s e s' Hwf Hstep) as [[-> _]|(h & rest & _ & Hq & _ & ->)];
      [done|].
    simpl. rewrite lookup_alter_ne; [done|]. intros ->.
    destruct (wf_started _ Hwf _ Hks) as (j0 & Hj0 & Hs0). simplify_eq.
    assert (∃ jh, jobs (preState s e) !! k = Some jh ∧ status jh = Queued)
      as (jh & Hjh & Hsh).
    { apply (wf_queue _ Hwfp). rewrite Hq. by left. }
    simplify_eq. by apply Hs0, Hback. }
  rewrite <- Hpre. clear Hpre.
  destruct (decide (k = subject e)) as [->|Hne].
  2:{ rewrite (Hsame Hne) in Hjp. exists j. by split_and!. }
  clear Hjp Hback Hsame.
  destruct e as [id i o n now|id now|id p|id md now|id err now|id now];
    simpl in Hstep, Hj, Hks, Hka |- *.
  - case_decide as Hdom; [done|]. destruct Hdom. apply elem_of_dom. eauto.
  - rewrite cancelJob_eq, Hj.
    destruct Hterm as [Hs|[Hs|Hs]]; rewrite Hs; exists j; by split_and!.
  - clear Hstep. rewrite lookup_alter_eq, Hj. simpl. eexists. split; [done|].
    unfold sameOutcome.
    split_and!; try done; try (unfold onProgress; case_decide; reflexivity).
    intros Hs. specialize (Hdone Hs). unfold onProgress. case_decide; [|done].
    replace (Z.min 100 p) with 100 by lia. by apply set_progress_same.
  - by case_decide.
  - by case_decide.
  - case_decide as Hin; [|done]. by destruct Hka; apply Hta.
Qed.

Lemma settled_exec evs : ∀ s s' k j,
  wf s → consistent s → exec s evs = Some s' →
  jobs s !! k = Some j → k ∈ started s → k ∉ awaiting s →
  ∃ j', jobs s' !! k = Some j' ∧ sameOutcome j j' ∧ (status j = Completed → j' = j).
Proof.
  induction evs as [|e evs IH]; simpl; intros s s' k j Hwf Hc Hex Hj Hks Hka.
  - simplify_eq. exists j. by split_and!.
  - destruct (step s e) as [s1|] eqn:Hstep; [|done].
    destruct (settled_step s e s1 k j Hwf Hc Hstep Hj Hks Hka)
      as (j1 & Hj1 & Hout1 & Hfix1 & Hks1 & Hka1).
    destruct (IH s1 s' k j1) as (j' & Hj' & Hout' & Hfix');
      eauto using wf_step, consistent_step.
    exists j'. split; [done|]. unfold sameOutcome in *. split.
    + destruct Hout1 as (?&?&?&?), Hout' as (?&?&?&?). split_and!; congruence.
    + intros Hs. rewrite <- (Hfix1 Hs). apply Hfix'. by rewrite (Hfix1 Hs).
Qed.

(** X6. Once the engine's promise for a job has settled (the job was
    handed to the engine and [processJob] is no longer awaiting it), no later
    event changes the job's [status], [error], [completedAt] or [metadata]:
    [cancelJob] refuses it, the watchdog was cleared, and only the progress
    field can still change. *)
Theorem settled_job_keeps_outcome s id j evs s' :
  reachable s →
  jobs s !! id = Some j →
  id ∈ started s → id ∉ awaiting s →
  exec s evs = Some s' →
  ∃ j', jobs s' !! id = Some j' ∧
        status j' = status j ∧ error j' = error j ∧
        completedAt j' = completedAt j ∧ metadata j' = metadata j.
Proof.
  intros Hr Hj Hks Hka Hex.
  pose proof (reachable_wf _ Hr) as Hwf. pose proof (reachable_consistent _ Hr) as Hc.
  destruct (settled_exec evs s s' id j Hwf Hc Hex Hj Hks Hka)
    as (j' & Hj' & (?&?&?&?) & Hfix).
  exists j'. by split_and!.
Qed.

Lemma settled_job_keeps_outcome_witness :
  let s := afterEvents 1 [submitA; submitB; Reject "a" (ErrorInstance "boom") 6] in
  let s' := afterEvents 1 [submitA; submitB; Reject "a" (ErrorInstance "boom") 6;
                           Cancel "a" 7; Progress "a" 55; Resolve "b" md0 9] in
  ∃ j', jobs s' !! "a" = Some j' ∧
        status j' = Failed ∧ error j' = Some "boom" ∧
        completedAt j' = Some 6 ∧ metadata j' = None.
Proof.
  intros s s'.
  refine (settled_job_keeps_outcome s "a"
            (mkJob "a" "/up/a/input.mp4" "/up/a/clip.wav" "clip.mp4"
                   Failed 0 1 (Some 6) (Some "boom") None)
            [Cancel "a" 7; Progress "a" 55; Resolve "b" md0 9] s' _ _ _ _ _).
  - exists 1%nat, [submitA; submitB; Reject "a" (ErrorInstance "boom") 6].
    vm_compute. reflexivity.
  - vm_compute. reflexivity.
  - apply (bool_decide_unpack _). vm_compute. exact I.
  - apply (bool_decide_unpack _). vm_compute. exact I.
  - vm_compute. reflexivity.
Defined.

(** X7. Completed is final: the record of a completed job is never
    written again.  No later cancel, progress callback, watchdog or engine
    event changes any of its fields. *)
Theorem completed_record_is_final s id j evs s' :
  reachable s →
  jobs s !! id = Some j →
  status j = Completed →
  exec s evs = Some s' →
  jobs s' !! id = Some j.
Proof.
  intros Hr Hj Hs Hex.
  pose proof (reachable_wf _ Hr) as Hwf. pose proof (reachable_consistent _ Hr) as Hc.
  destruct (Hc id j Hj) as (_ & _ & _ & _ & _ & Hco & _).
  destruct (Hco Hs) as [Hks Hka].
  destruct (settled_exec evs s s' id j Hwf Hc Hex Hj Hks Hka) as (j' & Hj' & _ & Hfix).
  by rewrite Hj', (Hfix Hs).
Qed.

Lemma completed_record_is_final_witness :
  let j := mkJob "a" "/up/a/input.mp4" "/up/a/clip.wav" "clip.mp4"
                 Completed 100 1 (Some 9) None (Some md0) in
  jobs (afterEvents 1 [submitA; submitB; Resolve "a" md0 9; Cancel "a" 10;
                       Progress "a" 150; Reject "b" OtherValue 12]) !! "a" = Some j.
Proof.
  intros j.
  refine (completed_record_is_final
            (afterEvents 1 [submitA; submitB; Resolve "a" md0 9]) "a" j
            [Cancel "a" 10; Progress "a" 150; Reject "b" OtherValue 12] _ _ _ _ _).
  - exists 1%nat, [submitA; submitB; Resolve "a" md0 9]. vm_compute. reflexivity.
  - vm_compute. reflexivity.
  - reflexivity.
  - vm_compute. reflexivity.
Defined.

(** X8. A job cancelled while it was still queued is left alone for good:
    after [cancelJob] returned [true] for a queued job, its record stays
    exactly the cancelled record through every later history. *)
Theorem cancelled_while_queued_is_final s id j now evs s' :
  reachable s →
  jobs s !! id = Some j →
  status j = Queued →
  exec (cancelJob id now s).2 evs = Some s' →
  (cancelJob id now s).1 = true ∧
  jobs s' !! id = Some (set_completedAt now (set_status Cancelled j)).
Proof.
  intros Hr Hj Hs Hex.
  pose proof (reachable_wf _ Hr) as Hwf. pose proof (reachable_consistent _ Hr) as Hc.
  assert (step s (Cancel id now) = Some (cancelJob id now s).2) as Hstep by done.
  pose proof (wf_step _ _ _ Hwf Hstep) as Hwf1.
  pose proof (consistent_step _ _ _ Hwf Hc Hstep) as Hc1.
  revert Hex Hstep Hwf1 Hc1. rewrite cancelJob_eq, Hj, Hs. simpl.
  set (s1 := emit _ _). intros Hex Hstep Hwf1 Hc1. split; [done|].
  assert (jobs s1 !! id = Some (set_completedAt now (set_status Cancelled j))) as Hj1.
  { unfold s1. simpl. by rewrite lookup_alter_eq, Hj. }
  assert (id ∉ queue s1) as Hq1.
  { unfold s1. simpl. rewrite elem_of_remove_first by apply (wf_nodup _ Hwf).
    by intros [_ ?]. }
  assert (id ∉ started s1) as Hn1.
  { unfold s1. simpl. intros (? & ? & ?)%(wf_started _ Hwf). by simplify_eq. }
  clear Hstep. revert Hj1 Hq1 Hn1 Hwf1 Hc1 Hex. generalize s1. clear s1.
  induction evs as [|e evs IH]; simpl; intros s1 Hj1 Hq1 Hn1 Hwf1 Hc1 Hex.
  - by simplify_eq.
  - destruct (step s1 e) as [s2|] eqn:Hstep; [|done].
    assert (id ∈ dom (jobs s1)) as Hdom by (apply elem_of_dom; eauto).
    destruct (left_queue_step s1 e s2 id Hwf1 Hstep Hdom Hq1) as [_ Hq2].
    pose proof (never_started_step s1 e s2 id Hwf1 Hstep Hdom Hq1 Hn1) as Hn2.
    apply (IH s2); eauto using wf_step, consistent_step.
    destruct (preState_record s1 e s2 id _ Hwf1 Hc1 Hstep Hj1)
      as (jp & Hjp & _ & _ & _ & _ & Hsame).
    assert (jobs s2 !! id = jobs (preState s1 e) !! id) as ->.
    { destruct (step_full s1 e s2 Hwf1 Hstep) as [[-> _]|(h & rest & _ & Hq & _ & ->)];
        [done|].
      simpl. rewrite lookup_alter_ne; [done|]. intros ->.
      apply Hn2. unfold afterAdmission, processJob. simpl. set_solver. }
    destruct (decide (id = subject e)) as [->|Hne]; [|by rewrite Hjp, Hsame].
    clear Hjp Hsame Hex IH.
    destruct e as [k ? ? ? ?|k ?|k ?|k ? ?|k ? ?|k ?]; simpl in *.
    + by case_decide.
    + by rewrite cancelJob_eq, Hj1.
    + by case_decide.
    + case_decide as Hin; [|done]. by apply (wf_awaiting _ Hwf1) in Hin.
    + case_decide as Hin; [|done]. by apply (wf_awaiting _ Hwf1) in Hin.
    + case_decide as Hin; [|done]. by apply (wf_timers _ Hwf1) in Hin.
Qed.

Lemma cancelled_while_queued_is_final_witness :
  let j := mkJob "b" "/up/b/input.mp4" "/up/b/talk.wav" "talk.mp4"
                 Queued 0 2 None None None in
  (cancelJob "b" 5 (afterEvents 1 [submitA; submitB])).1 = true ∧
  jobs (afterEvents 1 [submitA; submitB; Cancel "b" 5; Resolve "a" md0 9;
                       Cancel "b" 11; submitC]) !! "b"
  = Some (set_completedAt 5 (set_status Cancelled j)).
Proof.
  intros j.
  refine (cancelled_while_queued_is_final
            (afterEvents 1 [submitA; submitB]) "b" j 5
            [Resolve "a" md0 9; Cancel "b" 11; submitC] _ _ _ _ _).
  - exists 1%nat, [submitA; submitB]. vm_compute. reflexivity.
  - vm_compute. reflexivity.
  - reflexivity.
  - vm_compute. reflexivity.
Defined.

(** ** Handing jobs to the engine *)

Lemma occurrences_own_handoff s e x :
  (∃ h, x = ExtractAudio h) ∨ (∃ h, x = SetTimeout h) →
  occurrences x (ownEffects s e) = 0%nat.
Proof.
  intros Hx. unfold occurrences.
  assert (∀ l, Forall (λ y, y ≠ x) l → length (filter (λ y, y = x) l) = 0%nat) as Hz.
  { induction 1 as [|y l Hy _ IH]; [done|]. by rewrite filter_cons_False. }
  apply Hz.
  destruct e as [id i o n now|id now|id p|id md now|id err now|id now]; simpl;
    repeat case_match; rewrite ?Forall_cons, ?Forall_nil; naive_solver.
Qed.

Lemma handoff_step s e s' id :
  wf s → step s e = Some s' →
  occurrences (SetTimeout id) (log s) = occurrences (ExtractAudio id) (log s) →
  occurrences (ExtractAudio id) (log s) = ind (id ∈ started s) →
  occurrences (SetTimeout id) (log s') = occurrences (ExtractAudio id) (log s') ∧
  occurrences (ExtractAudio id) (log s') = ind (id ∈ started s').
Proof.
  intros Hwf Hstep Heq Hind.
  destruct (step_shape _ _ _ Hwf Hstep) as (adm & Hadm & Harr & Hst & _ & _ & Hlog & _).
  pose proof (started_not_taken s e s' adm id Hwf Hstep Harr) as Hnt.
  rewrite Hlog, Hst, !occurrences_app, !occurrences_own_handoff by eauto.
  rewrite Heq, Hind. unfold ind in *.
  destruct Hadm as [->|(h & -> & _)]; simpl.
  - split; [done|]. repeat case_decide; set_solver.
  - assert (occurrences (SetTimeout id) [ExtractAudio h; SetTimeout h] = ind (h = id) ∧
            occurrences (ExtractAudio id) [ExtractAudio h; SetTimeout h] = ind (h = id))
      as [-> ->].
    { unfold occurrences, ind. rewrite !filter_cons, !filter_nil.
      repeat case_decide; simplify_eq; done. }
    split; [done|]. unfold ind.
    assert (id ∈ started s → h ≠ id) as Hn.
    { intros Hin ->. apply (Hnt Hin), list_elem_of_singleton. done. }
    assert (id ∈ (list_to_set [h] ∪ started s : gset string) ↔ h = id ∨ id ∈ started s) as Hu
      by set_solver.
    repeat case_decide; naive_solver.
Qed.

Lemma handoff_exec C evs : ∀ s id,
  exec (newService C) evs = Some s →
  occurrences (SetTimeout id) (log s) = occurrences (ExtractAudio id) (log s) ∧
  occurrences (ExtractAudio id) (log s) = ind (id ∈ started s).
Proof.
  induction evs as [|e evs IH] using rev_ind; intros s id Hex.
  - simpl in Hex. simplify_eq. split; [done|]. unfold ind. simpl.
    rewrite decide_False; [done|]. apply not_elem_of_empty.
  - rewrite exec_snoc in Hex.
    destruct (exec (newService C) evs) as [s0|] eqn:Hex0; [|done]. simpl in Hex.
    destruct (IH s0 id eq_refl) as [Heq Hind].
    eapply handoff_step; eauto. eapply wf_exec; [apply wf_newService|done].
Qed.

(** X9. Each job is handed to the engine at most once, and its watchdog
    is armed exactly as often: never for a job that is still queued or was
    never submitted, exactly once for a job that is processing or has
    completed. *)
Theorem engine_started_at_most_once (C : nat) (evs : list Event) (s : State) (id : string) :
  exec (newService C) evs = Some s →
  let runs := occurrences (ExtractAudio id) (log s) in
  occurrences (SetTimeout id) (log s) = runs ∧
  (runs ≤ 1)%nat ∧
  (jobs s !! id = None → runs = 0%nat) ∧
  (∀ j, jobs s !! id = Some j →
     (status j = Queued → runs = 0%nat) ∧
     (status j = Processing ∨ status j = Completed → runs = 1%nat)).
Proof.
  intros Hex. destruct (handoff_exec C evs s id Hex) as [Heq Hind].
  assert (reachable s) as Hr by (by exists C, evs).
  pose proof (reachable_wf _ Hr) as Hwf. pose proof (reachable_consistent _ Hr) as Hc.
  simpl. rewrite Heq, Hind. unfold ind. split_and!; [done|destruct (decide (id ∈ started s)); lia|..].
  - intros Hnone. destruct (decide (id ∈ started s)) as [Hin|Hin]; [|done].
    apply (wf_started _ Hwf) in Hin as (j & Hj & _). congruence.
  - intros j Hj. split.
    + intros Hq. destruct (decide (id ∈ started s)) as [Hin|Hin]; [|done].
      apply (wf_started _ Hwf) in Hin as (j' & Hj' & Hnq). by simplify_eq.
    + intros Hs. destruct (decide (id ∈ started s)) as [Hin|Hin]; [done|].
      exfalso. apply Hin. destruct Hs as [Hs|Hs].
      * by apply (wf_active _ Hwf id j).
      * destruct (Hc id j Hj) as (_ & _ & _ & _ & _ & Hco & _). by apply Hco.
Qed.

Lemma engine_started_at_most_once_witness :
  let s := afterEvents 1 [submitA; submitB; TimerFires "a" 5; Resolve "a" md0 9] in
  let runs := occurrences (ExtractAudio "a") (log s) in
  occurrences (SetTimeout "a") (log s) = runs ∧
  (runs ≤ 1)%nat ∧
  (jobs s !! "a" = None → runs = 0%nat) ∧
  (∀ j, jobs s !! "a" = Some j →
     (status j = Queued → runs = 0%nat) ∧
     (status j = Processing ∨ status j = Completed → runs = 1%nat)).
Proof.
  intros s.
  refine (engine_started_at_most_once 1
            [submitA; submitB; TimerFires "a" 5; Resolve "a" md0 9] s "a" _).
  vm_compute. reflexivity.
Defined.

(** ** Order of admission over whole histories *)

Lemma pipeline_exec C evs : ∀ s,
  exec (newService C) evs = Some s →
  sublist (admissionOrder s ++ queue s) (submissionOrder evs).
Proof.
  induction evs as [|e evs IH] using rev_ind; intros s Hex.
  - simpl in Hex. simplify_eq. constructor.
  - rewrite exec_snoc in Hex.
    destruct (exec (newService C) evs) as [s0|] eqn:Hex0; [|done]. simpl in Hex.
    assert (wf s0) as Hwf by (eapply wf_exec; [apply wf_newService|done]).
    destruct (step_shape _ _ _ Hwf Hex) as (adm & Hadm & Harr & _ & _ & _ & Hlog & _).
    rewrite (admissionOrder_step s0 e s adm Hadm Hlog), <- (assoc_L (++)), <- Harr.
    rewrite submissionOrder_snoc.
    etrans; [apply sublist_app; [reflexivity|apply arrivals_sublist]|].
    rewrite (assoc_L (++)). apply sublist_app; [by apply IH|reflexivity].
Qed.

(** X10. The jobs handed to the engine so far, in the order they were
    handed over, followed by the jobs still waiting, in queue order, form a
    subsequence of the submissions in submission order.  So jobs start in
    the order they were submitted, every waiting job was submitted after
    every started one, and no job is started twice or is both started and
    waiting. *)
Theorem admissions_follow_submissions (C : nat) (evs : list Event) (s : State) :
  exec (newService C) evs = Some s →
  sublist (admissionOrder s ++ queue s) (submissionOrder evs) ∧
  NoDup (admissionOrder s ++ queue s) ∧
  (∀ a b, a ∈ admissionOrder s → b ∈ queue s → precedes a b (submissionOrder evs)).
Proof.
  intros Hex. pose proof (pipeline_exec C evs s Hex) as Hsub.
  destruct (queue_follows_submissions C evs s Hex) as (_ & Hnd & _).
  assert (NoDup (admissionOrder s ++ queue s)) as Hnd' by (by eapply sublist_NoDup).
  split_and!; [done|done|].
  intros a b Ha Hb.
  apply list_elem_of_split in Ha as (l1 & l2 & Ha).
  apply list_elem_of_split in Hb as (l3 & l4 & Hb).
  rewrite Ha, Hb, <- !(assoc_L (++)) in Hsub. simpl in Hsub.
  apply sublist_app_l in Hsub as (k1 & k2 & Hk & _ & Hsub).
  apply sublist_cons_l in Hsub as (k3 & k4 & -> & Hsub).
  rewrite (assoc_L (++)) in Hsub.
  apply sublist_app_l in Hsub as (k5 & k6 & -> & _ & Hsub).
  apply sublist_cons_l in Hsub as (k7 & k8 & -> & _).
  exists (k1 ++ k3), (k5 ++ k7), k8. rewrite Hk, <- !(assoc_L (++)). done.
Qed.

Lemma admissions_follow_submissions_witness :
  let evs := [submitA; submitB; submitC; Cancel "b" 4] in
  let s := afterEvents 1 evs in
  sublist (admissionOrder s ++ queue s) (submissionOrder evs) ∧
  NoDup (admissionOrder s ++ queue s) ∧
  (∀ a b, a ∈ admissionOrder s → b ∈ queue s → precedes a b (submissionOrder evs)).
Proof.
  intros evs s.
  refine (admissions_follow_submissions 1 evs s _).
  vm_compute. reflexivity.
Defined.

(** ** Requests to delete files *)

Lemma cleanup_own s e id :
  CleanupJob id ∈ ownEffects s e →
  ∃ now j, e = Cancel id now ∧ jobs s !! id = Some j ∧
           (status j = Queued ∨ status j = Processing).
Proof.
  destruct e as [k i o n now|k now|k p|k md now|k err now|k now]; simpl;
    rewrite ?elem_of_cons, ?elem_of_nil; try naive_solver.
  destruct (jobs s !! k) as [j|] eqn:Hj; simpl; [|by rewrite elem_of_nil].
  destruct (status j) eqn:Hs; rewrite ?elem_of_cons, ?elem_of_nil; naive_solver.
Qed.

Lemma cleanup_not_admission id adm : CleanupJob id ∉ admissionLog adm.
Proof.
  unfold admissionLog. rewrite list_elem_of_bind. intros (h & Hin & _).
  rewrite !elem_of_cons, elem_of_nil in Hin. naive_solver.
Qed.

Lemma cancelled_preState s e s' id jp :
  wf s → step s e = Some s' →
  jobs (preState s e) !! id = Some jp → status jp = Cancelled →
  (∃ j, jobs s !! id = Some j ∧ status j = Cancelled) ∨ CleanupJob id ∈ ownEffects s e.
Proof.
  intros Hwf Hstep Hjp Hs.
  destruct e as [k i o n now|k now|k p|k md now|k err now|k now]; simpl in *.
  - destruct (decide (k = id)) as [->|Hne].
    + rewrite lookup_insert_eq in Hjp. by simplify_eq.
    + rewrite lookup_insert_ne in Hjp by done. left. eauto.
  - revert Hjp. rewrite cancelJob_eq.
    destruct (jobs s !! k) as [j|] eqn:Hj; simpl; [|left; eauto].
    destruct (status j) eqn:Hsj; simpl; try (left; by eauto);
      (destruct (decide (k = id)) as [->|Hne];
       [intros _; right; rewrite ?elem_of_cons; by eauto
       |rewrite lookup_alter_ne by done; left; by eauto]).
  - destruct (decide (k = id)) as [->|Hne].
    + rewrite lookup_alter_eq in Hjp.
      destruct (jobs s !! id) as [j|] eqn:Hj; [|done]. simpl in Hjp. simplify_eq.
      left. exists j. split; [done|]. by rewrite status_onProgress in Hs.
    + rewrite lookup_alter_ne in Hjp by done. left. eauto.
  - destruct (decide (k = id)) as [->|Hne].
    + rewrite lookup_alter_eq in Hjp.
      destruct (jobs s !! id) as [j|] eqn:Hj; [|done]. simpl in Hjp. simplify_eq.
      left. exists j. split; [done|]. unfold resolveWrite in Hs. by case_decide.
    + rewrite lookup_alter_ne in Hjp by done. left. eauto.
  - destruct (decide (k = id)) as [->|Hne].
    + rewrite lookup_alter_eq in Hjp.
      destruct (jobs s !! id) as [j|] eqn:Hj; [|done]. simpl in Hjp. by simplify_eq.
    + rewrite lookup_alter_ne in Hjp by done. left. eauto.
  - destruct (decide (k = id)) as [->|Hne].
    + rewrite lookup_alter_eq in Hjp.
      destruct (jobs s !! id) as [j|] eqn:Hj; [|done]. simpl in Hjp. by simplify_eq.
    + rewrite lookup_alter_ne in Hjp by done. left. eauto.
Qed.

Lemma cancelled_step s e s' id j' :
  wf s → step s e = Some s' →
  jobs s' !! id = Some j' → status j' = Cancelled →
  (∃ j, jobs s !! id = Some j ∧ status j = Cancelled) ∨ CleanupJob id ∈ ownEffects s e.
Proof.
  intros Hwf Hstep Hj' Hs.
  destruct (step_full s e s' Hwf Hstep) as [[-> _]|(h & rest & _ & _ & _ & ->)].
  - by eapply cancelled_preState.
  - simpl in Hj'. destruct (decide (h = id)) as [->|Hne].
    + rewrite lookup_alter_eq in Hj'.
      destruct (jobs (preState s e) !! id); simpl in Hj'; by simplify_eq.
    + rewrite lookup_alter_ne in Hj' by done. by eapply cancelled_preState.
Qed.

Lemma cleanup_exec C evs : ∀ s id,
  exec (newService C) evs = Some s →
  (CleanupJob id ∈ log s → ∃ now, Cancel id now ∈ evs) ∧
  (∀ j, jobs s !! id = Some j → status j = Cancelled → CleanupJob id ∈ log s).
Proof.
  induction evs as [|e evs IH] using rev_ind; intros s id Hex.
  - simpl in Hex. simplify_eq. simpl. split; [by intros ?%elem_of_nil|].
    intros j Hj. by rewrite lookup_empty in Hj.
  - rewrite exec_snoc in Hex.
    destruct (exec (newService C) evs) as [s0|] eqn:Hex0; [|done]. simpl in Hex.
    assert (wf s0) as Hwf by (eapply wf_exec; [apply wf_newService|done]).
    destruct (IH s0 id eq_refl) as [IH1 IH2].
    destruct (step_shape _ _ _ Hwf Hex) as (adm & _ & _ & _ & _ & _ & Hlog & _).
    rewrite Hlog. split.
    + rewrite !elem_of_app. intros [Hin|[Hin|Hin]].
      * by apply cleanup_not_admission in Hin.
      * apply cleanup_own in Hin as (now & _ & -> & _). exists now.
        rewrite elem_of_app, list_elem_of_singleton. by right.
      * destruct (IH1 Hin) as [now Hnow]. exists now. rewrite elem_of_app. by left.
    + intros j' Hj' Hs. rewrite !elem_of_app.
      destruct (cancelled_step s0 e s id j' Hwf Hex Hj' Hs) as [(j & Hj & Hsj)|Hown].
      * right. right. by eapply IH2.
      * right. by left.
Qed.

(** X11. The service asks the file manager to delete a job's files only
    inside [cancelJob]: a cleanup request for a job in the log means a
    cancel call for that job occurred, so completing, failing or timing out
    never deletes files; and a job whose status is cancelled had its cleanup
    requested exactly once. *)
Theorem cleanup_requested_only_by_cancel (C : nat) (evs : list Event) (s : State)
    (id : string) :
  exec (newService C) evs = Some s →
  (CleanupJob id ∈ log s → ∃ now, Cancel id now ∈ evs) ∧
  (∀ j, jobs s !! id = Some j → status j = Cancelled →
        occurrences (CleanupJob id) (log s) = 1%nat).
Proof.
  intros Hex. destruct (cleanup_exec C evs s id Hex) as [H1 H2]. split; [done|].
  intros j Hj Hs. pose proof (bk_cancelled _ _ _ (bookkeeping_exec id C evs s Hex)) as Hle.
  specialize (H2 j Hj Hs). 
  enough (1 ≤ occurrences (CleanupJob id) (log s))%nat by lia.
  unfold occurrences. 
  assert (CleanupJob id ∈ filter (λ x, x = CleanupJob id) (log s)) as Hin
    by (by apply list_elem_of_filter).
  destruct (filter _ (log s)); [by apply elem_of_nil in Hin|simpl; lia].
Qed.

Lemma cleanup_requested_only_by_cancel_witness :
  let evs := [submitA; submitB; Cancel "a" 4; Resolve "a" md0 9; Reject "b" OtherValue 12] in
  let s := afterEvents 1 evs in
  (CleanupJob "a" ∈ log s → ∃ now, Cancel "a" now ∈ evs) ∧
  (∀ j, jobs s !! "a" = Some j → status j = Cancelled →
        occurrences (CleanupJob "a") (log s) = 1%nat).
Proof.
  intros evs s.
  refine (cleanup_requested_only_by_cancel 1 evs s "a" _).
  vm_compute. reflexivity.
Defined.

(** ** Waiting jobs and pending wake-ups *)

Lemma processing_sub_timers s : wf s → consistent s → processing s ⊆ timers s.
Proof.
  intros Hwf Hc k Hk.
  destruct (wf_started _ Hwf k (wf_processing _ Hwf k Hk)) as (j & Hj & _).
  destruct (Hc k j Hj) as (_ & _ & Hpr & Hpt & _). by apply Hpt, Hpr.
Qed.

Lemma size_remove_one (k : string) (X : gset string) : (size X ≤ S (size (X ∖ {[k]})))%nat.
Proof.
  pose proof (size_add_one k (X ∖ {[k]})) as Hle.
  assert (size X ≤ size ({[k]} ∪ X ∖ {[k]}))%nat; [|lia].
  apply subseteq_size. intros x Hx. destruct (decide (x = k)); set_solver.
Qed.

Lemma preState_fields s e :
  queue (preState s e) = arrivals s e ∧
  timers (preState s e) = timers s ∖ disarmedBy e ∧
  processing (preState s e) ⊆ processing s ∧
  maxConcurrentJobs (preState s e) = maxConcurrentJobs s.
Proof.
  destruct e as [k i o n now|k now|k p|k md now|k err now|k now]; simpl;
    rewrite ?cancelJob_eq; try (split_and!; try done; set_solver).
  destruct (jobs s !! k) as [j|]; simpl; [|split_and!; try done; set_solver].
  destruct (status j); simpl; split_and!; try done; set_solver.
Qed.

Lemma backlogged_step s e s' :
  wf s → consistent s → backlogged s → step s e = Some s' → backlogged s'.
Proof.
  intros Hwf Hc Hb Hstep Hq.
  pose proof (wf_preState _ _ _ Hwf Hstep) as Hwfp.
  destruct (preState_fields s e) as (Hqp & Htp & _ & Hmp).
  destruct (step_full s e s' Hwf Hstep) as [[-> Hemp]|(h & rest & Hatt & Hqh & Hcap & ->)].
  - destruct (attempts e) eqn:Hatt.
    + destruct (decide (hasCapacity (preState s e))) as [Hcap|Hfull];
        [by specialize (Hemp eq_refl Hcap)|].
      pose proof (wf_step _ _ _ Hwf Hstep) as Hwf'.
      pose proof (consistent_step _ _ _ Hwf Hc Hstep) as Hc'.
      pose proof (subseteq_size _ _ (processing_sub_timers _ Hwf' Hc')).
      unfold hasCapacity in Hfull. apply dec_stable in Hfull.
      by eapply sizeAtLeast_mono.
    + rewrite Hmp, Htp. assert (disarmedBy e = ∅) as -> by (by destruct e).
      rewrite difference_empty_L. apply Hb. intros Hnil. apply Hq. rewrite Hqp.
      destruct e; try done; simpl. rewrite Hnil. by repeat case_match.
  - unfold afterAdmission, processJob. simpl. rewrite Hmp, Htp.
    assert (h ∉ timers s ∖ disarmedBy e) as Hnt.
    { rewrite <- Htp. intros Hin%(wf_timers _ Hwfp)%(wf_started _ Hwfp).
      destruct Hin as (j & Hj & Hnq).
      assert (h ∈ queue (preState s e)) as Hhq by (rewrite Hqh; by left).
      apply (wf_queue _ Hwfp) in Hhq as (j' & Hj' & Hsq). by simplify_eq. }
    rewrite size_union by set_solver. rewrite size_singleton.
    assert (size (timers s) ≤ S (size (timers s ∖ disarmedBy e)))%nat as Hle.
    { destruct e; simpl; rewrite ?difference_empty_L; try lia; apply size_remove_one. }
    assert (queue s ≠ []) as Hqs.
    { intros Hnil. apply Hq. unfold afterAdmission, processJob. simpl.
      rewrite Hqp in Hqh. destruct e; simpl in Hqh; try done; try congruence.
      rewrite Hnil in Hqh. simpl in Hqh. by simplify_eq. }
    specialize (Hb Hqs). eapply sizeAtLeast_mono; [exact Hb|lia].
Qed.

Lemma backlogged_exec C evs s : exec (newService C) evs = Some s → backlogged s.
Proof.
  revert s. induction evs as [|e evs IH] using rev_ind; intros s Hex.
  - simpl in Hex. simplify_eq. intros Hq. by destruct Hq.
  - rewrite exec_snoc in Hex.
    destruct (exec (newService C) evs) as [s0|] eqn:Hex0; [|done]. simpl in Hex.
    assert (reachable s0) as Hr by (by exists C, evs).
    eapply backlogged_step; eauto using reachable_wf, reachable_consistent.
Qed.

(** X12. No queued job is stranded.  While jobs wait in the queue, at
    least as many watchdogs are armed as the concurrency limit allows jobs;
    and with a positive limit there is an armed watchdog whose firing admits
    the head of the queue in that very block: the head leaves the queue,
    enters the processing set and its record becomes processing. *)
Theorem backlog_has_pending_wakeup (C : nat) (evs : list Event) (s : State)
    (h : string) (rest : list string) :
  exec (newService C) evs = Some s →
  (0 < C)%nat →
  queue s = h :: rest →
  (C ≤ size (timers s))%nat ∧
  ∃ k, k ∈ timers s ∧
    ∀ now, ∃ s', step s (TimerFires k now) = Some s' ∧
      queue s' = rest ∧ h ∈ processing s' ∧
      (status <$> jobs s' !! h) = Some Processing.
Proof.
  intros Hex HC Hq.
  assert (reachable s) as Hr by (by exists C, evs).
  pose proof (reachable_wf _ Hr) as Hwf. pose proof (reachable_consistent _ Hr) as Hc.
  destruct (withinBound_exec _ _ _ (withinBound_newService C) Hex) as [Hb Hmax].
  change (maxConcurrentJobs (newService C)) with (ofCount C) in Hmax.
  unfold withinBound in Hb. rewrite Hmax, slots_ofCount in Hb.
  pose proof (backlogged_exec C evs s Hex) as Hbl. unfold backlogged in Hbl.
  rewrite Hq, Hmax, sizeAtLeast_ofCount in Hbl.
  specialize (Hbl ltac:(done)). split; [done|].
  pose proof (processing_sub_timers s Hwf Hc) as Hsub.
  pose proof (hasCapacity_ofCount s C Hmax) as Hcap_iff.
  assert (∃ k, k ∈ timers s ∧ (size (processing s ∖ {[k]}) < C)%nat) as (k & Hk & Hroom).
  { destruct (decide (hasCapacity s)) as [Hcap|Hfull].
    - destruct (size_pos_elem_of (timers s)) as [k Hk]; [lia|]. exists k. split; [done|].
      apply Hcap_iff in Hcap.
      assert (size (processing s ∖ {[k]}) ≤ size (processing s))%nat; [|lia].
      apply subseteq_size. set_solver.
    - rewrite Hcap_iff in Hfull.
      destruct (size_pos_elem_of (processing s)) as [k Hk]; [lia|]. exists k.
      split; [by apply Hsub|]. rewrite size_difference by set_solver.
      rewrite size_singleton. lia. }
  exists k. split; [done|]. intros now.
  assert (step s (TimerFires k now) = Some (onTimeout k now s)) as Hstep.
  { simpl. by rewrite decide_True. }
  exists (onTimeout k now s). split; [done|].
  destruct (preState_fields s (TimerFires k now)) as (Hqp & _ & _ & Hmp).
  destruct (step_full _ _ _ Hwf Hstep) as [[Heq Hemp]|(h' & rest' & _ & Hqh & _ & ->)].
  - exfalso. assert (hasCapacity (preState s (TimerFires k now))) as Hcap.
    { apply (hasCapacity_ofCount _ C); [by rewrite Hmp|]. simpl. done. }
    specialize (Hemp eq_refl Hcap). rewrite Hqp in Hemp. simpl in Hemp. congruence.
  - rewrite Hqp in Hqh. simpl in Hqh. rewrite Hq in Hqh. simplify_eq.
    unfold afterAdmission, processJob. simpl. split_and!; [done|set_solver|].
    rewrite lookup_alter_eq.
    assert (h' ∈ queue s) as Hin by (rewrite Hq; by left).
    apply (wf_queue _ Hwf) in Hin as (j & Hj & _).
    destruct (decide (h' = k)) as [->|Hne].
    + rewrite lookup_alter_eq, Hj. done.
    + rewrite lookup_alter_ne by done. rewrite Hj. done.
Qed.

Lemma backlog_has_pending_wakeup_witness :
  let s := afterEvents 2 [submitA; submitB; submitC; Cancel "a" 4; Cancel "b" 5] in
  (2 ≤ size (timers s))%nat ∧
  ∃ k, k ∈ timers s ∧
    ∀ now, ∃ s', step s (TimerFires k now) = Some s' ∧
      queue s' = [] ∧ "c" ∈ processing s' ∧
      (status <$> jobs s' !! "c") = Some Processing.
Proof.
  intros s.
  refine (backlog_has_pending_wakeup 2
            [submitA; submitB; submitC; Cancel "a" 4; Cancel "b" 5] s "c" [] _ _ _).
  - vm_compute. reflexivity.
  - lia.
  - vm_compute. reflexivity.
Defined.

(** ** Submissions *)

(** X13. What a submission does, in a reachable state and for a fresh id.
    [queueJob] returns the id.  Without room the new job is appended to the
    queue and nothing else changes.  With room and nobody waiting it is
    started at once.  With room and a waiting job, the head of the queue is
    started and the new job waits at the tail: a submission never overtakes. *)
Theorem queueJob_outcome (C : nat) (evs : list Event) (s : State)
    (id i o n : string) (now : Z) :
  exec (newService C) evs = Some s →
  id ∉ dom (jobs s) →
  let r := queueJob id i o n now s in
  r.1 = id ∧
  (¬ hasCapacity s →
     queue r.2 = queue s ++ [id] ∧ processing r.2 = processing s ∧
     jobs r.2 = <[id := newJob id i o n now]> (jobs s) ∧
     log r.2 = AdmissionAttempt None :: log s) ∧
  (hasCapacity s → queue s = [] →
     queue r.2 = [] ∧ processing r.2 = {[id]} ∪ processing s ∧
     jobs r.2 !! id = Some (set_status Processing (newJob id i o n now)) ∧
     log r.2 = ExtractAudio id :: SetTimeout id :: AdmissionAttempt None :: log s) ∧
  (hasCapacity s → ∀ h rest, queue s = h :: rest →
     queue r.2 = rest ++ [id] ∧ processing r.2 = {[h]} ∪ processing s ∧
     jobs r.2 !! id = Some (newJob id i o n now) ∧
     log r.2 = ExtractAudio h :: SetTimeout h :: AdmissionAttempt None :: log s).
Proof.
  intros Hex Hfresh r.
  assert (reachable s) as Hr by (by exists C, evs).
  pose proof (reachable_wf _ Hr) as Hwf.
  assert (step s (Submit id i o n now) = Some r.2) as Hstep.
  { simpl. by rewrite decide_False. }
  split; [done|].
  set (e := Submit id i o n now) in *.
  assert (hasCapacity (preState s e) ↔ hasCapacity s) as Hcap by done.
  destruct (step_full s e r.2 Hwf Hstep) as [[Heq Hemp]|(h & rest & _ & Hqh & Hc' & Heq)];
    rewrite Heq; clear Heq.
  - split_and!.
    + done.
    + intros Hc Hq. apply Hcap in Hc. specialize (Hemp eq_refl Hc). simpl in Hemp.
      by destruct (queue s).
    + intros Hc h rest Hq. apply Hcap in Hc. specialize (Hemp eq_refl Hc). simpl in Hemp.
      by destruct (queue s).
  - apply Hcap in Hc'. simpl in Hqh. split_and!; [done|..].
    + intros _ Hq. rewrite Hq in Hqh. simpl in Hqh. simplify_eq.
      unfold afterAdmission, processJob. simpl. split_and!; try done.
      by rewrite lookup_alter_eq, lookup_insert_eq.
    + intros _ h' rest' Hq. rewrite Hq in Hqh. simpl in Hqh. simplify_eq.
      unfold afterAdmission, processJob. simpl. split_and!; try done.
      rewrite lookup_alter_ne, lookup_insert_eq; [done|].
      intros ->. apply Hfresh, elem_of_dom. apply (wf_live s Hwf). rewrite Hq. by left.
Qed.

Lemma queueJob_outcome_witness :
  let s := afterEvents 2 [submitA; submitB; Cancel "a" 4] in
  let id := "c" in
  let job := newJob id "/up/c/input.mp4" "/up/c/song.wav" "song.mp4" 3 in
  let r := queueJob id "/up/c/input.mp4" "/up/c/song.wav" "song.mp4" 3 s in
  r.1 = id ∧
  (¬ hasCapacity s →
     queue r.2 = queue s ++ [id] ∧ processing r.2 = processing s ∧
     jobs r.2 = <[id := job]> (jobs s) ∧
     log r.2 = AdmissionAttempt None :: log s) ∧
  (hasCapacity s → queue s = [] →
     queue r.2 = [] ∧ processing r.2 = {[id]} ∪ processing s ∧
     jobs r.2 !! id = Some (set_status Processing job) ∧
     log r.2 = ExtractAudio id :: SetTimeout id :: AdmissionAttempt None :: log s) ∧
  (hasCapacity s → ∀ h rest, queue s = h :: rest →
     queue r.2 = rest ++ [id] ∧ processing r.2 = {[h]} ∪ processing s ∧
     jobs r.2 !! id = Some job ∧
     log r.2 = ExtractAudio h :: SetTimeout h :: AdmissionAttempt None :: log s).
Proof.
  intros s id job r.
  refine (queueJob_outcome 2 [submitA; submitB; Cancel "a" 4] s
            "c" "/up/c/input.mp4" "/up/c/song.wav" "song.mp4" 3 _ _).
  - vm_compute. reflexivity.
  - apply (bool_decide_unpack _). vm_compute. exact I.
Defined.

(** ** The registry and status reports *)

Lemma registry_exec C evs : ∀ s id j,
  exec (newService C) evs = Some s →
  jobs s !! id = Some j →
  Submit id (inputPath j) (outputPath j) (originalFilename j) (createdAt j) ∈ evs.
Proof.
  induction evs as [|e evs IH] using rev_ind; intros s id j Hex Hj.
  - simpl in Hex. by simplify_eq.
  - rewrite exec_snoc in Hex.
    destruct (exec (newService C) evs) as [s0|] eqn:Hex0; [|done]. simpl in Hex.
    assert (reachable s0) as Hr by (by exists C, evs).
    pose proof (reachable_wf _ Hr) as Hwf. pose proof (reachable_consistent _ Hr) as Hc.
    rewrite elem_of_app, list_elem_of_singleton.
    destruct (jobs s0 !! id) as [j0|] eqn:Hj0.
    + left. destruct (step_record s0 e s id j0 Hwf Hc Hex Hj0)
        as (j' & Hj' & (_ & Hi & Ho & Hn & Hc') & _).
      simplify_eq. rewrite Hi, Ho, Hn, Hc'. by eapply IH.
    + right.
      assert (∃ jp, jobs (preState s0 e) !! id = Some jp ∧ sameIdentity jp j) as (jp & Hjp & Hsame).
      { destruct (step_full s0 e s Hwf Hex) as [[-> _]|(h & rest & _ & _ & _ & ->)].
        - exists j. split; [done|apply sameIdentity_refl].
        - simpl in Hj. destruct (decide (h = id)) as [->|Hne].
          + rewrite lookup_alter_eq in Hj.
            destruct (jobs (preState s0 e) !! id) as [jp|]; [|done].
            simpl in Hj. simplify_eq. exists jp. split; [done|]. by split_and!.
          + rewrite lookup_alter_ne in Hj by done. exists j.
            split; [done|apply sameIdentity_refl]. }
      destruct Hsame as (_ & Hi & Ho & Hn & Hc').
      rewrite Hi, Ho, Hn, Hc'. clear Hj Hi Ho Hn Hc' Hex.
      destruct e as [k i o n now|k now|k p|k md now|k err now|k now]; simpl in Hjp.
      * destruct (decide (k = id)) as [->|Hne].
        -- rewrite lookup_insert_eq in Hjp. by simplify_eq.
        -- rewrite lookup_insert_ne in Hjp by done. congruence.
      * revert Hjp. rewrite cancelJob_eq.
        destruct (jobs s0 !! k) as [jk|] eqn:Hjk; simpl; [|congruence].
        destruct (decide (k = id)) as [->|Hne]; [congruence|].
        destruct (status jk); simpl; rewrite ?lookup_alter_ne by done; congruence.
      * rewrite lookup_alter in Hjp.
        destruct (decide (k = id)) as [->|?]; [by rewrite Hj0 in Hjp|congruence].
      * rewrite lookup_alter in Hjp.
        destruct (decide (k = id)) as [->|?]; [by rewrite Hj0 in Hjp|congruence].
      * rewrite lookup_alter in Hjp.
        destruct (decide (k = id)) as [->|?]; [by rewrite Hj0 in Hjp|congruence].
      * rewrite lookup_alter in Hjp.
        destruct (decide (k = id)) as [->|?]; [by rewrite Hj0 in Hjp|congruence].
Qed.

Lemma getStatusMessage_nonempty j : getStatusMessage j ≠ EmptyString.
Proof.
  unfold getStatusMessage. destruct (status j); try done.
  destruct (error j) as [e|]; [|done]. by case_decide.
Qed.

(** X14. The registry holds exactly the jobs that were submitted, each
    with the paths, file name and creation time given at submission; no
    record is ever removed.  So [getJobStatus] returns [null] exactly for
    ids that were never submitted, and otherwise a view with that id, a
    non-empty message, and as output file, when one is reported, the output
    path given at submission. *)
Theorem status_report_for_submitted_jobs (C : nat) (evs : list Event) (s : State)
    (id : string) :
  exec (newService C) evs = Some s →
  (getJobStatus id s = None ↔ id ∉ submissionOrder evs) ∧
  (∀ j, jobs s !! id = Some j →
     Submit id (inputPath j) (outputPath j) (originalFilename j) (createdAt j) ∈ evs) ∧
  (∀ view, getJobStatus id s = Some view →
     cs_jobId view = id ∧ cs_message view ≠ EmptyString ∧
     ∀ f, cs_outputFile view = Some f →
       cs_status view = Completed ∧ ∃ i n now, Submit id i f n now ∈ evs).
Proof.
  intros Hex.
  assert (reachable s) as Hr by (by exists C, evs).
  pose proof (reachable_consistent _ Hr) as Hc.
  destruct (queue_follows_submissions C evs s Hex) as (_ & _ & Hdom).
  split_and!.
  - unfold getJobStatus. split.
    + destruct (jobs s !! id) as [j|] eqn:Hj; [done|]. intros _ Hin.
      apply Hdom, elem_of_dom in Hin as [j' Hj']. congruence.
    + intros Hnin. destruct (jobs s !! id) as [j|] eqn:Hj; [|done]. exfalso.
      apply Hnin. unfold submissionOrder. apply list_elem_of_omap.
      eexists. split; [by eapply registry_exec|done].
  - intros j Hj. by eapply registry_exec.
  - intros view. unfold getJobStatus.
    destruct (jobs s !! id) as [j|] eqn:Hj; [|done]. intros [= <-]. simpl.
    destruct (Hc id j Hj) as (Hid & _). split_and!; [done|apply getStatusMessage_nonempty|].
    intros f. case_decide as Hs; [|done]. intros [= <-]. split; [done|].
    eexists _, _, _. by eapply registry_exec.
Qed.

Lemma status_report_for_submitted_jobs_witness :
  let evs := [submitA; submitB; Resolve "a" md0 9] in
  let s := afterEvents 1 evs in
  (getJobStatus "a" s = None ↔ "a" ∉ submissionOrder evs) ∧
  (∀ j, jobs s !! "a" = Some j →
     Submit "a" (inputPath j) (outputPath j) (originalFilename j) (createdAt j) ∈ evs) ∧
  (∀ view, getJobStatus "a" s = Some view →
     cs_jobId view = "a" ∧ cs_message view ≠ EmptyString ∧
     ∀ f, cs_outputFile view = Some f →
       cs_status view = Completed ∧ ∃ i n now, Submit "a" i f n now ∈ evs).
Proof.
  intros evs s.
  refine (status_report_for_submitted_jobs 1 evs s "a" _).
  vm_compute. reflexivity.
Defined.

(** ** The queue and the registry *)

(** X15. In every reachable state the queue holds exactly the jobs whose
    status is queued, each once, and the processing set exactly the jobs
    whose status is processing; no job is in both.  So the branch of
    [processNextJob] for a queued id without a record is never taken: an
    admission attempt either changes nothing (no room, or nobody waiting) or
    starts the head of the queue. *)
Theorem queue_holds_exactly_queued_jobs (s : State) :
  reachable s →
  NoDup (queue s) ∧
  (∀ id, id ∈ queue s ↔ ∃ j, jobs s !! id = Some j ∧ status j = Queued) ∧
  (∀ id, id ∈ processing s ↔ ∃ j, jobs s !! id = Some j ∧ status j = Processing) ∧
  (∀ id, id ∈ queue s → id ∉ processing s) ∧
  ((processNextJob s = s ∧ (hasCapacity s → queue s = [])) ∨
   (∃ id rest, queue s = id :: rest ∧ hasCapacity s ∧
               processNextJob s = afterAdmission id rest s)).
Proof.
  intros Hr. pose proof (reachable_wf _ Hr) as Hwf.
  pose proof (reachable_consistent _ Hr) as Hc.
  assert (∀ id, id ∈ processing s ↔ ∃ j, jobs s !! id = Some j ∧ status j = Processing)
    as Hproc.
  { intros id. split.
    - intros Hin.
      destruct (wf_started _ Hwf id (wf_processing _ Hwf id Hin)) as (j & Hj & _).
      destruct (Hc id j Hj) as (_ & _ & Hpr & _). exists j. split; [done|]. by apply Hpr.
    - intros (j & Hj & Hs). destruct (Hc id j Hj) as (_ & _ & Hpr & _). by apply Hpr. }
  split_and!.
  - apply (wf_nodup _ Hwf).
  - apply (wf_queue _ Hwf).
  - done.
  - intros id (j & Hj & Hs)%(wf_queue _ Hwf) (j' & Hj' & Hs')%Hproc.
    simplify_eq. congruence.
  - apply processNextJob_cases, (wf_live _ Hwf).
Qed.

Lemma queue_holds_exactly_queued_jobs_witness :
  let s := afterEvents 1 [submitA; submitB; submitC; Cancel "b" 4] in
  NoDup (queue s) ∧
  (∀ id, id ∈ queue s ↔ ∃ j, jobs s !! id = Some j ∧ status j = Queued) ∧
  (∀ id, id ∈ processing s ↔ ∃ j, jobs s !! id = Some j ∧ status j = Processing) ∧
  (∀ id, id ∈ queue s → id ∉ processing s) ∧
  ((processNextJob s = s ∧ (hasCapacity s → queue s = [])) ∨
   (∃ id rest, queue s = id :: rest ∧ hasCapacity s ∧
               processNextJob s = afterAdmission id rest s)).
Proof.
  intros s.
  refine (queue_holds_exactly_queued_jobs s _).
  exists 1%nat, [submitA; submitB; submitC; Cancel "b" 4]. vm_compute. reflexivity.
Defined.

(** * Further properties: the transcoding engine *)

Lemma append_nonempty (a b : string) : a ≠ EmptyString → a +:+ b ≠ EmptyString.
Proof. by destruct a. Qed.

Lemma orNumber_nonzero v d : d ≠ 0 → orNumber v d ≠ 0.
Proof. unfold orNumber. intros Hd. destruct v; [|done]. by case_decide. Qed.

Lemma orString_nonempty v d : d ≠ EmptyString → orString v d ≠ EmptyString.
Proof. unfold orString. intros Hd. destruct v; [|done]. by case_decide. Qed.

Lemma detectBitDepth_cases f :
  detectBitDepth f = 16 ∨ detectBitDepth f = 24 ∨ detectBitDepth f = 32.
Proof.
  unfold detectBitDepth. destruct f as [f|]; [|by left].
  case_decide; [by left|]. repeat case_match; auto.
Qed.

Lemma getAudioInfo_resolved parseInt probe md :
  getAudioInfo parseInt probe = inr md →
  sampleRate md ≠ 0 ∧ channels md ≠ 0 ∧ codec md ≠ EmptyString ∧
  (bitDepth md = 16 ∨ bitDepth md = 24 ∨ bitDepth md = 32) ∧
  ∃ data, probe = ProbeOk data ∧ is_Some (findStream "audio" data).
Proof.
  unfold getAudioInfo. destruct probe as [m|data]; [done|].
  destruct (findStream "audio" data) as [a|] eqn:Ha; [|done].
  intros [= <-]. simpl. split_and!.
  - by apply orNumber_nonzero.
  - by apply orNumber_nonzero.
  - by apply orString_nonempty.
  - apply detectBitDepth_cases.
  - exists data. split; [done|]. rewrite Ha. eauto.
Qed.

Lemma update_job_at id f g s j :
  jobs s !! id = Some j → f j = g j → update_job id f s = update_job id g s.
Proof.
  intros Hj Hfg. unfold update_job. f_equal. apply alter_ext.
  intros x Hx. by simplify_eq.
Qed.

(** ** The engine: what [extractAudio] resolves with *)

(** X16. When [extractAudio] resolves, the conversion run has ended, the
    metadata is what [getAudioInfo] read from the second probe, and the
    first probe found an audio stream.  The metadata is usable as encoder
    parameters: sample rate and channel count are never 0, the codec name is
    never empty, the bit depth is 16, 24 or 32; and the command that ran
    asked for signed little-endian PCM of exactly that bit depth, with the
    reported sample rate and channel count, in a WAV container, without
    video. *)
Theorem extractAudio_resolves_with_usable_metadata (parseInt : string → Z)
    (inputPath outputPath : string) (probe1 probe2 : ProbeResult) (run : SaveOutcome)
    (command : option Command) (md : AudioMetadata) :
  extractAudio parseInt inputPath outputPath probe1 probe2 run = (command, Some (inr md)) →
  run = SaveEnds ∧
  getAudioInfo parseInt probe2 = inr md ∧
  (∃ data, probe1 = ProbeOk data ∧ is_Some (findStream "audio" data)) ∧
  sampleRate md ≠ 0 ∧ channels md ≠ 0 ∧ codec md ≠ EmptyString ∧
  (bitDepth md = 16 ∨ bitDepth md = 24 ∨ bitDepth md = 32) ∧
  command = Some (mkCommand inputPath true ("pcm_s" +:+ pretty (bitDepth md) +:+ "le")
                            (sampleRate md) (channels md) "wav" outputPath).
Proof.
  unfold extractAudio. destruct probe1 as [m1|d1]; [done|]. simpl.
  destruct (bool_decide (is_Some (findStream "audio" d1))) eqn:Ha; [|done]. simpl.
  destruct (getAudioInfo parseInt probe2) as [err|info] eqn:Hinfo; [done|].
  destruct run; try done. intros [= <- <-].
  destruct (getAudioInfo_resolved _ _ _ Hinfo) as (Hsr & Hch & Hco & Hbd & _).
  split_and!; try done.
  - exists d1. split; [done|]. by apply bool_decide_eq_true in Ha.
  - destruct Hbd as [Hb|[Hb|Hb]]; rewrite Hb; done.
Qed.

Lemma extractAudio_resolves_with_usable_metadata_witness :
  let probe := ProbeOk (mkProbeData
                 [mkProbeStream (Some "video") (Some "h264") None None None None;
                  mkProbeStream (Some "audio") (Some "aac") (Some 44100) None
                                (Some "128000") (Some "s32p")]
                 (mkProbeFormat (Some 10) (Some "mp4"))) in
  let md := mkAudioMetadata 44100 32 2 10 "aac" 128000 in
  SaveEnds = SaveEnds ∧
  getAudioInfo (λ _, 128000) probe = inr md ∧
  (∃ data, probe = ProbeOk data ∧ is_Some (findStream "audio" data)) ∧
  sampleRate md ≠ 0 ∧ channels md ≠ 0 ∧ codec md ≠ EmptyString ∧
  (bitDepth md = 16 ∨ bitDepth md = 24 ∨ bitDepth md = 32) ∧
  Some (mkCommand "in.mp4" true "pcm_s32le" 44100 2 "wav" "out.wav")
  = Some (mkCommand "in.mp4" true ("pcm_s" +:+ pretty (bitDepth md) +:+ "le")
                    (sampleRate md) (channels md) "wav" "out.wav").
Proof.
  intros probe md.
  refine (extractAudio_resolves_with_usable_metadata (λ _, 128000) "in.mp4" "out.wav"
            probe probe SaveEnds _ md _).
  vm_compute. reflexivity.
Defined.

(** ** The engine: how [extractAudio] rejects *)

Lemma extractAudio_rejected parseInt inputPath outputPath probe1 probe2 run command err :
  extractAudio parseInt inputPath outputPath probe1 probe2 run = (command, Some (inl err)) →
  (∀ t, run ≠ SaveThrows t) →
  (∃ m, probe1 = ProbeError m ∧
        err = ErrorInstance ("Failed to extract metadata: " +:+ m)) ∨
  ((∃ d, probe1 = ProbeOk d ∧ findStream "audio" d = None) ∧
   err = ErrorInstance "Video file contains no audio stream") ∨
  ((∃ d, probe1 = ProbeOk d ∧ is_Some (findStream "audio" d)) ∧
   ∃ m, probe2 = ProbeError m ∧
        err = ErrorInstance ("Failed to extract audio info: " +:+ m)) ∨
  ((∃ d, probe1 = ProbeOk d ∧ is_Some (findStream "audio" d)) ∧
   (∃ d, probe2 = ProbeOk d ∧ findStream "audio" d = None) ∧
   err = ErrorInstance "No audio stream found") ∨
  (∃ m, run = SaveErrors m ∧
        err = ErrorInstance ("FFmpeg conversion failed: " +:+ m)).
Proof.
  unfold extractAudio. intros Hex Hrun.
  destruct probe1 as [m1|d1]; simpl in Hex.
  { left. exists m1. split; [done|]. by simplify_eq. }
  destruct (bool_decide (is_Some (findStream "audio" d1))) eqn:Hb; simpl in Hex; last first.
  { apply bool_decide_eq_false in Hb. right. left. split; [|by simplify_eq].
    exists d1. split; [done|]. destruct (findStream "audio" d1); [|done].
    destruct Hb. eauto. }
  apply bool_decide_eq_true in Hb.
  assert (∃ d, ProbeOk d1 = ProbeOk d ∧ is_Some (findStream "audio" d)) as H1 by eauto.
  destruct probe2 as [m2|d2]; simpl in Hex.
  { right. right. left. split; [done|]. exists m2. split; [done|]. by simplify_eq. }
  destruct (findStream "audio" d2) as [a2|] eqn:Ha2; simpl in Hex; last first.
  { right. right. right. left. split_and!; [done|eauto|by simplify_eq]. }
  destruct run as [t| |m|]; try done.
  - by destruct (Hrun t).
  - right. right. right. right. exists m. split; [done|]. by simplify_eq.
Qed.

(** X17. Unless building or saving the command throws, every rejection of
    [extractAudio] is an [Error] with a non-empty message.  When
    [processJob] receives it, the job becomes failed with exactly that
    message as its [error], and [getStatusMessage] reports that message:
    neither of the two fallback texts is used. *)
Theorem engine_rejection_reaches_status_message (parseInt : string → Z)
    (inputPath outputPath : string) (probe1 probe2 : ProbeResult) (run : SaveOutcome)
    (command : option Command) (err : Thrown)
    (s : State) (id : string) (now : Z) (s' : State) :
  extractAudio parseInt inputPath outputPath probe1 probe2 run = (command, Some (inl err)) →
  (∀ t, run ≠ SaveThrows t) →
  reachable s →
  step s (Reject id err now) = Some s' →
  ∃ msg j', err = ErrorInstance msg ∧ msg ≠ EmptyString ∧
    jobs s' !! id = Some j' ∧ status j' = Failed ∧ error j' = Some msg ∧
    completedAt j' = Some now ∧ getStatusMessage j' = msg.
Proof.
  intros Hex Hrun Hr Hstep.
  assert (∃ msg, err = ErrorInstance msg ∧ msg ≠ EmptyString) as (msg & -> & Hmsg).
  { destruct (extractAudio_rejected _ _ _ _ _ _ _ _ Hex Hrun)
      as [(m & _ & ->)|[[_ ->]|[(_ & m & _ & ->)|[(_ & _ & ->)|(m & _ & ->)]]]];
      eexists; (split; [done|]); done. }
  exists msg. pose proof (reachable_wf _ Hr) as Hwf.
  assert (id ∈ awaiting s) as Haw.
  { simpl in Hstep. by case_decide. }
  pose proof (wf_awaiting _ Hwf _ Haw) as Hst.
  destruct (wf_started _ Hwf _ Hst) as (j & Hj & _).
  assert (jobs (preState s (Reject id (ErrorInstance msg) now)) !! id
          = Some (failWrite (ErrorInstance msg) now j)) as Hpre.
  { simpl. by rewrite lookup_alter_eq, Hj. }
  assert (jobs s' !! id = Some (failWrite (ErrorInstance msg) now j)) as Hj'.
  { destruct (step_full _ _ _ Hwf Hstep) as [[-> _]|(h & rest & _ & Hq & _ & ->)]; [done|].
    simpl. rewrite lookup_alter_ne; [exact Hpre|]. intros ->.
    simpl in Hq. assert (id ∈ queue s) as Hin by (rewrite Hq; by left).
    apply (wf_queue _ Hwf) in Hin as (j0 & Hj0 & Hs0).
    destruct (wf_started _ Hwf _ Hst) as (j1 & Hj1 & Hs1). by simplify_eq. }
  eexists. split_and!; try done.
  unfold getStatusMessage. simpl. by rewrite decide_False.
Qed.

Lemma engine_rejection_reaches_status_message_witness :
  ∃ msg j', ErrorInstance "FFmpeg conversion failed: disk full" = ErrorInstance msg ∧
    msg ≠ EmptyString ∧
    jobs (afterEvents 1 [submitA; Reject "a"
            (ErrorInstance "FFmpeg conversion failed: disk full") 6]) !! "a" = Some j' ∧
    status j' = Failed ∧ error j' = Some msg ∧
    completedAt j' = Some 6 ∧ getStatusMessage j' = msg.
Proof.
  refine (engine_rejection_reaches_status_message (λ _, 0) "/up/a/input.mp4" "/up/a/clip.wav"
            (ProbeOk (mkProbeData [mkProbeStream (Some "audio") None None None None None]
                                  (mkProbeFormat None None)))
            (ProbeOk (mkProbeData [mkProbeStream (Some "audio") None None None None None]
                                  (mkProbeFormat None None)))
            (SaveErrors "disk full")
            (Some (mkCommand "/up/a/input.mp4" true "pcm_s16le" 48000 2 "wav" "/up/a/clip.wav"))
            (ErrorInstance "FFmpeg conversion failed: disk full")
            (afterEvents 1 [submitA]) "a" 6 _ _ _ _ _).
  - vm_compute. reflexivity.
  - intros t. discriminate.
  - exists 1%nat, [submitA]. vm_compute. reflexivity.
  - vm_compute. reflexivity.
Defined.

(** X18. [extractAudio] probes the file twice.  When both probes report
    the same thing, the failure branches of the second reading can not be
    taken: the promise never rejects with [No audio stream found] or with
    [Failed to extract audio info]; unless building or saving the command
    throws, a rejection is then a failed probe, a file without an audio
    stream, or a failed conversion run. *)
Theorem repeated_probe_rejects_in_three_ways (parseInt : string → Z)
    (inputPath outputPath : string) (probe : ProbeResult) (run : SaveOutcome)
    (command : option Command) (err : Thrown) :
  extractAudio parseInt inputPath outputPath probe probe run = (command, Some (inl err)) →
  (∀ t, run ≠ SaveThrows t) →
  err ≠ ErrorInstance "No audio stream found" ∧
  (∀ m, err ≠ ErrorInstance ("Failed to extract audio info: " +:+ m)) ∧
  ((∃ m, probe = ProbeError m ∧ command = None ∧
         err = ErrorInstance ("Failed to extract metadata: " +:+ m)) ∨
   (∃ d, probe = ProbeOk d ∧ findStream "audio" d = None ∧ command = None ∧
         err = ErrorInstance "Video file contains no audio stream") ∨
   (∃ m, run = SaveErrors m ∧ is_Some command ∧
         err = ErrorInstance ("FFmpeg conversion failed: " +:+ m))).
Proof.
  intros Hex Hrun.
  assert ((∃ m, probe = ProbeError m ∧ command = None ∧
             err = ErrorInstance ("Failed to extract metadata: " +:+ m)) ∨
          (∃ d, probe = ProbeOk d ∧ findStream "audio" d = None ∧ command = None ∧
             err = ErrorInstance "Video file contains no audio stream") ∨
          (∃ m, run = SaveErrors m ∧ is_Some command ∧
             err = ErrorInstance ("FFmpeg conversion failed: " +:+ m))) as Hcases.
  { revert Hex. unfold extractAudio. destruct probe as [m|d]; simpl.
    { intros [= <- <-]. left. eauto. }
    destruct (bool_decide (is_Some (findStream "audio" d))) eqn:Hb; simpl.
    - apply bool_decide_eq_true in Hb as [a Ha]. rewrite Ha.
      destruct run as [t| |m|]; try done; [by destruct (Hrun t)|].
      intros [= <- <-]. right. right. exists m. split_and!; eauto.
    - apply bool_decide_eq_false in Hb. intros [= <- <-]. right. left. exists d.
      split_and!; try done. destruct (findStream "audio" d); [|done].
      destruct Hb. eauto. }
  split_and!; [..|done].
  - destruct Hcases as [(m & _ & _ & ->)|[(d & _ & _ & _ & ->)|(m & _ & _ & ->)]]; done.
  - intros m'.
    destruct Hcases as [(m & _ & _ & ->)|[(d & _ & _ & _ & ->)|(m & _ & _ & ->)]]; done.
Qed.

Lemma repeated_probe_rejects_in_three_ways_witness :
  let err := ErrorInstance "Video file contains no audio stream" in
  let probe := ProbeOk (mkProbeData [mkProbeStream (Some "video") None None None None None]
                                    (mkProbeFormat None None)) in
  err ≠ ErrorInstance "No audio stream found" ∧
  (∀ m, err ≠ ErrorInstance ("Failed to extract audio info: " +:+ m)) ∧
  ((∃ m, probe = ProbeError m ∧ (None : option Command) = None ∧
         err = ErrorInstance ("Failed to extract metadata: " +:+ m)) ∨
   (∃ d, probe = ProbeOk d ∧ findStream "audio" d = None ∧ (None : option Command) = None ∧
         err = ErrorInstance "Video file contains no audio stream") ∨
   (∃ m, SaveEnds = SaveErrors m ∧ is_Some (None : option Command) ∧
         err = ErrorInstance ("FFmpeg conversion failed: " +:+ m))).
Proof.
  intros err probe.
  refine (repeated_probe_rejects_in_three_ways (λ _, 0) "in.mp4" "out.wav" probe SaveEnds
            None err _ _).
  - vm_compute. reflexivity.
  - intros t. discriminate.
Defined.

(** ** The engine: progress reports *)

(** X19. The engine's progress listener composed with the callback that
    [processJob] passes: whatever [progress.percent] is (missing, zero,
    negative, above 100), the job's stored progress becomes the larger of
    its old value and the reported value capped at 100, and nothing else in
    the service changes.  So the stored progress is the running maximum of
    the capped reports. *)
Theorem engine_progress_is_running_maximum (s : State) (id : string)
    (j : ConversionJob) (percent : option Z) :
  reachable s →
  jobs s !! id = Some j →
  progressListener (Some (progressCallback id)) percent s
  = update_job id (set_progress (Z.max (progress j) (Z.min 100 (default 0 percent)))) s.
Proof.
  intros Hr Hj. pose proof (reachable_wf _ Hr) as Hwf.
  destruct (wf_progress _ Hwf _ _ Hj) as (Hrange & _).
  assert (∀ v, v = progress j → s = update_job id (set_progress v) s) as Hsame.
  { intros v ->. symmetry. apply (update_job_same id _ s j Hj). by destruct j. }
  unfold progressListener, progressCallback. destruct percent as [p|]; simpl.
  - case_decide as Hp.
    + subst p. apply Hsame. lia.
    + apply (update_job_at id _ _ s j Hj). unfold onProgress. case_decide.
      * f_equal. lia.
      * transitivity (set_progress (progress j) j); [by destruct j|f_equal; lia].
  - apply Hsame. lia.
Qed.

Lemma engine_progress_is_running_maximum_witness :
  let s := afterEvents 1 [submitA; Progress "a" 40] in
  progressListener (Some (progressCallback "a")) (Some 250) s
  = update_job "a" (set_progress (Z.max 40 (Z.min 100 (default 0 (Some 250))))) s.
Proof.
  intros s.
  refine (engine_progress_is_running_maximum s "a"
            (mkJob "a" "/up/a/input.mp4" "/up/a/clip.wav" "clip.mp4"
                   Processing 40 1 None None None) (Some 250) _ _).
  - exists 1%nat, [submitA; Progress "a" 40]. vm_compute. reflexivity.
  - vm_compute. reflexivity.
Defined.

(** * Further properties: the file manager *)

(** ** Cleanup timers *)

Lemma timersInSync_dropTimer n st : timersInSync st → timersInSync (dropTimer n st).
Proof.
  intros (H1 & H2 & H3). unfold dropTimer.
  destruct (cleanupTimers st !! n) as [h|] eqn:Hn; [|done].
  split_and!; simpl.
  - intros id h'. rewrite lookup_delete_Some. intros [Hne Hid].
    rewrite elem_of_difference, elem_of_singleton. split; [by eapply H1|].
    intros ->. by apply Hne, (H3 n id h).
  - intros h'. rewrite elem_of_difference, elem_of_singleton. intros [Hin Hne].
    destruct (H2 h' Hin) as [id Hid]. exists id. rewrite lookup_delete_Some.
    split; [|done]. intros ->. congruence.
  - intros id1 id2 h'. rewrite !lookup_delete_Some. intros [_ ?] [_ ?]. by eapply H3.
Qed.

Lemma dropTimer_fields n st :
  dirs (dropTimer n st) = dirs st ∧
  cleanupTimers (dropTimer n st) = delete n (cleanupTimers st) ∧
  pendingTimers (dropTimer n st) ⊆ pendingTimers st ∧
  (∀ h, cleanupTimers st !! n = Some h → h ∉ pendingTimers (dropTimer n st)).
Proof.
  unfold dropTimer. destruct (cleanupTimers st !! n) as [h|] eqn:Hn; simpl.
  - split_and!; [done|done|set_solver|]. intros h' [= <-]. set_solver.
  - split_and!; [done|by rewrite delete_id|done|done].
Qed.


Lemma rmSettles_fields under rm st :
  cleanupTimers (rmSettles under rm st).1 = cleanupTimers st ∧
  pendingTimers (rmSettles under rm st).1 = pendingTimers st ∧
  (rmSettles under rm st).2
    = match rm with Some (EOTHER c) => Some (EOTHER c) | _ => None end ∧
  (∀ n, n ∉ under → dirs (rmSettles under rm st).1 !! n = dirs st !! n) ∧
  (rm = None → ∀ n, n ∈ under → dirs (rmSettles under rm st).1 !! n = None) ∧
  ((∀ n, n ∈ under → dirs st !! n = None) → (rmSettles under rm st).1 = st).
Proof.
  unfold rmSettles. destruct rm as [[|c]|]; simpl; split_and!; try done.
  - intros n Hn. apply option_eq. intros m. rewrite map_lookup_filter_Some. naive_solver.
  - intros _ n Hn. apply map_lookup_filter_None. right. intros m _. simpl. tauto.
  - intros Hnone. unfold rmUnder. destruct st as [d t p]. simpl in *. f_equal.
    apply map_filter_id. intros n m Hm. simpl. intros Hin.
    specialize (Hnone n Hin). congruence.
Qed.

Lemma timersInSync_cleanupJob n under rm st :
  timersInSync st → timersInSync (cleanupJob n under rm st).1.
Proof.
  intros Hs%(timersInSync_dropTimer n). unfold cleanupJob.
  destruct (rmSettles_fields under rm (dropTimer n st)) as (Ht & Hp & _).
  unfold timersInSync. by rewrite Ht, Hp.
Qed.

Lemma store0_inSync : timersInSync store0.
Proof.
  unfold timersInSync, store0. simpl. split_and!.
  - intros id h. rewrite !lookup_insert_Some, lookup_empty. set_solver.
  - intros h. rewrite !elem_of_union, !elem_of_singleton.
    intros [-> | ->]; [exists "a"|exists "c"]; vm_compute; reflexivity.
  - intros id1 id2 h. rewrite !lookup_insert_Some, !lookup_empty. naive_solver.
Qed.

Lemma cleanupJob_spec (jobId : string) (under : gset string) (rm : option FsError)
    (st : FileStore) :
  timersInSync st →
  let r := cleanupJob jobId under rm st in
  cleanupTimers r.1 !! jobId = None ∧
  (∀ h, cleanupTimers st !! jobId = Some h → h ∉ pendingTimers r.1) ∧
  (rm = None → ∀ n, n ∈ under → dirs r.1 !! n = None) ∧
  (r.2 = match rm with Some (EOTHER c) => Some (EOTHER c) | _ => None end) ∧
  (∀ n, n ∉ under → dirs r.1 !! n = dirs st !! n) ∧
  (∀ n, n ≠ jobId → cleanupTimers r.1 !! n = cleanupTimers st !! n ∧
                    ∀ h, cleanupTimers st !! n = Some h → h ∈ pendingTimers r.1) ∧
  ((∀ n, n ∈ under → dirs st !! n = None) → cleanupTimers st !! jobId = None →
   r.1 = st) ∧
  timersInSync r.1.
Proof.
  intros Hs r. pose proof (timersInSync_cleanupJob jobId under rm st Hs) as Hs'.
  fold r in Hs'.
  destruct (dropTimer_fields jobId st) as (Hd & Ht & Hp & Hh).
  destruct (rmSettles_fields under rm (dropTimer jobId st))
    as (Hrt & Hrp & Hr2 & Hout & Hin & Hid).
  fold (cleanupJob jobId under rm st) in Hrt, Hrp, Hr2, Hout, Hin, Hid.
  fold r in Hrt, Hrp, Hr2, Hout, Hin, Hid.
  split_and!; try done.
  - by rewrite Hrt, Ht, lookup_delete_eq.
  - intros h Hh'. rewrite Hrp. by apply Hh.
  - intros n Hn. by rewrite Hout, Hd.
  - intros n Hne. split.
    + by rewrite Hrt, Ht, lookup_delete_ne.
    + intros h Hn. destruct Hs' as (H1 & _). apply (H1 n).
      by rewrite Hrt, Ht, lookup_delete_ne.
  - intros Hnd Hnt.
    assert (dropTimer jobId st = st) as Heq by (unfold dropTimer; by rewrite Hnt).
    rewrite Heq in Hid. by apply Hid.
Qed.



(** X21. [scheduleCleanup] leaves a job with exactly one armed timer: the
    new handle is recorded for the job and armed, a handle recorded before
    is no longer armed, no other job's timer and no directory is touched,
    and the timer map and the armed handles still agree.  The handle is the
    one [setTimeout] returns, which is not among the armed ones. *)
Theorem scheduleCleanup_replaces_timer (jobId : string) (delayMs : Z) (timer : nat)
    (st : FileStore) :
  timersInSync st →
  timer ∉ pendingTimers st →
  let st' := scheduleCleanup jobId delayMs timer st in
  cleanupTimers st' !! jobId = Some timer ∧
  timer ∈ pendingTimers st' ∧
  (∀ old, cleanupTimers st !! jobId = Some old → old ∉ pendingTimers st') ∧
  (∀ n, n ≠ jobId → cleanupTimers st' !! n = cleanupTimers st !! n ∧
                    ∀ h, cleanupTimers st !! n = Some h → h ∈ pendingTimers st') ∧
  dirs st' = dirs st ∧
  timersInSync st'.
Proof.
  intros (H1 & H2 & H3) Hfresh st'.
  assert (∀ n h, cleanupTimers st !! n = Some h → h ≠ timer) as Hne.
  { intros n h Hn ->. by apply Hfresh, (H1 n). }
  assert (pendingTimers st' = {[timer]} ∪
            (pendingTimers st ∖ match cleanupTimers st !! jobId with
                                | Some old => {[old]} | None => ∅ end)) as Hp.
  { unfold st', scheduleCleanup. simpl. destruct (cleanupTimers st !! jobId); [done|].
    by rewrite difference_empty_L. }
  assert (∀ n h, n ≠ jobId → cleanupTimers st !! n = Some h → h ∈ pendingTimers st') as Hkeep.
  { intros n h Hn Hh. rewrite Hp, elem_of_union, elem_of_difference. right.
    split; [by apply (H1 n)|]. destruct (cleanupTimers st !! jobId) as [old|] eqn:Hold;
      [|set_solver]. rewrite elem_of_singleton. intros ->. by apply Hn, (H3 n jobId old). }
  assert (∀ n h, cleanupTimers st' !! n = Some h ↔
            (n = jobId ∧ h = timer) ∨ (n ≠ jobId ∧ cleanupTimers st !! n = Some h)) as Hlk.
  { intros n h. unfold st', scheduleCleanup. simpl. rewrite lookup_insert_Some.
    naive_solver. }
  assert (timer ∈ pendingTimers st') as Hin by (rewrite Hp; set_solver).
  assert (dirs st' = dirs st) as Hd by done.
  clearbody st'. split_and!.
  - apply Hlk. by left.
  - done.
  - intros old Hold. rewrite Hp, Hold. specialize (Hne _ _ Hold). set_solver.
  - intros n Hn. split; [|intros h; by apply Hkeep].
    apply option_eq. intros h. rewrite Hlk. naive_solver.
  - done.
  - split_and!.
    + intros id h [[-> ->]|[Hn Hh]]%Hlk; [done|]. by apply (Hkeep id).
    + intros h. rewrite Hp, elem_of_union, elem_of_singleton, elem_of_difference.
      intros [->|[Hh Hnot]].
      * exists jobId. apply Hlk. by left.
      * destruct (H2 h Hh) as [id Hid]. exists id. apply Hlk. right. split; [|done].
        intros ->. rewrite Hid in Hnot. set_solver.
    + intros id1 id2 h [[-> ->]|[Hn1 Hh1]]%Hlk [[-> Heq]|[Hn2 Hh2]]%Hlk; try done.
      * by destruct (Hne _ _ Hh2).
      * by destruct (Hne _ _ Hh1).
      * by apply (H3 id1 id2 h).
Qed.

Lemma scheduleCleanup_replaces_timer_witness :
  let st' := scheduleCleanup "a" 3600000 11%nat store0 in
  cleanupTimers st' !! "a" = Some 11%nat ∧
  11%nat ∈ pendingTimers st' ∧
  (∀ old, cleanupTimers store0 !! "a" = Some old → old ∉ pendingTimers st') ∧
  (∀ n, n ≠ "a" → cleanupTimers st' !! n = cleanupTimers store0 !! n ∧
                  ∀ h, cleanupTimers store0 !! n = Some h → h ∈ pendingTimers st') ∧
  dirs st' = dirs store0 ∧
  timersInSync st'.
Proof.
  refine (scheduleCleanup_replaces_timer "a" 3600000 11%nat store0 _ _).
  - apply store0_inSync.
  - apply (bool_decide_unpack _). vm_compute. exact I.
Defined.

(** X22. The callback of a job's cleanup timer runs in two blocks around
    [await this.cleanupJob(jobId)].  The first block leaves the job without
    a recorded timer, the fired handle disarmed, the directories untouched
    and the timer map in agreement with the armed handles.  If the callback
    resumes before any other block has run, the two blocks together do what
    one call of [cleanupJob] does, and the closing [cleanupTimers.delete]
    finds nothing to delete.  In general the resumed block removes what
    [fs.rm] removed and, unless [cleanupJob] threw, deletes whatever entry
    [cleanupTimers] then holds for the job, without disarming it: when
    nothing was scheduled for the job meanwhile the agreement is kept; when
    [scheduleCleanup] ran for the job meanwhile, its handle stays armed but
    is no longer recorded, and the agreement is lost. *)
Theorem cleanupTimerFires_contract (jobId : string) (timer : nat) (under : gset string)
    (rm : option FsError) (st : FileStore) :
  timersInSync st →
  cleanupTimers st !! jobId = Some timer →
  let st1 := cleanupTimerFires jobId timer st in
  (cleanupTimers st1 !! jobId = None ∧ (timer ∉ pendingTimers st1) ∧
   dirs st1 = dirs st ∧ timersInSync st1 ∧
   ∀ n, n ≠ jobId → cleanupTimers st1 !! n = cleanupTimers st !! n) ∧
  cleanupTimerResumes jobId under rm st1 = cleanupJob jobId under rm st ∧
  (∀ st2, timersInSync st2 →
     let r := cleanupTimerResumes jobId under rm st2 in
     pendingTimers r.1 = pendingTimers st2 ∧
     (r.2 = match rm with Some (EOTHER c) => Some (EOTHER c) | _ => None end) ∧
     (r.2 = None → cleanupTimers r.1 = delete jobId (cleanupTimers st2)) ∧
     (is_Some r.2 → r.1 = st2) ∧
     (cleanupTimers st2 !! jobId = None → timersInSync r.1) ∧
     (∀ h2, cleanupTimers st2 !! jobId = Some h2 → r.2 = None →
            h2 ∈ pendingTimers r.1 ∧ (∀ id, cleanupTimers r.1 !! id ≠ Some h2) ∧
            ¬ timersInSync r.1)).
Proof.
  intros Hs Ht st1.
  assert (st1 = dropTimer jobId st) as Hst1.
  { unfold st1, cleanupTimerFires, dropTimer. simpl. rewrite Ht. f_equal. set_solver. }
  destruct (dropTimer_fields jobId st) as (Hd & Htm & Hp & Hh).
  split_and!.
  - rewrite Hst1, Htm. by rewrite lookup_delete_eq.
  - rewrite Hst1. by apply Hh.
  - by rewrite Hst1.
  - rewrite Hst1. by apply timersInSync_dropTimer.
  - intros n Hn. rewrite Hst1, Htm. by rewrite lookup_delete_ne.
  - rewrite Hst1. unfold cleanupTimerResumes, cleanupJob.
    destruct (rmSettles_fields under rm (dropTimer jobId st)) as (Hrt & Hrp & Hr2 & _).
    destruct (rmSettles under rm (dropTimer jobId st)) as [st' res] eqn:Hrs. simpl in *.
    rewrite Hr2. destruct rm as [[|c]|]; simpl; try done;
      (f_equal; destruct st' as [d t p]; simpl in *; f_equal;
       rewrite Hrt, Htm; by rewrite delete_delete_eq).
  - intros st2 (H1 & H2 & H3) r.
    destruct (rmSettles_fields under rm st2) as (Hrt & Hrp & Hr2 & _).
    assert (r.2 = match rm with Some (EOTHER c) => Some (EOTHER c) | _ => None end) as Hres.
    { unfold r, cleanupTimerResumes. rewrite Hr2. by destruct rm as [[|c]|]. }
    assert (pendingTimers r.1 = pendingTimers st2) as Hpend.
    { unfold r, cleanupTimerResumes. rewrite Hr2.
      destruct rm as [[|c]|]; simpl; try done. }
    assert (r.2 = None → cleanupTimers r.1 = delete jobId (cleanupTimers st2)) as Hdel.
    { unfold r, cleanupTimerResumes. rewrite Hr2.
      destruct rm as [[|c]|]; simpl; try done. }
    split_and!; try done.
    + rewrite Hres. unfold r, cleanupTimerResumes. rewrite Hr2.
      destruct rm as [[|c]|]; simpl; by intros [? ?].
    + intros Hnone. unfold timersInSync. rewrite Hpend.
      destruct (r.2) as [err|] eqn:Hr.
      * assert (cleanupTimers r.1 = cleanupTimers st2) as ->; [|done].
        revert Hr. unfold r, cleanupTimerResumes. rewrite Hr2.
        destruct rm as [[|c]|]; simpl; done.
      * rewrite (Hdel eq_refl), delete_id by done. done.
    + intros h2 Hh2 Hr. rewrite Hpend, (Hdel Hr).
      assert (∀ id, delete jobId (cleanupTimers st2) !! id ≠ Some h2) as Hgone.
      { intros id. rewrite lookup_delete_Some. intros [Hne Hid].
        by apply Hne, (H3 jobId id h2). }
      split_and!; [by apply (H1 jobId)|done|].
      intros (_ & H2' & _). rewrite Hpend, (Hdel Hr) in H2'.
      destruct (H2' h2) as [id Hid]; [by apply (H1 jobId)|]. by apply (Hgone id).
Qed.

Lemma cleanupTimerFires_contract_witness :
  let st1 := cleanupTimerFires "c" 9%nat store0 in
  (cleanupTimers st1 !! "c" = None ∧ (9%nat ∉ pendingTimers st1) ∧
   dirs st1 = dirs store0 ∧ timersInSync st1 ∧
   ∀ n, n ≠ "c" → cleanupTimers st1 !! n = cleanupTimers store0 !! n) ∧
  cleanupTimerResumes "c" {["c"]} None st1 = cleanupJob "c" {["c"]} None store0 ∧
  (∀ st2, timersInSync st2 →
     let r := cleanupTimerResumes "c" {["c"]} None st2 in
     pendingTimers r.1 = pendingTimers st2 ∧
     (r.2 = None) ∧
     (r.2 = None → cleanupTimers r.1 = delete "c" (cleanupTimers st2)) ∧
     (is_Some r.2 → r.1 = st2) ∧
     (cleanupTimers st2 !! "c" = None → timersInSync r.1) ∧
     (∀ h2, cleanupTimers st2 !! "c" = Some h2 → r.2 = None →
            h2 ∈ pendingTimers r.1 ∧ (∀ id, cleanupTimers r.1 !! id ≠ Some h2) ∧
            ¬ timersInSync r.1)).
Proof.
  refine (cleanupTimerFires_contract "c" 9%nat {["c"]} None store0 _ _).
  - apply store0_inSync.
  - vm_compute. reflexivity.
Defined.

(** A job rescheduled while the callback of its timer awaits [fs.rm]: the
    new handle stays armed and is no longer recorded. *)
Example reschedule_during_removal_is_forgotten :
  let st1 := cleanupTimerFires "c" 9%nat store0 in
  let st2 := scheduleCleanup "c" 3600000 11%nat st1 in
  let r := cleanupTimerResumes "c" {["c"]} None st2 in
  cleanupTimers st2 !! "c" = Some 11%nat ∧
  cleanupTimers r.1 !! "c" = None ∧
  elements (pendingTimers r.1) = [11%nat; 7%nat] ∧
  cleanupTimers r.1 = <["a" := 7%nat]> ∅.
Proof. vm_compute. done. Qed.





(** ** The service's calls to the file manager *)

Lemma replayCleanups_spec rm l : ∀ st,
  timersInSync st →
  let st' := replayCleanups rm l st in
  timersInSync st' ∧
  (∀ id, CleanupJob id ∈ l →
         cleanupTimers st' !! id = None ∧ (rm id = None → dirs st' !! id = None)) ∧
  (∀ id, CleanupJob id ∉ l →
         dirs st' !! id = dirs st !! id ∧ cleanupTimers st' !! id = cleanupTimers st !! id).
Proof.
  induction l as [|e l IH]; intros st Hs; cbv zeta.
  - simpl. split_and!; [done| |done]. by intros id ?%elem_of_nil.
  - destruct (IH st Hs) as (Hs' & Hin & Hout). cbn [replayCleanups].
    set (st1 := replayCleanups rm l st) in *.
    destruct e as [k|k|k|k|a|k];
      try (split_and!; [done
                       |intros id [?|?]%elem_of_cons; [done|by apply Hin]
                       |intros id [_ ?]%not_elem_of_cons; by apply Hout]).
    destruct (cleanupJob_spec k {[k]} (rm k) st1 Hs') as (H1 & _ & H3 & _ & H5 & H6 & _ & H8).
    split_and!; [done|..].
    + intros id Hid. destruct (decide (id = k)) as [->|Hne].
      { split; [done|]. intros Hrm. apply (H3 Hrm). by apply elem_of_singleton. }
      apply elem_of_cons in Hid as [?|Hid]; [congruence|].
      destruct (H6 id Hne) as (-> & _). rewrite H5 by (by rewrite elem_of_singleton).
      by apply Hin.
    + intros id [Hne Hid]%not_elem_of_cons.
      assert (id ≠ k) as Hne' by congruence.
      destruct (H6 id Hne') as (-> & _). rewrite H5 by (by rewrite elem_of_singleton).
      by apply Hout.
Qed.

(** X24. The service and the file manager together: running the cleanup
    calls the service made, in order, on a store whose timers are in order
    leaves every cancelled job without a cleanup timer and, where [fs.rm]
    returned, without its directory; a job for which no cancel call was ever
    made keeps its directory and its timer, whether it completed, failed,
    timed out or is still waiting. *)
Theorem cancelled_jobs_are_cleaned_up (C : nat) (evs : list Event) (s : State)
    (rm : string → option FsError) (st : FileStore) :
  exec (newService C) evs = Some s →
  timersInSync st →
  let st' := replayCleanups rm (log s) st in
  timersInSync st' ∧
  (∀ id j, jobs s !! id = Some j → status j = Cancelled →
           cleanupTimers st' !! id = None ∧ (rm id = None → dirs st' !! id = None)) ∧
  (∀ id, (∀ now, Cancel id now ∉ evs) →
         dirs st' !! id = dirs st !! id ∧ cleanupTimers st' !! id = cleanupTimers st !! id).
Proof.
  intros Hex Hs st'.
  destruct (replayCleanups_spec rm (log s) st Hs) as (Hs' & Hin & Hout).
  split_and!; [done|..].
  - intros id j Hj Hst. apply Hin.
    destruct (cleanup_exec C evs s id Hex) as [_ Hc]. by eapply Hc.
  - intros id Hno. apply Hout. intros Hlog.
    destruct (cleanup_exec C evs s id Hex) as [Hc _].
    destruct (Hc Hlog) as [now Hnow]. by apply (Hno now).
Qed.

Lemma cancelled_jobs_are_cleaned_up_witness :
  let evs := [submitA; submitB; submitC; Cancel "b" 4; Resolve "a" md0 9] in
  let s := afterEvents 1 evs in
  let st' := replayCleanups (λ _, None) (log s) store0 in
  timersInSync st' ∧
  (∀ id j, jobs s !! id = Some j → status j = Cancelled →
           cleanupTimers st' !! id = None ∧
           ((None : option FsError) = None → dirs st' !! id = None)) ∧
  (∀ id, (∀ now, Cancel id now ∉ evs) →
         dirs st' !! id = dirs store0 !! id ∧
         cleanupTimers st' !! id = cleanupTimers store0 !! id).
Proof.
  intros evs s.
  refine (cancelled_jobs_are_cleaned_up 1 evs s (λ _, None) store0 _ _).
  - vm_compute. reflexivity.
  - apply store0_inSync.
Defined.
